(** * BindableObserver: events, the id cache and relay bindings

    A shallow embedding of the event model ([Event.js], the [EmitEvent]
    class) and of the observer declared in [lib/EventObserver.d.ts].

    JavaScript objects are records, object references are indices into a
    store, the external [Guid.create()] is a state-passing draw from a
    sequence of identifiers, and the synchronous, re-entrant [emit] is a
    function with explicit state passing and a recursion budget. *)

From stdpp Require Import gmap strings list fin_maps.
From Stdlib Require Import ZArith Lia.

(* ===================================================================== *)
(** * Identifiers: the external [guid-typescript] package                 *)
(* ===================================================================== *)

(** A Guid is an opaque value compared by equality. *)
Abbreviation Guid := N (only parsing).

(** [Guid.create()] belongs to the external package [guid-typescript]; it
    is taken as a parameter: an arbitrary sequence of identifiers together
    with the number of identifiers drawn so far.  Nothing is assumed about
    the sequence here; theorems that need it say that it never repeats. *)
Record GuidSource := mkGuidSource {
  drawn : nat;
  sequence : nat -> Guid;
}.

Definition Guid_create (g : GuidSource) : Guid * GuidSource :=
  (sequence g (drawn g), {| drawn := S (drawn g); sequence := sequence g |}).

(** The package's contract: no identifier is produced twice. *)
Definition never_repeats (g : GuidSource) : Prop :=
  forall i j : nat, sequence g i = sequence g j -> i = j.

(* ===================================================================== *)
(** * Events                                                              *)
(* ===================================================================== *)

(** Payload handed to the [Event] constructor. *)
Inductive JsData : Type :=
  | JsUndefined
  | JsNumber (z : Z)
  | JsString (s : string).

(** A concrete Event variant, that is a class deriving from [Event]: the
    identity of its constructor function and the two prototype getters
    [name] and [uniqueName]. *)
Record EventClass := mkEventClass {
  ctor : nat;
  name : string;
  uniqueName : string;
}.

(** An instance.  [id] and [data] are the fields set by [function
    Event(data)]; [_emitted] is the field that only the [EmitEvent]
    constructor sets ([None] is JavaScript's [undefined]). *)
#[warnings="-register-all"]
Inductive Event : Type := mkEvent {
  proto : EventClass;
  id : Guid;
  data : JsData;
  _emitted : option Event;
}.

(** [Event.js]:
    [function Event(data) { this.id = Guid.create(); this.data = data; }]
    run on a new object whose prototype is [cls]. *)
Definition Event_new (cls : EventClass) (d : JsData) (g : GuidSource)
  : Event * GuidSource :=
  let '(fresh, g') := Guid_create g in
  ({| proto := cls; id := fresh; data := d; _emitted := None |}, g').

(** The [EmitEvent] class: both getters return string constants. *)
Definition EmitEvent : EventClass :=
  {| ctor := 0;
     name := "Event Invoked";
     uniqueName := "LoganGerber-BindableObserver-EmitEvent" |}.

(** [function EmitEvent(event) { var _this = _super.call(this) || this;
    _this._emitted = event; return _this; }] *)
Definition EmitEvent_new (event : Event) (g : GuidSource)
  : Event * GuidSource :=
  let '(_this, g') := Event_new EmitEvent JsUndefined g in
  ({| proto := proto _this; id := id _this; data := data _this;
      _emitted := Some event |}, g').

(** The [emitted] getter: [return this._emitted]. *)
Definition emitted (e : Event) : option Event := _emitted e.

(** Constructions performed one after the other on the same source. *)
Inductive Construction : Type :=
  | NewEvent (cls : EventClass) (d : JsData)
  | NewEmitEvent (event : Event).

Definition construct (c : Construction) (g : GuidSource)
  : Event * GuidSource :=
  match c with
  | NewEvent cls d => Event_new cls d g
  | NewEmitEvent event => EmitEvent_new event g
  end.

Fixpoint construct_all (cs : list Construction) (g : GuidSource)
  : list Event * GuidSource :=
  match cs with
  | [] => ([], g)
  | c :: cs' =>
      let '(e, g1) := construct c g in
      let '(es, g2) := construct_all cs' g1 in
      (e :: es, g2)
  end.

(* ===================================================================== *)
(** * The Recency Cache                                                   *)
(* ===================================================================== *)

(** Modelled from the spec: the implementation of the observer is not
    part of the sources (only its declaration file is), so the cache
    operations [contains], [insert] and [setCapacity] of section 4.3 are
    written from the specification.  The cache is the array [idCache]:
    oldest id first, most recent last. *)
Definition cache_contains (i : Guid) (cache : list Guid) : bool :=
  bool_decide (i ∈ cache).

(** Modelled from the spec: "evicts oldest entries until size == n", for a
    positive bound; a bound [<= 0] means no bound. *)
Definition cache_evict (limit : Z) (cache : list Guid) : list Guid :=
  if (0 <? limit)%Z
  then drop (length cache - Z.to_nat limit) cache
  else cache.

(** Modelled from the spec: "adds id as most-recent; if capacity > 0 and
    size now exceeds capacity, evicts the least-recently-inserted id(s)
    until size == capacity". *)
Definition cache_insert (limit : Z) (i : Guid) (cache : list Guid)
  : list Guid :=
  cache_evict limit (cache ++ [i]).

(* ===================================================================== *)
(** * Listeners and the registry                                          *)
(* ===================================================================== *)

(** Observers are objects; a reference to one is its index in the store. *)
Abbreviation ObsId := nat (only parsing).

(** A listener is a function object, compared by reference.  [Callback]
    is a function supplied by the user; [Bubble fn observer] is the
    closure returned by [generateBubbleFunction(observer)], which calls
    [observer.emit] with the event wrapped in the EmitEvent it receives. *)
Inductive Listener : Type :=
  | Callback (fn : nat)
  | Bubble (fn : nat) (observer : ObsId).

#[global] Instance Listener_eq_dec : EqDecision Listener.
Proof. solve_decision. Defined.

(** One entry of the registry: the callback and its "run once" tag. *)
Record Registration := mkRegistration {
  listener : Listener;
  runOnce : bool;
}.

#[global] Instance Registration_eq_dec : EqDecision Registration.
Proof. solve_decision. Defined.

(** The argument of the registration functions,
    [type EventType<T> = T | (new (...args: any) => T)]:
    a live instance or the variant class itself. *)
Inductive EventType : Type :=
  | ByInstance (e : Event)
  | ByClass (cls : EventClass).

(** Modelled from the spec: [getRegisterableEventName] is declared but its
    body is not part of the sources.  One resolver over the two forms; the
    key is the variant's machine-stable unique type name (the declaration
    file calls it the class's name, "which should be unique to a given
    type of Event in any one process"). *)
Definition getRegisterableEventName (event : EventType) : string :=
  match event with
  | ByClass cls => uniqueName cls
  | ByInstance e => uniqueName (proto e)
  end.

(** Direction flags, with the numeric values of the declared enum. *)
Inductive RelayFlags : Type :=
  | RelayNone
  | RelayTo
  | RelayFrom
  | RelayAll.

#[global] Instance RelayFlags_eq_dec : EqDecision RelayFlags.
Proof. solve_decision. Defined.

Definition RelayFlags_value (f : RelayFlags) : Z :=
  match f with
  | RelayNone => 0
  | RelayTo => 1
  | RelayFrom => 2
  | RelayAll => 3
  end.

(** [(flags & flag) != 0] *)
Definition includes (flags flag : RelayFlags) : bool :=
  negb (Z.land (RelayFlags_value flags) (RelayFlags_value flag) =? 0)%Z.

(** Modelled from the spec: a record of the binding table, "direction
    flags plus the two callback handles needed to unregister the relay
    later". *)
Record RelayEntry := mkRelayEntry {
  relayFlags : RelayFlags;
  fromBubble : Listener;
  toBubble : Listener;
}.

(** The private fields of the declared class [EventObserver]. *)
Record EventObserver := mkEventObserver {
  internalEmitter : gmap string (list Registration);
  relays : gmap ObsId RelayEntry;
  idCache : list Guid;
  idCacheLimit : Z;
}.

(** Modelled from the spec: the constructor of [EventObserver] is not part
    of the sources.  A new observer has no listener, no binding and an
    empty cache; the initial value of [idCacheLimit], which neither the
    declaration file nor the spec gives, is a parameter. *)
Definition newObserver (defaultLimit : Z) : EventObserver :=
  {| internalEmitter := ∅; relays := ∅; idCache := [];
     idCacheLimit := defaultLimit |}.

(** Record updates, one per field. *)
Definition with_emitter (m : gmap string (list Registration))
  (ob : EventObserver) : EventObserver :=
  {| internalEmitter := m; relays := relays ob;
     idCache := idCache ob; idCacheLimit := idCacheLimit ob |}.

Definition with_relays (r : gmap ObsId RelayEntry)
  (ob : EventObserver) : EventObserver :=
  {| internalEmitter := internalEmitter ob; relays := r;
     idCache := idCache ob; idCacheLimit := idCacheLimit ob |}.

Definition with_cache (c : list Guid) (ob : EventObserver) : EventObserver :=
  {| internalEmitter := internalEmitter ob; relays := relays ob;
     idCache := c; idCacheLimit := idCacheLimit ob |}.

Definition with_limit (n : Z) (ob : EventObserver) : EventObserver :=
  {| internalEmitter := internalEmitter ob; relays := relays ob;
     idCache := idCache ob; idCacheLimit := n |}.

Module Observer.

(** ** Operations on one observer *)

(** Modelled from the spec: the bodies of the methods of [EventObserver]
    are not part of the sources; the four cache methods "delegate directly
    to the Recency Cache".  [getIdCacheLimit] returns the stored limit. *)
Definition getIdCacheLimit (ob : EventObserver) : Z := idCacheLimit ob.

(** Modelled from the spec: [setCapacity(n)] of section 4.3; the bound is
    stored as given and a stored bound [<= 0] means "unbounded". *)
Definition setIdCacheLimit (limit : Z) (ob : EventObserver)
  : EventObserver :=
  with_limit limit (with_cache (cache_evict limit (idCache ob)) ob).

(** Modelled from the spec: [size()] of the cache. *)
Definition getIdCacheSize (ob : EventObserver) : nat :=
  length (idCache ob).

(** Modelled from the spec: [clear()] of the cache. *)
Definition clearIdCache (ob : EventObserver) : EventObserver :=
  with_cache [] ob.

(** The registrations under [key], in dispatch order. *)
Definition listeners (key : string) (ob : EventObserver)
  : list Registration :=
  default [] (internalEmitter ob !! key).

Definition set_listeners (key : string) (l : list Registration)
  (ob : EventObserver) : EventObserver :=
  with_emitter (<[key := l]> (internalEmitter ob)) ob.

(** Modelled from the spec: [register(key, callback, {once, prepend})]
    "appends (or prepends) a registration". *)
Definition register (key : string) (l : Listener) (once prepend : bool)
  (ob : EventObserver) : EventObserver :=
  let r := {| listener := l; runOnce := once |} in
  set_listeners key
    (if prepend then r :: listeners key ob else listeners key ob ++ [r])
    ob.

(** Removes the first element satisfying [p]. *)
Fixpoint remove_first {A} (p : A -> bool) (l : list A) : list A :=
  match l with
  | [] => []
  | x :: l' => if p x then l' else x :: remove_first p l'
  end.

(** Modelled from the spec: [unregister(key, callback)] "removes the
    first registration for that key whose callback matches; no-op if
    absent". *)
Definition unregister (key : string) (l : Listener) (ob : EventObserver)
  : EventObserver :=
  match internalEmitter ob !! key with
  | None => ob
  | Some regs =>
      set_listeners key
        (remove_first (fun r => bool_decide (listener r = l)) regs) ob
  end.

(** Modelled from the spec: [has(key, callback)], a membership test. *)
Definition has (key : string) (l : Listener) (ob : EventObserver) : bool :=
  existsb (fun r => bool_decide (listener r = l)) (listeners key ob).

(** Modelled from the spec: the registration methods "delegate directly
    to the Registry with the stated key-derivation and ordering rules". *)
Definition on (event : EventType) (l : Listener) :=
  register (getRegisterableEventName event) l false false.
Definition addListener := on.
Definition once (event : EventType) (l : Listener) :=
  register (getRegisterableEventName event) l true false.
Definition prependListener (event : EventType) (l : Listener) :=
  register (getRegisterableEventName event) l false true.
Definition prependOnceListener (event : EventType) (l : Listener) :=
  register (getRegisterableEventName event) l true true.
Definition removeListener (event : EventType) (l : Listener) :=
  unregister (getRegisterableEventName event) l.
Definition off := removeListener.
Definition hasListener (event : EventType) (l : Listener) :=
  has (getRegisterableEventName event) l.

(** Modelled from the spec: [unregisterAll(key?)] "if key given, clears
    all registrations for that key; if omitted, clears every key". *)
Definition removeAllListeners (event : option EventType)
  (ob : EventObserver) : EventObserver :=
  match event with
  | Some ev =>
      with_emitter (delete (getRegisterableEventName ev)
                      (internalEmitter ob)) ob
  | None => with_emitter ∅ ob
  end.

(** Modelled from the spec: [checkBinding] "returns the recorded
    direction, or "unbound" if no record exists" ([undefined] in the
    declaration). *)
Definition checkBinding (relay : ObsId) (ob : EventObserver)
  : option RelayFlags :=
  relayFlags <$> relays ob !! relay.

End Observer.

(* ===================================================================== *)
(** * The store of observers and the emit cascade                         *)
(* ===================================================================== *)

(** What an emit makes observable. *)
Inductive Action : Type :=
  | Invoked (observer : ObsId) (fn : nat) (event : Event)
  | Relayed (source target : ObsId) (event : Event)
  | Wrapped (observer : ObsId) (invoked : Event).

(** The whole program state: the observers by reference, the Guid source,
    the next identity for a closure made by [generateBubbleFunction], and
    the actions performed so far (most recent first). *)
Record World := mkWorld {
  store : list EventObserver;
  guids : GuidSource;
  closures : nat;
  trace : list Action;
}.

(** Before any observer is created. *)
Definition emptyWorld (g : GuidSource) : World :=
  {| store := []; guids := g; closures := 0; trace := [] |}.

Definition with_store (s : list EventObserver) (w : World) : World :=
  {| store := s; guids := guids w; closures := closures w;
     trace := trace w |}.

Definition put (self : ObsId) (ob : EventObserver) (w : World) : World :=
  with_store (<[self := ob]> (store w)) w.

Definition log (a : Action) (w : World) : World :=
  {| store := store w; guids := guids w; closures := closures w;
     trace := a :: trace w |}.

(** How a call ends: normally, with an exception that unwinds to the
    caller of the outermost [emit], or not within the recursion budget. *)
Inductive Outcome (A : Type) : Type :=
  | Done (a : A) (w : World)
  | Throw (w : World)
  | OutOfFuel.
Arguments Done {A} a w.
Arguments Throw {A} w.
Arguments OutOfFuel {A}.

(** Sequencing: an exception and an exhausted budget propagate. *)
Definition andThen {A B} (x : Outcome A) (k : A -> World -> Outcome B)
  : Outcome B :=
  match x with
  | Done a w => k a w
  | Throw w => Throw w
  | OutOfFuel => OutOfFuel
  end.

Section Dispatch.

(** [emit] of the next recursion level (the callee of a relay closure). *)
Variable emit_rec : World -> ObsId -> Event -> Outcome bool.

(** Modelled from the spec: the relay closure of section 4.4, step 2,
    "extracts the wrapped event from the EmitEvent payload and calls
    peer.emit(wrappedEvent)".
    Calling one listener of observer [self] with [ev]: a user callback is
    recorded; its body is the caller's code, which is not modelled and is
    taken not to call back into the observers.  A relay closure reads
    [ev.emitted] and calls [emit] on its observer (with [undefined], [emit]
    fails reading the id). *)
Definition call_listener (self : ObsId) (l : Listener) (ev : Event)
  (w : World) : Outcome unit :=
  match l with
  | Callback fn => Done tt (log (Invoked self fn ev) w)
  | Bubble _ target =>
      match emitted ev with
      | Some wrapped =>
          andThen (emit_rec (log (Relayed self target wrapped) w)
                     target wrapped)
                  (fun _ w' => Done tt w')
      | None => Throw w
      end
  end.

(** Modelled from the spec: [dispatch(key, eventInstance)] "invokes, in
    order, every currently-registered callback"; a "once" callback is
    removed before its invocation and cannot fire twice.  The result tells
    whether at least one callback was invoked. *)
Fixpoint run_listeners (self : ObsId) (key : string)
  (snapshot : list Registration) (ev : Event) (w : World) : Outcome bool :=
  match snapshot with
  | [] => Done false w
  | r :: rest =>
      if runOnce r then
        match store w !! self with
        | None => Throw w
        | Some ob =>
            if bool_decide (r ∈ Observer.listeners key ob) then
              andThen
                (call_listener self (listener r) ev
                   (put self
                      (Observer.set_listeners key
                         (Observer.remove_first
                            (fun r' => bool_decide (r' = r))
                            (Observer.listeners key ob)) ob) w))
                (fun _ w1 =>
                   andThen (run_listeners self key rest ev w1)
                           (fun _ w2 => Done true w2))
            else run_listeners self key rest ev w
        end
      else
        andThen (call_listener self (listener r) ev w)
                (fun _ w1 =>
                   andThen (run_listeners self key rest ev w1)
                           (fun _ w2 => Done true w2))
  end.

(** The dispatch of [ev] on [self], to a snapshot of the registrations
    under the key of [ev]. *)
Definition dispatch (self : ObsId) (ev : Event) (w : World) : Outcome bool :=
  match store w !! self with
  | None => Throw w
  | Some ob =>
      let key := getRegisterableEventName (ByInstance ev) in
      run_listeners self key (Observer.listeners key ob) ev w
  end.

(** Modelled from the spec: the body of [emit] is not part of the sources.
    Section 4.5: the cache gate, the insertion, the dispatch of the event,
    then the construction of the EmitEvent and its dispatch; the result is
    the one of the first dispatch.  For the EmitEvent the model follows
    the declaration of [emit] ("This event's id is not stored in the id
    cache") and sections 2, 3 and 4.4 of the spec ("never cached", "never
    cache-checked"): it is handed to the listeners of the EmitEvent key
    and does not go through [emit] again, which would wrap it in turn,
    without end.  A reference that is not in the store cannot come from
    [create]; using one is taken to throw. *)
Definition emit_body (self : ObsId) (event : Event) (w : World)
  : Outcome bool :=
  match store w !! self with
  | None => Throw w
  | Some ob =>
      if cache_contains (id event) (idCache ob) then Done false w
      else
        let ob1 :=
          with_cache
            (cache_insert (idCacheLimit ob) (id event) (idCache ob)) ob in
        andThen (dispatch self event (put self ob1 w))
          (fun ret w2 =>
             let '(invoked, g') := EmitEvent_new event (guids w2) in
             let w3 :=
               {| store := store w2; guids := g';
                  closures := closures w2;
                  trace := Wrapped self invoked :: trace w2 |} in
             andThen (dispatch self invoked w3)
                     (fun _ w4 => Done ret w4))
  end.

End Dispatch.

(** [emit(event)] on the observer [self], with a recursion budget. *)
Fixpoint emit (fuel : nat) (w : World) (self : ObsId) (event : Event)
  : Outcome bool :=
  match fuel with
  | 0 => OutOfFuel
  | S fuel' => emit_body (emit fuel') self event w
  end.

(* ===================================================================== *)
(** * The public operations, on observers held by reference               *)
(* ===================================================================== *)

(** Applies a method that only touches the fields of [self]. *)
Definition update (self : ObsId) (f : EventObserver -> EventObserver)
  (w : World) : World :=
  match store w !! self with
  | Some ob => put self (f ob) w
  | None => w
  end.

(** [new EventObserver()]: a new object in the store, returned by
    reference. *)
Definition create (defaultLimit : Z) (w : World) : ObsId * World :=
  (length (store w), with_store (store w ++ [newObserver defaultLimit]) w).

(** Modelled from the spec: [generateBubbleFunction(observer)] is declared
    private and its body is not part of the sources; it returns a new
    closure each time, the relay listener of section 4.4. *)
Definition generateBubbleFunction (observer : ObsId) (w : World)
  : Listener * World :=
  (Bubble (closures w) observer,
   {| store := store w; guids := guids w; closures := S (closures w);
      trace := trace w |}).

(** [self.checkBinding(relay)], on references. *)
Definition checkBinding (self relay : ObsId) (w : World)
  : option RelayFlags :=
  store w !! self ≫= Observer.checkBinding relay.

(** Modelled from the spec: [unbind(self, peer)] "removes whatever relay
    listeners were installed per the recorded direction and deletes the
    binding record; no-op if unbound". *)
Definition unbind (self relay : ObsId) (w : World) : World :=
  match store w !! self ≫= (fun ob => relays ob !! relay) with
  | None => w
  | Some entry =>
      let w1 :=
        if includes (relayFlags entry) RelayTo
        then update self
               (Observer.removeListener (ByClass EmitEvent) (toBubble entry))
               w
        else w in
      let w2 :=
        if includes (relayFlags entry) RelayFrom
        then update relay
               (Observer.removeListener (ByClass EmitEvent)
                  (fromBubble entry))
               w1
        else w1 in
      update self (fun ob => with_relays (delete relay (relays ob)) ob) w2
  end.

(** Modelled from the spec: [bind(self, peer, direction)], steps 1 to 4 of
    section 4.4; the direction defaults to [RelayFlags.All]. *)
Definition bind (self relay : ObsId) (flags : option RelayFlags) (w : World)
  : World :=
  match store w !! self, store w !! relay with
  | Some _, Some _ =>
      let direction := default RelayAll flags in
      let w0 := unbind self relay w in
      let '(toFn, w1) := generateBubbleFunction relay w0 in
      let '(fromFn, w2) := generateBubbleFunction self w1 in
      let w3 :=
        if includes direction RelayTo
        then update self (Observer.on (ByClass EmitEvent) toFn) w2
        else w2 in
      let w4 :=
        if includes direction RelayFrom
        then update relay (Observer.on (ByClass EmitEvent) fromFn) w3
        else w3 in
      update self
        (fun ob =>
           with_relays
             (<[relay := {| relayFlags := direction; fromBubble := fromFn;
                            toBubble := toFn |}]> (relays ob)) ob)
        w4
  | _, _ => w
  end.

(** One call of the public interface.  The listeners a caller can pass are
    its own functions; relay closures are private to [bind]. *)
Inductive Op : Type :=
  | OpNew (defaultLimit : Z)
  | OpSetIdCacheLimit (self : ObsId) (limit : Z)
  | OpClearIdCache (self : ObsId)
  | OpOn (self : ObsId) (event : EventType) (fn : nat)
  | OpOnce (self : ObsId) (event : EventType) (fn : nat)
  | OpPrependListener (self : ObsId) (event : EventType) (fn : nat)
  | OpPrependOnceListener (self : ObsId) (event : EventType) (fn : nat)
  | OpRemoveListener (self : ObsId) (event : EventType) (fn : nat)
  | OpRemoveAllListeners (self : ObsId) (event : option EventType)
  | OpEmit (fuel : nat) (self : ObsId) (event : Event)
  | OpBind (self relay : ObsId) (flags : option RelayFlags)
  | OpUnbind (self relay : ObsId).

(** The state after the call; [None] when an [emit] does not complete
    within its budget.  An [emit] that throws leaves the state it had
    reached. *)
Definition apply_op (op : Op) (w : World) : option World :=
  match op with
  | OpNew lim => Some (snd (create lim w))
  | OpSetIdCacheLimit self lim =>
      Some (update self (Observer.setIdCacheLimit lim) w)
  | OpClearIdCache self => Some (update self Observer.clearIdCache w)
  | OpOn self ev fn => Some (update self (Observer.on ev (Callback fn)) w)
  | OpOnce self ev fn =>
      Some (update self (Observer.once ev (Callback fn)) w)
  | OpPrependListener self ev fn =>
      Some (update self (Observer.prependListener ev (Callback fn)) w)
  | OpPrependOnceListener self ev fn =>
      Some (update self (Observer.prependOnceListener ev (Callback fn)) w)
  | OpRemoveListener self ev fn =>
      Some (update self (Observer.removeListener ev (Callback fn)) w)
  | OpRemoveAllListeners self ev =>
      Some (update self (Observer.removeAllListeners ev) w)
  | OpEmit fuel self ev =>
      match emit fuel w self ev with
      | Done _ w' => Some w'
      | Throw w' => Some w'
      | OutOfFuel => None
      end
  | OpBind self relay flags => Some (bind self relay flags w)
  | OpUnbind self relay => Some (unbind self relay w)
  end.

(** A sequence of calls. *)
Fixpoint run (ops : list Op) (w : World) : option World :=
  match ops with
  | [] => Some w
  | op :: ops' =>
      match apply_op op w with
      | Some w' => run ops' w'
      | None => None
      end
  end.

(** The states a program can reach from an empty store. *)
Definition reachable (w : World) : Prop :=
  exists (g : GuidSource) (ops : list Op), run ops (emptyWorld g) = Some w.

(* ===================================================================== *)
(** * Notions used in the statements and in the proofs                    *)
(* ===================================================================== *)

(** The ids of an event and of the events nested in it through
    [_emitted]. *)
Fixpoint nested_ids (e : Event) : list Guid :=
  match e with
  | mkEvent _ i _ (Some e') => i :: nested_ids e'
  | mkEvent _ i _ None => [i]
  end.

(** The world a call ends in, when it ends. *)
Definition final {A} (o : Outcome A) : option World :=
  match o with
  | Done _ w => Some w
  | Throw w => Some w
  | OutOfFuel => None
  end.

(** The elementary state changes of an emit: an id enters a cache, a
    "once" registration leaves the registry, an action is recorded, an
    EmitEvent is constructed.  [allowed] bounds the ids that may enter. *)
Inductive cascade_step (allowed : Guid -> Prop) : World -> World -> Prop :=
  | step_cache self ob i w :
      store w !! self = Some ob ->
      allowed i ->
      i ∉ idCache ob ->
      cascade_step allowed w
        (put self
           (with_cache (cache_insert (idCacheLimit ob) i (idCache ob)) ob) w)
  | step_once self ob key r w :
      store w !! self = Some ob ->
      runOnce r = true ->
      cascade_step allowed w
        (put self
           (Observer.set_listeners key
              (Observer.remove_first (fun r' => bool_decide (r' = r))
                 (Observer.listeners key ob)) ob) w)
  | step_log a w :
      cascade_step allowed w (log a w)
  | step_wrap self ev w :
      cascade_step allowed w
        {| store := store w; guids := snd (EmitEvent_new ev (guids w));
           closures := closures w;
           trace := Wrapped self (fst (EmitEvent_new ev (guids w)))
                    :: trace w |}.

(** Any number of such steps. *)
Definition cascade (allowed : Guid -> Prop) : World -> World -> Prop :=
  rtc (cascade_step allowed).

(** A relation [Q] between the state of each observer before and the
    state of the same observer after. *)
Definition pointwise (Q : EventObserver -> EventObserver -> Prop)
  (w w' : World) : Prop :=
  length (store w') = length (store w) /\
  forall i ob,
    store w !! i = Some ob ->
    exists ob', store w' !! i = Some ob' /\ Q ob ob'.

(** Is the registered callback a relay closure? *)
Definition is_bubble (r : Registration) : bool :=
  match listener r with
  | Bubble _ _ => true
  | Callback _ => false
  end.

(** The relay closures among some registrations. *)
Fixpoint count_bubbles (l : list Registration) : nat :=
  match l with
  | [] => 0
  | r :: l' => (if is_bubble r then 1 else 0) + count_bubbles l'
  end.

(** The relay closures installed on an observer: they are registered
    under the EmitEvent key. *)
Definition installed_relays (ob : EventObserver) : nat :=
  count_bubbles
    (Observer.listeners (getRegisterableEventName (ByClass EmitEvent)) ob).

(** The sum of [f] over the observers of a store. *)
Fixpoint weight (f : EventObserver -> nat) (l : list EventObserver) : nat :=
  match l with
  | [] => 0
  | ob :: l' => f ob + weight f l'
  end.

(** An observer before and after some steps of a cascade of an event [e]
    that wraps nothing. *)
Definition plain_rel (e : Event) (ob ob' : EventObserver) : Prop :=
  idCacheLimit ob' = idCacheLimit ob /\
  relays ob' = relays ob /\
  installed_relays ob' <= installed_relays ob /\
  (idCache ob' = idCache ob \/
   ((id e ∉ idCache ob) /\
    idCache ob' = cache_insert (idCacheLimit ob) (id e) (idCache ob))).

(** An observer that has not seen [e] counts [g] times. *)
Definition unseen (e : Event) (g : EventObserver -> nat)
  (ob : EventObserver) : nat :=
  if cache_contains (id e) (idCache ob) then 0 else g ob.

(** The number of observers that have not seen [e]. *)
Definition uncached (e : Event) (w : World) : nat :=
  weight (unseen e (fun _ => 1)) (store w).

(** The number of relay closures installed on the observers that have not
    seen [e]. *)
Definition pending (e : Event) (w : World) : nat :=
  weight (unseen e installed_relays) (store w).

(** The calls [observer.emit(...)] made by relay closures. *)
Fixpoint relay_calls (t : list Action) : nat :=
  match t with
  | [] => 0
  | Relayed _ _ _ :: t' => S (relay_calls t')
  | _ :: t' => relay_calls t'
  end.

(** The EmitEvents constructed by [emit]: one per emit that got through
    the cache gate and through the dispatch of its event. *)
Fixpoint wraps (t : list Action) : nat :=
  match t with
  | [] => 0
  | Wrapped _ _ :: t' => S (wraps t')
  | _ :: t' => wraps t'
  end.

(** The relay calls a dispatch of [ev] to [snapshot] makes by itself. *)
Definition relays_of (ev : Event) (snapshot : list Registration) : nat :=
  match emitted ev with
  | Some _ => count_bubbles snapshot
  | None => 0
  end.

(** The events dispatched during a cascade of [e]: [e] itself, which wraps
    nothing, and the EmitEvents that wrap [e]. *)
Definition carries (e ev : Event) : Prop :=
  forall x, emitted ev = Some x -> x = e.

(** The direction [checkBinding(self, relay)] is expected to return after
    the calls [ops], when it returned [current] before them. *)
Fixpoint recorded (self relay : ObsId) (ops : list Op)
  (current : option RelayFlags) : option RelayFlags :=
  match ops with
  | [] => current
  | OpBind s r flags :: ops' =>
      recorded self relay ops'
        (if decide (s = self /\ r = relay)
         then Some (default RelayAll flags)
         else current)
  | OpUnbind s r :: ops' =>
      recorded self relay ops'
        (if decide (s = self /\ r = relay) then None else current)
  | _ :: ops' => recorded self relay ops' current
  end.

(** The binding table of an observer, when the reference is valid. *)
Definition relays_at (self : ObsId) (w : World)
  : option (gmap nat RelayEntry) :=
  relays <$> store w !! self.

(** The cache of an observer respects its bound. *)
Definition cache_bounded (ob : EventObserver) : Prop :=
  (0 < idCacheLimit ob)%Z ->
  (Z.of_nat (Observer.getIdCacheSize ob) <= idCacheLimit ob)%Z.

(** An observer before and after some steps of any cascade. *)
Definition any_rel (allowed : Guid -> Prop) (ob ob' : EventObserver) : Prop :=
  idCacheLimit ob' = idCacheLimit ob /\
  relays ob' = relays ob /\
  (forall i, i ∈ idCache ob' -> i ∈ idCache ob \/ allowed i) /\
  (cache_bounded ob -> cache_bounded ob').

(** A user function registered with [on]. *)
Definition persistent (fn : nat) : Registration :=
  {| listener := Callback fn; runOnce := false |}.

(** Registrations that are not "once" stay through a cascade. *)
Definition keeps_persistent (ob ob' : EventObserver) : Prop :=
  forall key r,
    runOnce r = false ->
    r ∈ Observer.listeners key ob -> r ∈ Observer.listeners key ob'.

(** A method that leaves the cache and its limit alone. *)
Definition keeps_cache (f : EventObserver -> EventObserver) : Prop :=
  forall ob,
    idCache (f ob) = idCache ob /\ idCacheLimit (f ob) = idCacheLimit ob.

(** The cache after the ids [ids] went through the gate one by one. *)
Definition gate_all (limit : Z) (cache : list Guid) (ids : list Guid)
  : list Guid :=
  foldl
    (fun c i => if cache_contains i c then c else cache_insert limit i c)
    cache ids.

(** [x] is [y], unless [x] ran out of budget. *)
Definition refines {A} (x y : Outcome A) : Prop :=
  x = OutOfFuel \/ x = y.

(** The key [bind] installs relay listeners on. *)
Definition EmitEvent_key : string :=
  getRegisterableEventName (ByClass EmitEvent).

(** The world in which [emit] dispatches the EmitEvent it has just
    constructed. *)
Definition wrap_world (self : ObsId) (e : Event) (w : World) : World :=
  {| store := store w;
     guids := snd (EmitEvent_new e (guids w));
     closures := closures w;
     trace := Wrapped self (fst (EmitEvent_new e (guids w))) :: trace w |}.

(** An observer whose only listener is one relay closure. *)
Definition relay_only (target : ObsId) (ob : EventObserver) : Prop :=
  exists fn,
    forall key,
      Observer.listeners key ob
      = if decide (key = EmitEvent_key)
        then [{| listener := Bubble fn target; runOnce := false |}]
        else [].

(** Two observers that keep one id each and relay to each other. *)
Definition echo_pair (s : list EventObserver) : Prop :=
  length s = 2 /\
  forall i ob,
    s !! i = Some ob -> idCacheLimit ob = 1%Z /\ relay_only (1 - i) ob.

(** The cache of the observer at index [i]. *)
Definition cache_of (s : list EventObserver) (i : ObsId) : list Guid :=
  default [] (idCache <$> s !! i).

(** Every relay closure is registered under the EmitEvent key and relays
    to an observer of the store. *)
Definition relays_valid (w : World) : Prop :=
  forall i ob key r fn target,
    store w !! i = Some ob ->
    r ∈ Observer.listeners key ob ->
    listener r = Bubble fn target ->
    key = EmitEvent_key /\ target < length (store w).

(** The registry of an observer only loses registrations. *)
Definition shrinks (ob ob' : EventObserver) : Prop :=
  forall key r,
    r ∈ Observer.listeners key ob' -> r ∈ Observer.listeners key ob.

(** The call returned (it did not throw). *)
Definition returns {A} (x : Outcome A) : Prop :=
  exists a w', x = Done a w'.

(** The relay closures of [snapshot] can be called with [ev]. *)
Definition safe_for (ev : Event) (n : nat) (snapshot : list Registration)
  : Prop :=
  forall r fn target,
    r ∈ snapshot -> listener r = Bubble fn target ->
    is_Some (emitted ev) /\ target < n.

(** The call a dispatch makes for a registration of a user function. *)
Definition invocation (self : ObsId) (ev : Event) (r : Registration)
  : option Action :=
  match listener r with
  | Callback fn => Some (Invoked self fn ev)
  | Bubble _ _ => None
  end.

(** The calls of user functions a dispatch of [ev] to the registrations
    [l] makes, first call first. *)
Definition invocations (self : ObsId) (ev : Event) (l : list Registration)
  : list Action :=
  omap (invocation self ev) l.

(** The registrations that are not "once". *)
Definition stays (l : list Registration) : list Registration :=
  filter (fun r => runOnce r = false) l.

(** Two states of an observer that differ at most in the registrations
    under the keys [keys]. *)
Definition same_but_keys (keys : list string) (ob ob' : EventObserver)
  : Prop :=
  relays ob' = relays ob /\
  idCache ob' = idCache ob /\
  idCacheLimit ob' = idCacheLimit ob /\
  forall key, key ∉ keys ->
    Observer.listeners key ob' = Observer.listeners key ob.

(** Between two states of an observer: the registrations under a key that
    holds no "once" registration are unchanged. *)
Definition settled (ob ob' : EventObserver) : Prop :=
  forall key,
    Forall (fun r => runOnce r = false) (Observer.listeners key ob) ->
    Observer.listeners key ob' = Observer.listeners key ob.

(** A user function registered with [once]. *)
Definition transient (fn : nat) : Registration :=
  {| listener := Callback fn; runOnce := true |}.

(** A relay closure registered with [on], as [bind] does. *)
Definition relay_to (fn : nat) (target : ObsId) : Registration :=
  {| listener := Bubble fn target; runOnce := false |}.

(** How many times the function [l] is registered under [key]. *)
Definition registrations (key : string) (l : Listener) (ob : EventObserver)
  : nat :=
  length (filter (fun r => listener r = l) (Observer.listeners key ob)).

(** Between two states: the trace has grown, and every observer that has
    taken the id of [e] into its cache in between has had the user
    functions registered with [on] for [e] called with [e]. *)
Definition arrives (e : Event) (w w' : World) : Prop :=
  exists new,
    trace w' = new ++ trace w /\
    forall o ob ob' fn,
      store w !! o = Some ob ->
      store w' !! o = Some ob' ->
      id e ∉ idCache ob ->
      id e ∈ idCache ob' ->
      persistent fn
      ∈ Observer.listeners (getRegisterableEventName (ByInstance e)) ob ->
      Invoked o fn e ∈ new.

(** Between two states: every observer that has taken the id of [e] into
    its cache in between has passed [e] on to the observers it held a
    relay closure for, which hold the id too. *)
Definition forwards (e : Event) (w w' : World) : Prop :=
  forall o ob ob' fn target,
    store w !! o = Some ob ->
    store w' !! o = Some ob' ->
    id e ∉ idCache ob ->
    id e ∈ idCache ob' ->
    relay_to fn target ∈ Observer.listeners EmitEvent_key ob ->
    exists target', store w' !! target = Some target' /\ id e ∈ idCache target'.

(** A route of relay closures from [a], through observers that have not
    seen [e]. *)
Fixpoint relay_route (w : World) (e : Event) (a : ObsId)
  (route : list ObsId) : Prop :=
  match route with
  | [] => True
  | b :: rest =>
      (exists ob fn,
         store w !! a = Some ob /\
         (id e ∉ idCache ob) /\
         relay_to fn b ∈ Observer.listeners EmitEvent_key ob) /\
      relay_route w e b rest
  end.

(** Does the event wrap nothing? *)
Definition wraps_nothing (e : Event) : bool :=
  match emitted e with
  | None => true
  | Some _ => false
  end.

(** The calls of the user function [fn] on the observer [o] with an event
    of id [i] that wraps nothing. *)
Fixpoint deliveries (o : ObsId) (fn : nat) (i : Guid) (t : list Action)
  : nat :=
  match t with
  | [] => 0
  | Invoked o' fn' e' :: t' =>
      (if bool_decide (o' = o /\ fn' = fn /\ id e' = i) && wraps_nothing e'
       then 1 else 0)
      + deliveries o fn i t'
  | _ :: t' => deliveries o fn i t'
  end.

(** Between two states of a cascade of [e]: the observer [o] had [fn]
    called with [e] only if the id of [e] has entered its cache in
    between, and then no more often than [fn] was registered for [e]. *)
Definition once_only (e : Event) (o : ObsId) (fn : nat) (w w' : World)
  : Prop :=
  cascade (fun i => i = id e) w w' /\
  forall ob ob',
    store w !! o = Some ob ->
    store w' !! o = Some ob' ->
    deliveries o fn (id e) (trace w')
    <= deliveries o fn (id e) (trace w)
       + (if cache_contains (id e) (idCache ob) then 0
          else if cache_contains (id e) (idCache ob')
               then registrations (getRegisterableEventName (ByInstance e))
                      (Callback fn) ob
               else 0).

(** Between two states of an observer: no function has more registrations
    under a key than before. *)
Definition fewer (ob ob' : EventObserver) : Prop :=
  forall key l, registrations key l ob' <= registrations key l ob.

(** The registrations under [key] of the observer [o], when the reference
    is valid. *)
Definition listeners_at (o : ObsId) (key : string) (w : World)
  : option (list Registration) :=
  Observer.listeners key <$> store w !! o.

(** What [removeListener] does to the registrations of its key. *)
Definition strip (l : Listener) (regs : list Registration)
  : list Registration :=
  Observer.remove_first (fun r => bool_decide (listener r = l)) regs.

(** The relay closures [unbind(self, relay)] removes from the
    registrations under [key] of the observer [o], for a record
    [entry]. *)
Definition unbound (self relay : ObsId) (entry : RelayEntry) (o : ObsId)
  (key : string) (regs : list Registration) : list Registration :=
  let regs1 :=
    if includes (relayFlags entry) RelayTo
    then (if decide (self = o /\ key = EmitEvent_key)
          then strip (toBubble entry) regs else regs)
    else regs in
  if includes (relayFlags entry) RelayFrom
  then (if decide (relay = o /\ key = EmitEvent_key)
        then strip (fromBubble entry) regs1 else regs1)
  else regs1.

(** The relay closures [bind(self, relay, direction)] adds to them, the
    closure counter being [c]. *)
Definition bound (self relay : ObsId) (direction : RelayFlags) (c : nat)
  (o : ObsId) (key : string) (regs : list Registration)
  : list Registration :=
  let regs1 :=
    if includes direction RelayTo
    then (if decide (self = o /\ key = EmitEvent_key)
          then regs ++ [relay_to c relay] else regs)
    else regs in
  if includes direction RelayFrom
  then (if decide (relay = o /\ key = EmitEvent_key)
        then regs1 ++ [relay_to (S c) self] else regs1)
  else regs1.

(** The identity of every relay closure in a registry is below the
    closure counter. *)
Definition closures_fresh (w : World) : Prop :=
  forall i ob key r fn target,
    store w !! i = Some ob ->
    r ∈ Observer.listeners key ob ->
    listener r = Bubble fn target ->
    fn < closures w.

(** The ids of [e] and of the events nested in it have been drawn from
    [g]. *)
Definition drawn_before (g : GuidSource) (e : Event) : Prop :=
  forall i, i ∈ nested_ids e -> exists k, k < drawn g /\ sequence g k = i.

(* ===================================================================== *)
(** * Concrete scenarios                                                  *)
(* ===================================================================== *)

Module Scenario.

(** A Guid source that counts. *)
Definition counter : GuidSource := {| drawn := 0; sequence := N.of_nat |}.

Definition Ping : EventClass :=
  {| ctor := 1; name := "Ping"; uniqueName := "Scenario-Ping" |}.

(** Another class whose author picked the same unique name. *)
Definition Pong : EventClass :=
  {| ctor := 2; name := "Pong"; uniqueName := "Scenario-Ping" |}.

(** [ping0 = new Ping(7)], then [wrapped0 = new EmitEvent(ping0)]. *)
Definition ping0 : Event := fst (Event_new Ping (JsNumber 7) counter).
Definition counter1 : GuidSource :=
  snd (Event_new Ping (JsNumber 7) counter).
Definition wrapped0 : Event := fst (EmitEvent_new ping0 counter1).
Definition counter2 : GuidSource := snd (EmitEvent_new ping0 counter1).

(** [ping1 = new Ping(8)]. *)
Definition ping1 : Event := fst (Event_new Ping (JsNumber 8) counter2).
Definition counter3 : GuidSource :=
  snd (Event_new Ping (JsNumber 8) counter2).

Definition world_after (ops : list Op) : World :=
  default (emptyWorld counter3) (run ops (emptyWorld counter3)).

(** Two observers bound in both directions, one user listener each. *)
Definition twoBound : World :=
  world_after
    [ OpNew 100; OpNew 100;
      OpOn 0 (ByClass Ping) 10; OpOn 1 (ByInstance ping0) 11;
      OpBind 0 1 None ].

(** Two new observers, and calls that bind and re-bind them. *)
Definition twoNew : World := world_after [OpNew 100; OpNew 100].

Definition rebinding : list Op :=
  [ OpBind 0 1 (Some RelayTo); OpBind 1 0 None;
    OpEmit 5 0 ping0; OpUnbind 0 1; OpBind 0 1 (Some RelayFrom) ].

(** Observer 0 keeps a single id and has a listener for EmitEvents; its
    peer has seen [wrapped0] before the two are bound. *)
Definition evicting : World :=
  world_after
    [ OpNew 100; OpNew 100; OpSetIdCacheLimit 0 1;
      OpOn 0 (ByClass EmitEvent) 10; OpEmit 5 1 wrapped0;
      OpBind 0 1 None ].

(** A ring 0 -> 1 -> 2 -> 0 of one-way bindings; before the binding,
    observer 1 has seen [ping0] and observer 2 has seen [wrapped0]. *)
Definition ring : World :=
  world_after
    [ OpNew 100; OpNew 100; OpNew 100; OpOn 0 (ByClass Ping) 10;
      OpEmit 5 1 ping0; OpEmit 5 2 wrapped0;
      OpBind 0 1 (Some RelayTo); OpBind 1 2 (Some RelayTo);
      OpBind 2 0 (Some RelayTo) ].

(** Two observers that keep one id each, bound in both directions. *)
Definition tight : World :=
  world_after
    [ OpNew 100; OpNew 100; OpSetIdCacheLimit 0 1; OpSetIdCacheLimit 1 1;
      OpBind 0 1 None ].

End Scenario.

(** The two observers of [Scenario.tight], written out. *)
Definition pairA : EventObserver :=
  {| internalEmitter :=
       {[ EmitEvent_key := [{| listener := Bubble 0 1; runOnce := false |}] ]};
     relays :=
       {[ 1 := {| relayFlags := RelayAll; fromBubble := Bubble 1 0;
                  toBubble := Bubble 0 1 |} ]};
     idCache := [];
     idCacheLimit := 1 |}.

Definition pairB : EventObserver :=
  {| internalEmitter :=
       {[ EmitEvent_key := [{| listener := Bubble 1 0; runOnce := false |}] ]};
     relays := ∅;
     idCache := [];
     idCacheLimit := 1 |}.

(** Further scenarios, for the operations of the interface. *)
Module Usage.

(** One observer with three listeners for [Ping]: [10] added with [on],
    [11] with [once], [12] with [prependListener]. *)
Definition listening : World :=
  Scenario.world_after
    [ OpNew 100; OpOn 0 (ByClass Scenario.Ping) 10;
      OpOnce 0 (ByClass Scenario.Ping) 11;
      OpPrependListener 0 (ByClass Scenario.Ping) 12 ].

(** Three observers in a line, 0 -> 1 -> 2, with a listener at the end. *)
Definition line : World :=
  Scenario.world_after
    [ OpNew 100; OpNew 100; OpNew 100; OpOn 2 (ByClass Scenario.Ping) 30;
      OpBind 0 1 (Some RelayTo); OpBind 1 2 (Some RelayTo) ].

(** Two observers with one listener for [Ping] each, not bound. *)
Definition apart : World :=
  Scenario.world_after
    [ OpNew 100; OpNew 100; OpOn 0 (ByClass Scenario.Ping) 10;
      OpOn 1 (ByClass Scenario.Ping) 20 ].

End Usage.

(* ===================================================================== *)
(** * What a cascade can change                                           *)
(* ===================================================================== *)

Lemma nested_ids_head e : id e ∈ nested_ids e.
Proof. destruct e as [p i d [e'|]]; simpl; set_solver. Qed.

Lemma nested_ids_emitted e e' i :
  emitted e = Some e' -> i ∈ nested_ids e' -> i ∈ nested_ids e.
Proof.
  destruct e as [p j d [e0|]]; simpl; intros H Hi; [|discriminate].
  injection H as ->. set_solver.
Qed.

Lemma nested_ids_plain e : emitted e = None -> nested_ids e = [id e].
Proof. destruct e as [p j d [e0|]]; simpl; [discriminate | done]. Qed.

Lemma andThen_final {A B} (x : Outcome A) (k : A -> World -> Outcome B) w' :
  final (andThen x k) = Some w' ->
  x = Throw w' \/ exists a w1, x = Done a w1 /\ final (k a w1) = Some w'.
Proof.
  destruct x as [a w1|w1|]; simpl; intros H.
  - right. eauto.
  - left. congruence.
  - discriminate.
Qed.

Section Cascade.

Variable allowed : Guid -> Prop.
Variable emit_rec : World -> ObsId -> Event -> Outcome bool.

Hypothesis emit_rec_cascade :
  forall w target e w',
    (forall i, i ∈ nested_ids e -> allowed i) ->
    final (emit_rec w target e) = Some w' ->
    cascade allowed w w'.

Lemma call_listener_cascade self l ev w w' :
  (forall e' i, emitted ev = Some e' -> i ∈ nested_ids e' -> allowed i) ->
  final (call_listener emit_rec self l ev w) = Some w' ->
  cascade allowed w w'.
Proof.
  intros Hev. destruct l as [fn|fn target]; simpl.
  - intros [= <-]. apply rtc_once, step_log.
  - destruct (emitted ev) as [wrapped|] eqn:Hw; simpl.
    + intros H. apply andThen_final in H as [H|(a & w1 & H & Hk)].
      * eapply rtc_l; [apply step_log|].
        eapply emit_rec_cascade; [|rewrite H; done]. eauto.
      * simpl in Hk. injection Hk as <-.
        eapply rtc_l; [apply step_log|].
        eapply emit_rec_cascade; [|rewrite H; done]. eauto.
    + intros [= <-]. apply rtc_refl.
Qed.

Lemma run_listeners_cascade self key ev snapshot :
  (forall e' i, emitted ev = Some e' -> i ∈ nested_ids e' -> allowed i) ->
  forall w w',
    final (run_listeners emit_rec self key snapshot ev w) = Some w' ->
    cascade allowed w w'.
Proof.
  intros Hev. induction snapshot as [|r rest IH]; intros w w'; simpl.
  - intros [= <-]. apply rtc_refl.
  - assert (Hcont : forall w0,
      final (andThen (call_listener emit_rec self (listener r) ev w0)
               (fun _ w1 =>
                  andThen (run_listeners emit_rec self key rest ev w1)
                          (fun _ w2 => Done true w2))) = Some w' ->
      cascade allowed w0 w').
    { intros w0 H. apply andThen_final in H as [H|(a & w1 & H & Hk)].
      - eapply call_listener_cascade; [done|]. rewrite H. done.
      - etrans; [eapply call_listener_cascade; [done|]; rewrite H; done|].
        apply andThen_final in Hk as [Hk|(b & w2 & Hk & Hk2)].
        + apply IH. rewrite Hk. done.
        + simpl in Hk2. injection Hk2 as <-. apply IH. rewrite Hk. done. }
    destruct (runOnce r) eqn:Honce.
    + destruct (store w !! self) as [ob|] eqn:Hob.
      * case_bool_decide as Hmem.
        -- intros H. eapply rtc_l; [eapply step_once; done|].
           apply Hcont. done.
        -- apply IH.
      * intros [= <-]. apply rtc_refl.
    + apply Hcont.
Qed.

Lemma dispatch_cascade self ev w w' :
  (forall e' i, emitted ev = Some e' -> i ∈ nested_ids e' -> allowed i) ->
  final (dispatch emit_rec self ev w) = Some w' ->
  cascade allowed w w'.
Proof.
  intros Hev. unfold dispatch.
  destruct (store w !! self) as [ob|].
  - apply run_listeners_cascade. done.
  - intros [= <-]. apply rtc_refl.
Qed.

Lemma emit_body_cascade self e w w' :
  (forall i, i ∈ nested_ids e -> allowed i) ->
  final (emit_body emit_rec self e w) = Some w' ->
  cascade allowed w w'.
Proof.
  intros He. unfold emit_body.
  destruct (store w !! self) as [ob|] eqn:Hob.
  2: { intros [= <-]. apply rtc_refl. }
  unfold cache_contains. case_bool_decide as Hin.
  { intros [= <-]. apply rtc_refl. }
  intros H.
  eapply rtc_l.
  { eapply (step_cache allowed self ob (id e)); [done| |done].
    apply He, nested_ids_head. }
  assert (He1 : forall e' i,
             emitted e = Some e' -> i ∈ nested_ids e' -> allowed i).
  { intros e' i H1 H2. eapply He, nested_ids_emitted; done. }
  apply andThen_final in H as [H|(ret & w2 & H & Hk)].
  { eapply dispatch_cascade; [done|]. rewrite H. done. }
  etrans; [eapply dispatch_cascade; [done|]; rewrite H; done|].
  destruct (EmitEvent_new e (guids w2)) as [invoked g'] eqn:Hnew.
  eapply rtc_l; [apply (step_wrap allowed self e)|].
  rewrite Hnew. simpl.
  assert (He2 : forall e' i,
             emitted invoked = Some e' -> i ∈ nested_ids e' -> allowed i).
  { intros e' i H1 H2. apply He.
    unfold EmitEvent_new, Event_new in Hnew. simpl in Hnew.
    injection Hnew as <- <-. simpl in H1. injection H1 as <-. done. }
  apply andThen_final in Hk as [Hk|(b & w4 & Hk & Hk2)].
  { eapply dispatch_cascade; [done|]. rewrite Hk. done. }
  simpl in Hk2. injection Hk2 as <-.
  eapply dispatch_cascade; [done|]. rewrite Hk. done.
Qed.

End Cascade.

(** Every emit, of whatever event and in whatever topology, is a sequence
    of elementary steps, and the ids that enter a cache are those of the
    event and of the events nested in it. *)
Lemma emit_cascade (allowed : Guid -> Prop) fuel :
  forall w self e w',
    (forall i, i ∈ nested_ids e -> allowed i) ->
    final (emit fuel w self e) = Some w' ->
    cascade allowed w w'.
Proof.
  induction fuel as [|fuel IH]; intros w self e w' He; simpl.
  - discriminate.
  - apply emit_body_cascade; [|done].
    intros w0 target e0 w0' H0. apply IH. done.
Qed.

(** ** Relations between the states of an observer kept by every step *)

Section Pointwise.

Variable allowed : Guid -> Prop.
Variable Q : EventObserver -> EventObserver -> Prop.

Hypothesis Q_refl : forall ob, Q ob ob.
Hypothesis Q_trans : forall a b c, Q a b -> Q b c -> Q a c.
Hypothesis Q_cache :
  forall ob i,
    allowed i -> i ∉ idCache ob ->
    Q ob (with_cache (cache_insert (idCacheLimit ob) i (idCache ob)) ob).
Hypothesis Q_once :
  forall ob key r,
    runOnce r = true ->
    Q ob (Observer.set_listeners key
            (Observer.remove_first (fun r' => bool_decide (r' = r))
               (Observer.listeners key ob)) ob).

Lemma pointwise_same_store w w' : store w' = store w -> pointwise Q w w'.
Proof.
  intros E. split; rewrite E; [done|]. intros i ob H. exists ob. auto.
Qed.

Lemma pointwise_refl w : pointwise Q w w.
Proof. by apply pointwise_same_store. Qed.

Lemma pointwise_trans w1 w2 w3 :
  pointwise Q w1 w2 -> pointwise Q w2 w3 -> pointwise Q w1 w3.
Proof.
  intros [L1 H1] [L2 H2]. split; [congruence|].
  intros i ob Hob.
  destruct (H1 i ob Hob) as (ob2 & Hob2 & Q12).
  destruct (H2 i ob2 Hob2) as (ob3 & Hob3 & Q23).
  exists ob3. eauto.
Qed.

Lemma put_pointwise self ob ob1 w :
  store w !! self = Some ob -> Q ob ob1 -> pointwise Q w (put self ob1 w).
Proof.
  intros Hob HQ. split; simpl.
  - apply length_insert.
  - intros i ob0 Hi. destruct (decide (self = i)) as [->|Hne].
    + exists ob1. split.
      * apply list_lookup_insert_eq. eapply lookup_lt_Some. done.
      * rewrite Hob in Hi. injection Hi as <-. done.
    + exists ob0. rewrite list_lookup_insert_ne by done. auto.
Qed.

Lemma cascade_step_pointwise w w' :
  cascade_step allowed w w' -> pointwise Q w w'.
Proof.
  destruct 1.
  - eapply put_pointwise; eauto.
  - eapply put_pointwise; eauto.
  - by apply pointwise_same_store.
  - by apply pointwise_same_store.
Qed.

Lemma cascade_pointwise w w' : cascade allowed w w' -> pointwise Q w w'.
Proof.
  induction 1 as [|x y z Hxy _ IH].
  - apply pointwise_refl.
  - eapply pointwise_trans; [|exact IH]. apply cascade_step_pointwise. done.
Qed.

End Pointwise.

(** What no step touches: the closure counter and the Guid sequence; the
    trace only grows. *)
Lemma cascade_frame allowed w w' :
  cascade allowed w w' ->
  closures w' = closures w /\
  sequence (guids w') = sequence (guids w) /\
  drawn (guids w) <= drawn (guids w') /\
  exists new, trace w' = new ++ trace w.
Proof.
  induction 1 as [w|x y z Hxy _ (IH1 & IH2 & IH3 & new & IH4)].
  - repeat split; [lia|]. exists []. done.
  - rewrite IH1, IH2, IH4. destruct Hxy; simpl in *.
    + repeat split; [lia|]. exists new. done.
    + repeat split; [lia|]. exists new. done.
    + repeat split; [lia|]. exists (new ++ [a]). by rewrite <- app_assoc.
    + repeat split; [lia|].
      eexists (new ++ [_]). by rewrite <- app_assoc.
Qed.

(** ** The cache alone *)

Lemma cache_evict_length limit cache :
  (0 < limit)%Z -> length (cache_evict limit cache) <= Z.to_nat limit.
Proof.
  intros H. unfold cache_evict.
  destruct (Z.ltb_spec 0 limit); [|lia]. rewrite length_drop. lia.
Qed.

Lemma cache_evict_unbounded limit cache :
  (limit <= 0)%Z -> cache_evict limit cache = cache.
Proof.
  intros H. unfold cache_evict. destruct (Z.ltb_spec 0 limit); [lia|done].
Qed.

Lemma cache_evict_fits limit cache :
  (Z.of_nat (length cache) <= limit)%Z -> cache_evict limit cache = cache.
Proof.
  intros H. unfold cache_evict. destruct (Z.ltb_spec 0 limit); [|done].
  replace (length cache - Z.to_nat limit) with 0 by lia. done.
Qed.

Lemma cache_evict_subset limit cache i :
  i ∈ cache_evict limit cache -> i ∈ cache.
Proof.
  unfold cache_evict. destruct (0 <? limit)%Z; [|done].
  intros H. rewrite <- (take_drop (length cache - Z.to_nat limit) cache).
  set_solver.
Qed.

(** The id just inserted is in the cache, whatever the bound. *)
Lemma cache_insert_elem limit i cache : i ∈ cache_insert limit i cache.
Proof.
  unfold cache_insert, cache_evict.
  destruct (Z.ltb_spec 0 limit); [|apply elem_of_app; right; left].
  rewrite length_app. simpl.
  rewrite drop_app.
  apply elem_of_app. right.
  replace (length cache + 1 - Z.to_nat limit - length cache) with 0 by lia.
  simpl. left.
Qed.

Lemma cache_insert_subset limit i cache j :
  j ∈ cache_insert limit i cache -> j = i \/ j ∈ cache.
Proof.
  unfold cache_insert. intros H%cache_evict_subset.
  apply elem_of_app in H as [H|H%list_elem_of_singleton]; auto.
Qed.

Lemma cache_insert_length limit i cache :
  (0 < limit)%Z -> length (cache_insert limit i cache) <= Z.to_nat limit.
Proof. apply cache_evict_length. Qed.

(** ** The registry alone *)

Lemma count_bubbles_remove_first p l :
  count_bubbles (Observer.remove_first p l) <= count_bubbles l.
Proof.
  induction l as [|r l IH]; simpl; [lia|].
  destruct (p r); simpl; lia.
Qed.

Lemma listeners_set_listeners key key' l ob :
  Observer.listeners key' (Observer.set_listeners key l ob) =
  if decide (key = key') then l else Observer.listeners key' ob.
Proof.
  unfold Observer.listeners, Observer.set_listeners. simpl.
  destruct (decide (key = key')) as [->|Hne].
  - by rewrite lookup_insert_eq.
  - by rewrite lookup_insert_ne.
Qed.

Lemma installed_relays_once key r ob :
  installed_relays
    (Observer.set_listeners key
       (Observer.remove_first (fun r' => bool_decide (r' = r))
          (Observer.listeners key ob)) ob)
  <= installed_relays ob.
Proof.
  unfold installed_relays. rewrite listeners_set_listeners.
  destruct (decide _) as [->|]; [|done].
  apply count_bubbles_remove_first.
Qed.

(** ** Sums over the store *)

Lemma weight_insert f l i ob ob' :
  l !! i = Some ob ->
  weight f (<[i := ob']> l) + f ob = weight f l + f ob'.
Proof.
  revert i. induction l as [|x l IH]; intros [|i]; simpl;
    try discriminate.
  - intros [= ->]. lia.
  - intros H. specialize (IH i H). lia.
Qed.

Lemma weight_mono f g l l' :
  length l' = length l ->
  (forall i ob, l !! i = Some ob ->
     exists ob', l' !! i = Some ob' /\ g ob' <= f ob) ->
  weight g l' <= weight f l.
Proof.
  revert l'. induction l as [|x l IH]; intros [|x' l'];
    simpl; try discriminate; [lia|].
  intros [= Hlen] H.
  destruct (H 0 x eq_refl) as (ob' & [= <-] & Hle).
  specialize (IH l' Hlen (fun i ob Hi => H (S i) ob Hi)). lia.
Qed.

(** ** An event that wraps nothing: only its own id enters the caches *)

Section Plain.

Variable e : Event.

Lemma plain_rel_refl ob : plain_rel e ob ob.
Proof. repeat split; auto. Qed.

Lemma plain_rel_trans a b c : plain_rel e a b -> plain_rel e b c -> plain_rel e a c.
Proof.
  intros (L1 & R1 & B1 & C1) (L2 & R2 & B2 & C2).
  repeat split; [congruence|congruence|lia|].
  destruct C1 as [C1|[N1 C1]], C2 as [C2|[N2 C2]].
  - left. congruence.
  - right. rewrite <- C1, <- L1. auto.
  - right. split; [done|]. congruence.
  - exfalso. apply N2. rewrite C1. apply cache_insert_elem.
Qed.

Lemma plain_rel_cache ob i :
  i = id e -> i ∉ idCache ob ->
  plain_rel e ob
    (with_cache (cache_insert (idCacheLimit ob) i (idCache ob)) ob).
Proof. intros -> H. repeat split; simpl; auto. Qed.

Lemma plain_rel_once ob key r :
  runOnce r = true ->
  plain_rel e ob
    (Observer.set_listeners key
       (Observer.remove_first (fun r' => bool_decide (r' = r))
          (Observer.listeners key ob)) ob).
Proof.
  intros _. repeat split; simpl; auto. apply installed_relays_once.
Qed.

Lemma cascade_plain w w' :
  cascade (fun i => i = id e) w w' -> pointwise (plain_rel e) w w'.
Proof.
  apply cascade_pointwise.
  - apply plain_rel_refl.
  - apply plain_rel_trans.
  - apply plain_rel_cache.
  - apply plain_rel_once.
Qed.

Lemma unseen_plain_rel g ob ob' :
  (forall a b, plain_rel e a b -> g b <= g a) ->
  plain_rel e ob ob' -> unseen e g ob' <= unseen e g ob.
Proof.
  intros Hg HQ. pose proof (Hg _ _ HQ) as Hle.
  destruct HQ as (_ & _ & _ & HC). unfold unseen, cache_contains.
  destruct HC as [->|[Hn ->]].
  - case_bool_decide; lia.
  - rewrite (bool_decide_eq_true_2 _ (cache_insert_elem _ _ _)). lia.
Qed.

Lemma cascade_uncached w w' :
  cascade (fun i => i = id e) w w' -> uncached e w' <= uncached e w.
Proof.
  intros [Hlen H]%cascade_plain. apply weight_mono; [done|].
  intros i ob Hob. destruct (H i ob Hob) as (ob' & Hob' & HQ).
  exists ob'. split; [done|]. apply unseen_plain_rel; [lia|done].
Qed.

Lemma cascade_pending w w' :
  cascade (fun i => i = id e) w w' -> pending e w' <= pending e w.
Proof.
  intros [Hlen H]%cascade_plain. apply weight_mono; [done|].
  intros i ob Hob. destruct (H i ob Hob) as (ob' & Hob' & HQ).
  exists ob'. split; [done|]. apply unseen_plain_rel; [|done].
  intros a b (_ & _ & Hb & _). done.
Qed.

(** The insertion at the cache gate takes the observer out of the count. *)
Lemma unseen_gate g self ob w :
  store w !! self = Some ob ->
  id e ∉ idCache ob ->
  weight (unseen e g)
    (store (put self
              (with_cache
                 (cache_insert (idCacheLimit ob) (id e) (idCache ob)) ob) w))
  + g ob
  = weight (unseen e g) (store w).
Proof.
  intros Hob Hn.
  assert (E1 : unseen e g
            (with_cache
               (cache_insert (idCacheLimit ob) (id e) (idCache ob)) ob) = 0).
  { unfold unseen, cache_contains. simpl.
    rewrite bool_decide_eq_true_2; [done|apply cache_insert_elem]. }
  assert (E2 : unseen e g ob = g ob).
  { unfold unseen, cache_contains. by rewrite bool_decide_eq_false_2. }
  pose proof (weight_insert (unseen e g) (store w) self ob
    (with_cache (cache_insert (idCacheLimit ob) (id e) (idCache ob)) ob) Hob)
    as Hw.
  rewrite E1, E2 in Hw. simpl. lia.
Qed.

End Plain.

(** ** Termination and the number of relay calls *)

Lemma andThen_total {A B} (x : Outcome A) (k : A -> World -> Outcome B) :
  is_Some (final x) ->
  (forall a w1, x = Done a w1 -> is_Some (final (k a w1))) ->
  is_Some (final (andThen x k)).
Proof.
  destruct x as [a w1|w1|]; simpl; intros H Hk; eauto.
Qed.

Section PlainRun.

Variable e : Event.
Hypothesis e_plain : emitted e = None.

Variable emit_rec : World -> ObsId -> Event -> Outcome bool.
Variable budget : nat.

Hypothesis rec_cascade :
  forall w target e0 w',
    (forall i, i ∈ nested_ids e0 -> i = id e) ->
    final (emit_rec w target e0) = Some w' ->
    cascade (fun i => i = id e) w w'.

Hypothesis rec_total :
  forall w target, uncached e w < budget -> is_Some (final (emit_rec w target e)).

Hypothesis rec_hops :
  forall w target w',
    final (emit_rec w target e) = Some w' ->
    relay_calls (trace w') + pending e w'
    <= relay_calls (trace w) + pending e w.

Lemma carries_allowed ev :
  carries e ev ->
  forall e' i, emitted ev = Some e' -> i ∈ nested_ids e' -> i = id e.
Proof.
  intros Hev e' i H Hi. apply Hev in H as ->.
  rewrite (nested_ids_plain e e_plain) in Hi.
  by apply list_elem_of_singleton in Hi.
Qed.

Lemma call_listener_total self l ev w :
  carries e ev -> uncached e w < budget ->
  is_Some (final (call_listener emit_rec self l ev w)).
Proof.
  intros Hev Hlt. destruct l as [fn|fn target]; simpl; [eauto|].
  destruct (emitted ev) as [x|] eqn:Hx; simpl; [|eauto].
  rewrite (Hev x Hx).
  apply andThen_total; [|simpl; eauto].
  apply rec_total. done.
Qed.

Lemma call_listener_hops self l ev w w' :
  carries e ev ->
  final (call_listener emit_rec self l ev w) = Some w' ->
  relay_calls (trace w') + pending e w'
  <= relay_calls (trace w) + pending e w
     + relays_of ev [{| listener := l; runOnce := false |}].
Proof.
  intros Hev. unfold relays_of, is_bubble.
  destruct l as [fn|fn target]; simpl.
  - intros [= <-]. simpl. unfold pending. simpl. lia.
  - destruct (emitted ev) as [x|] eqn:Hx; simpl.
    + rewrite (Hev x Hx). intros H.
      assert (Hf : final (emit_rec (log (Relayed self target e) w) target e)
                   = Some w').
      { apply andThen_final in H as [H|(a & w1 & H & Hk)].
        - rewrite H. done.
        - simpl in Hk. rewrite H. done. }
      apply rec_hops in Hf. simpl in Hf. unfold pending in *. simpl in Hf.
      lia.
    + intros [= <-]. lia.
Qed.

Lemma relays_of_cons ev r rest :
  relays_of ev (r :: rest) =
  relays_of ev [{| listener := listener r; runOnce := false |}]
  + relays_of ev rest.
Proof.
  unfold relays_of. destruct (emitted ev); simpl; [|done].
  unfold is_bubble. simpl. lia.
Qed.

Lemma run_listeners_total self key ev snapshot :
  carries e ev ->
  forall w,
    uncached e w < budget ->
    is_Some (final (run_listeners emit_rec self key snapshot ev w)).
Proof.
  intros Hev. induction snapshot as [|r rest IH]; intros w Hlt; simpl.
  { eauto. }
  assert (Hcont : forall w0,
    uncached e w0 < budget ->
    is_Some (final
      (andThen (call_listener emit_rec self (listener r) ev w0)
         (fun _ w1 =>
            andThen (run_listeners emit_rec self key rest ev w1)
                    (fun _ w2 => Done true w2))))).
  { intros w0 H0. apply andThen_total.
    - by apply call_listener_total.
    - intros a w1 H1. apply andThen_total; [|simpl; eauto].
      apply IH.
      assert (cascade (fun i => i = id e) w0 w1) as Hc.
      { eapply call_listener_cascade;
          [apply rec_cascade|by apply carries_allowed|].
        rewrite H1. done. }
      apply cascade_uncached in Hc. lia. }
  destruct (runOnce r) eqn:Honce.
  - destruct (store w !! self) as [ob|] eqn:Hob; [|simpl; eauto].
    case_bool_decide as Hmem; [|by apply IH].
    apply Hcont.
    assert (cascade (fun i => i = id e) w
              (put self
                 (Observer.set_listeners key
                    (Observer.remove_first (fun r' => bool_decide (r' = r))
                       (Observer.listeners key ob)) ob) w)) as Hc.
    { apply rtc_once. by eapply step_once. }
    apply cascade_uncached in Hc. lia.
  - by apply Hcont.
Qed.

Lemma run_listeners_hops self key ev snapshot :
  carries e ev ->
  forall w w',
    final (run_listeners emit_rec self key snapshot ev w) = Some w' ->
    relay_calls (trace w') + pending e w'
    <= relay_calls (trace w) + pending e w + relays_of ev snapshot.
Proof.
  intros Hev. induction snapshot as [|r rest IH]; intros w w'; simpl.
  { intros [= <-]. lia. }
  rewrite relays_of_cons.
  assert (Hcont : forall w0,
    final
      (andThen (call_listener emit_rec self (listener r) ev w0)
         (fun _ w1 =>
            andThen (run_listeners emit_rec self key rest ev w1)
                    (fun _ w2 => Done true w2))) = Some w' ->
    relay_calls (trace w') + pending e w'
    <= relay_calls (trace w0) + pending e w0
       + (relays_of ev [{| listener := listener r; runOnce := false |}]
          + relays_of ev rest)).
  { intros w0 H. apply andThen_final in H as [H|(a & w1 & H & Hk)].
    - assert (final (call_listener emit_rec self (listener r) ev w0)
              = Some w') as Hf by (rewrite H; done).
      apply call_listener_hops in Hf; [lia|done].
    - assert (final (call_listener emit_rec self (listener r) ev w0)
              = Some w1) as Hf by (rewrite H; done).
      apply call_listener_hops in Hf; [|done].
      assert (final (run_listeners emit_rec self key rest ev w1) = Some w')
        as Hr.
      { apply andThen_final in Hk as [Hk|(b & w2 & Hk & Hk2)].
        - rewrite Hk. done.
        - simpl in Hk2. rewrite Hk. done. }
      apply IH in Hr. lia. }
  destruct (runOnce r) eqn:Honce.
  - destruct (store w !! self) as [ob|] eqn:Hob.
    2: { intros [= <-]. lia. }
    case_bool_decide as Hmem.
    + intros H. apply Hcont in H.
      assert (cascade (fun i => i = id e) w
                (put self
                   (Observer.set_listeners key
                      (Observer.remove_first (fun r' => bool_decide (r' = r))
                         (Observer.listeners key ob)) ob) w)) as Hc.
      { apply rtc_once. by eapply step_once. }
      apply cascade_pending in Hc. simpl in H. lia.
    + intros H. apply IH in H. lia.
  - apply Hcont.
Qed.

Lemma dispatch_total self ev w :
  carries e ev -> uncached e w < budget ->
  is_Some (final (dispatch emit_rec self ev w)).
Proof.
  intros Hev Hlt. unfold dispatch.
  destruct (store w !! self); [|simpl; eauto].
  by apply run_listeners_total.
Qed.

Lemma dispatch_hops self ev w w' :
  carries e ev ->
  final (dispatch emit_rec self ev w) = Some w' ->
  relay_calls (trace w') + pending e w'
  <= relay_calls (trace w) + pending e w
     + match store w !! self with
       | Some ob =>
           relays_of ev
             (Observer.listeners
                (getRegisterableEventName (ByInstance ev)) ob)
       | None => 0
       end.
Proof.
  intros Hev. unfold dispatch.
  destruct (store w !! self) as [ob|].
  - by apply run_listeners_hops.
  - intros [= <-]. lia.
Qed.

Lemma dispatch_plain_cascade self ev w w' :
  carries e ev ->
  final (dispatch emit_rec self ev w) = Some w' ->
  cascade (fun i => i = id e) w w'.
Proof.
  intros Hev. apply dispatch_cascade; [apply rec_cascade|].
  by apply carries_allowed.
Qed.

Lemma carries_plain : carries e e.
Proof. intros x Hx. rewrite e_plain in Hx. discriminate. Qed.

Lemma carries_EmitEvent g : carries e (fst (EmitEvent_new e g)).
Proof. intros x. simpl. by intros [= <-]. Qed.

Lemma emit_body_total self w :
  uncached e w < S budget ->
  is_Some (final (emit_body emit_rec self e w)).
Proof.
  intros Hlt. unfold emit_body.
  destruct (store w !! self) as [ob|] eqn:Hob; [|simpl; eauto].
  unfold cache_contains. case_bool_decide as Hin; [simpl; eauto|].
  pose proof (unseen_gate e (fun _ => 1) self ob w Hob Hin) as Hgate.
  cbv beta in Hgate. fold (uncached e w) in Hgate.
  set (w1 := put self _ w) in *.
  fold (uncached e w1) in Hgate.
  apply andThen_total.
  { apply dispatch_total; [apply carries_plain|lia]. }
  intros ret w2 H2.
  assert (cascade (fun i => i = id e) w1 w2) as Hc.
  { eapply dispatch_plain_cascade; [apply carries_plain|]. by rewrite H2. }
  apply cascade_uncached in Hc.
  destruct (EmitEvent_new e (guids w2)) as [invoked g'] eqn:Hnew.
  apply andThen_total; [|simpl; eauto].
  apply dispatch_total.
  - replace invoked with (fst (EmitEvent_new e (guids w2)))
      by (by rewrite Hnew).
    apply carries_EmitEvent.
  - unfold uncached in *. simpl. lia.
Qed.

Lemma emit_body_hops self w w' :
  final (emit_body emit_rec self e w) = Some w' ->
  relay_calls (trace w') + pending e w'
  <= relay_calls (trace w) + pending e w.
Proof.
  unfold emit_body.
  destruct (store w !! self) as [ob|] eqn:Hob.
  2: { intros [= <-]. lia. }
  unfold cache_contains. case_bool_decide as Hin.
  { intros [= <-]. lia. }
  pose proof (unseen_gate e installed_relays self ob w Hob Hin) as Hgate.
  fold (pending e w) in Hgate.
  set (ob1 := with_cache _ ob) in *.
  set (w1 := put self ob1 w) in *.
  fold (pending e w1) in Hgate.
  assert (Hob1 : store w1 !! self = Some ob1).
  { simpl. apply list_lookup_insert_eq. by eapply lookup_lt_Some. }
  intros H.
  assert (Hd1 : forall w2,
            final (dispatch emit_rec self e w1) = Some w2 ->
            relay_calls (trace w2) + pending e w2
            <= relay_calls (trace w1) + pending e w1).
  { intros w2 Hf. apply dispatch_hops in Hf; [|apply carries_plain].
    rewrite Hob1 in Hf. unfold relays_of in Hf. rewrite e_plain in Hf. lia. }
  apply andThen_final in H as [H|(ret & w2 & H & Hk)].
  { specialize (Hd1 w'). rewrite H in Hd1. specialize (Hd1 eq_refl).
    simpl in Hd1. simpl. lia. }
  specialize (Hd1 w2). rewrite H in Hd1. specialize (Hd1 eq_refl).
  assert (cascade (fun i => i = id e) w1 w2) as Hc.
  { eapply dispatch_plain_cascade; [apply carries_plain|]. by rewrite H. }
  apply cascade_plain in Hc as [_ Hc].
  destruct (Hc self ob1 Hob1) as (ob2 & Hob2 & _ & _ & Hrel & _).
  destruct (EmitEvent_new e (guids w2)) as [invoked g'] eqn:Hnew.
  set (w3 := mkWorld (store w2) g' (closures w2)
               (Wrapped self invoked :: trace w2)) in *.
  assert (Hinv : invoked = fst (EmitEvent_new e (guids w2)))
    by (by rewrite Hnew).
  assert (Hd2 : forall w4,
            final (dispatch emit_rec self invoked w3) = Some w4 ->
            relay_calls (trace w4) + pending e w4
            <= relay_calls (trace w2) + pending e w2 + installed_relays ob).
  { intros w4 Hf. apply dispatch_hops in Hf.
    2: { rewrite Hinv. apply carries_EmitEvent. }
    change (store w3 !! self) with (store w2 !! self) in Hf.
    rewrite Hob2 in Hf.
    assert (relays_of invoked
              (Observer.listeners
                 (getRegisterableEventName (ByInstance invoked)) ob2)
            = installed_relays ob2) as Hr.
    { rewrite Hinv. reflexivity. }
    rewrite Hr in Hf.
    change (pending e w3) with (pending e w2) in Hf.
    change (relay_calls (trace w3)) with (relay_calls (trace w2)) in Hf.
    assert (installed_relays ob1 = installed_relays ob) by reflexivity.
    lia. }
  apply andThen_final in Hk as [Hk|(b & w4 & Hk & Hk2)].
  - specialize (Hd2 w'). rewrite Hk in Hd2. specialize (Hd2 eq_refl).
    simpl in *. lia.
  - simpl in Hk2. injection Hk2 as <-.
    specialize (Hd2 w4). rewrite Hk in Hd2. specialize (Hd2 eq_refl).
    simpl in *. lia.
Qed.

End PlainRun.

(** An emit of an event that wraps nothing completes as soon as the
    budget exceeds the number of observers that have not seen it. *)
Lemma emit_total e :
  emitted e = None ->
  forall fuel w self,
    uncached e w < fuel -> is_Some (final (emit fuel w self e)).
Proof.
  intros He. induction fuel as [|fuel IH]; intros w self Hlt; [lia|].
  simpl. apply (emit_body_total e He (emit fuel) fuel); [|done|done].
  intros w0 target e0 w0' H0. by apply emit_cascade.
Qed.

(** And it makes no more relay calls than there are relay closures on the
    observers it reaches for the first time. *)
Lemma emit_hops e :
  emitted e = None ->
  forall fuel w self w',
    final (emit fuel w self e) = Some w' ->
    relay_calls (trace w') + pending e w'
    <= relay_calls (trace w) + pending e w.
Proof.
  intros He. induction fuel as [|fuel IH]; intros w self w'; [done|].
  simpl. apply (emit_body_hops e He (emit fuel)); [|done].
  intros w0 target e0 w0' H0. by apply emit_cascade.
Qed.

Section PlainWraps.

Variable e : Event.
Hypothesis e_plain : emitted e = None.

Variable emit_rec : World -> ObsId -> Event -> Outcome bool.

Hypothesis rec_wraps :
  forall w target w',
    final (emit_rec w target e) = Some w' ->
    wraps (trace w') + uncached e w' <= wraps (trace w) + uncached e w.

Lemma call_listener_wraps self l ev w w' :
  carries e ev ->
  final (call_listener emit_rec self l ev w) = Some w' ->
  wraps (trace w') + uncached e w' <= wraps (trace w) + uncached e w.
Proof.
  intros Hev. destruct l as [fn|fn target]; simpl.
  - intros [= <-]. unfold uncached. simpl. lia.
  - destruct (emitted ev) as [x|] eqn:Hx; simpl.
    + rewrite (Hev x Hx). intros H.
      assert (Hf : final (emit_rec (log (Relayed self target e) w) target e)
                   = Some w').
      { apply andThen_final in H as [H|(a & w1 & H & Hk)].
        - rewrite H. done.
        - simpl in Hk. rewrite H. done. }
      apply rec_wraps in Hf. simpl in Hf. unfold uncached in *. simpl in Hf.
      lia.
    + intros [= <-]. lia.
Qed.

Lemma run_listeners_wraps self key ev snapshot :
  carries e ev ->
  forall w w',
    final (run_listeners emit_rec self key snapshot ev w) = Some w' ->
    wraps (trace w') + uncached e w' <= wraps (trace w) + uncached e w.
Proof.
  intros Hev. induction snapshot as [|r rest IH]; intros w w'; simpl.
  { intros [= <-]. lia. }
  assert (Hcont : forall w0,
    final
      (andThen (call_listener emit_rec self (listener r) ev w0)
         (fun _ w1 =>
            andThen (run_listeners emit_rec self key rest ev w1)
                    (fun _ w2 => Done true w2))) = Some w' ->
    wraps (trace w') + uncached e w' <= wraps (trace w0) + uncached e w0).
  { intros w0 H. apply andThen_final in H as [H|(a & w1 & H & Hk)].
    - apply (call_listener_wraps self (listener r) ev); [done|].
      by rewrite H.
    - pose proof (call_listener_wraps self (listener r) ev w0 w1 Hev) as H1.
      rewrite H in H1. specialize (H1 eq_refl).
      assert (final (run_listeners emit_rec self key rest ev w1) = Some w')
        as Hr.
      { apply andThen_final in Hk as [Hk|(b & w2 & Hk & Hk2)].
        - by rewrite Hk.
        - simpl in Hk2. by rewrite Hk. }
      apply IH in Hr. lia. }
  destruct (runOnce r) eqn:Honce; [|apply Hcont].
  destruct (store w !! self) as [ob|] eqn:Hob.
  2: { intros [= <-]. lia. }
  case_bool_decide as Hmem; [|apply IH].
  intros H. apply Hcont in H.
  assert (cascade (fun i => i = id e) w
            (put self
               (Observer.set_listeners key
                  (Observer.remove_first (fun r' => bool_decide (r' = r))
                     (Observer.listeners key ob)) ob) w)) as Hc.
  { apply rtc_once. by eapply step_once. }
  apply cascade_uncached in Hc. simpl in H. lia.
Qed.

Lemma dispatch_wraps self ev w w' :
  carries e ev ->
  final (dispatch emit_rec self ev w) = Some w' ->
  wraps (trace w') + uncached e w' <= wraps (trace w) + uncached e w.
Proof.
  intros Hev. unfold dispatch. destruct (store w !! self).
  - by apply run_listeners_wraps.
  - intros [= <-]. lia.
Qed.

Lemma emit_body_wraps self w w' :
  final (emit_body emit_rec self e w) = Some w' ->
  wraps (trace w') + uncached e w' <= wraps (trace w) + uncached e w.
Proof.
  unfold emit_body.
  destruct (store w !! self) as [ob|] eqn:Hob.
  2: { intros [= <-]. lia. }
  unfold cache_contains. case_bool_decide as Hin.
  { intros [= <-]. lia. }
  pose proof (unseen_gate e (fun _ => 1) self ob w Hob Hin) as Hgate.
  cbv beta in Hgate. fold (uncached e w) in Hgate.
  set (w1 := put self _ w) in *.
  fold (uncached e w1) in Hgate.
  intros H. apply andThen_final in H as [H|(ret & w2 & H & Hk)].
  { pose proof (dispatch_wraps self e w1 w' (carries_plain e e_plain)) as H1.
    rewrite H in H1. specialize (H1 eq_refl). simpl in H1. lia. }
  pose proof (dispatch_wraps self e w1 w2 (carries_plain e e_plain)) as H1.
  rewrite H in H1. specialize (H1 eq_refl). simpl in H1.
  destruct (EmitEvent_new e (guids w2)) as [invoked g'] eqn:Hnew.
  assert (Hinv : carries e invoked).
  { replace invoked with (fst (EmitEvent_new e (guids w2)))
      by (by rewrite Hnew).
    apply carries_EmitEvent. }
  set (w3 := mkWorld (store w2) g' (closures w2)
               (Wrapped self invoked :: trace w2)) in *.
  assert (Hd2 : forall w4,
            final (dispatch emit_rec self invoked w3) = Some w4 ->
            wraps (trace w4) + uncached e w4
            <= S (wraps (trace w2)) + uncached e w2).
  { intros w4 Hf. apply (dispatch_wraps self invoked w3 w4 Hinv) in Hf.
    exact Hf. }
  apply andThen_final in Hk as [Hk|(b & w4 & Hk & Hk2)].
  - specialize (Hd2 w'). rewrite Hk in Hd2. specialize (Hd2 eq_refl). lia.
  - simpl in Hk2. injection Hk2 as <-.
    specialize (Hd2 w4). rewrite Hk in Hd2. specialize (Hd2 eq_refl). lia.
Qed.

End PlainWraps.

(** And each observer that had not seen the event raises at most one
    EmitEvent for it; the others raise none. *)
Lemma emit_wraps e :
  emitted e = None ->
  forall fuel w self w',
    final (emit fuel w self e) = Some w' ->
    wraps (trace w') + uncached e w' <= wraps (trace w) + uncached e w.
Proof.
  intros He. induction fuel as [|fuel IH]; intros w self w'; [done|].
  simpl. apply (emit_body_wraps e He (emit fuel)). exact IH.
Qed.

(* ===================================================================== *)
(** * The scenarios run                                                   *)
(* ===================================================================== *)

Lemma counter_never_repeats : never_repeats Scenario.counter.
Proof. intros i j H. simpl in H. lia. Qed.

Example scenario_emit :
  match emit 5 Scenario.twoBound 0 Scenario.ping0 with
  | Done ret w =>
      ret = true /\
      idCache <$> store w = [[0%N]; [0%N]] /\
      relay_calls (trace w) = 2
  | _ => False
  end.
Proof. vm_compute. auto. Qed.

(* ===================================================================== *)
(** * Events: identity and the EmitEvent wrapper                          *)
(* ===================================================================== *)

Lemma construct_draws c g :
  id (fst (construct c g)) = sequence g (drawn g) /\
  drawn (snd (construct c g)) = S (drawn g) /\
  sequence (snd (construct c g)) = sequence g.
Proof. destruct c; simpl; auto. Qed.

Lemma construct_all_ids cs :
  forall g,
    id <$> fst (construct_all cs g)
    = (fun k => sequence g (drawn g + k)) <$> seq 0 (length cs).
Proof.
  induction cs as [|c cs IH]; intros g; [done|].
  pose proof (construct_draws c g) as (Hid & Hd & Hs).
  cbn [construct_all length seq].
  destruct (construct c g) as [e g1]. cbn [fst snd] in *.
  specialize (IH g1).
  destruct (construct_all cs g1) as [es g2]. cbn [fst snd] in *.
  rewrite !fmap_cons. rewrite IH, Hid, Hs, Hd.
  f_equal; [f_equal; lia|].
  rewrite <- (fmap_S_seq 0), <- list_fmap_compose.
  apply list_fmap_ext. intros _ k _. simpl. f_equal. lia.
Qed.

(** C6.  Every construction of an Event, through the base constructor or
    through the EmitEvent constructor, gives the instance the next
    identifier of [Guid.create()], at construction and only there: the ids
    of events constructed one after the other are the successive draws,
    the EmitEvent constructor leaves the id given by the base constructor
    in place, and, [Guid.create()] never repeating itself, any two
    constructions yield distinct ids. *)
Theorem Event_ids_fresh_and_unique (g : GuidSource) (cs : list Construction) :
  never_repeats g ->
  id <$> fst (construct_all cs g)
  = (fun k => sequence g (drawn g + k)) <$> seq 0 (length cs) /\
  NoDup (id <$> fst (construct_all cs g)) /\
  (forall cls d, id (fst (Event_new cls d g)) = fst (Guid_create g)) /\
  (forall event,
     id (fst (EmitEvent_new event g))
     = id (fst (Event_new EmitEvent JsUndefined g))).
Proof.
  intros Hg. split; [apply construct_all_ids|]. split; [|by split].
  rewrite construct_all_ids. apply NoDup_fmap_2_strong; [|apply NoDup_seq].
  intros a b _ _ H. apply Hg in H. lia.
Qed.

Lemma Event_ids_fresh_and_unique_witness :
  never_repeats Scenario.counter /\
  NoDup (id <$> fst (construct_all
                       [ NewEvent Scenario.Ping (JsNumber 7);
                         NewEmitEvent Scenario.ping0;
                         NewEvent Scenario.Pong JsUndefined ]
                       Scenario.counter)).
Proof.
  split; [apply counter_never_repeats|].
  apply (Event_ids_fresh_and_unique Scenario.counter
           [ NewEvent Scenario.Ping (JsNumber 7);
             NewEmitEvent Scenario.ping0;
             NewEvent Scenario.Pong JsUndefined ]).
  apply counter_never_repeats.
Defined.

(** C9.  Reading [emitted] on [new EmitEvent(e)] gives back exactly [e]:
    the constructor stores the event it is given, unchanged, and the only
    other effect of the construction is one draw of an identifier. *)
Theorem EmitEvent_emitted_roundtrip (e : Event) (g : GuidSource) :
  emitted (fst (EmitEvent_new e g)) = Some e /\
  snd (EmitEvent_new e g) = snd (Guid_create g).
Proof. split; reflexivity. Qed.

(** C10.  Whatever event it wraps, an EmitEvent has the display name
    "Event Invoked" and the unique type name
    "LoganGerber-BindableObserver-EmitEvent"; hence every EmitEvent
    resolves to the one dispatch key of the EmitEvent class, the key [bind]
    installs relay listeners on, and so does any user variant that declares
    the same unique type name. *)
Theorem EmitEvent_names_constant (e : Event) (g : GuidSource) :
  name (proto (fst (EmitEvent_new e g))) = "Event Invoked" /\
  uniqueName (proto (fst (EmitEvent_new e g)))
  = "LoganGerber-BindableObserver-EmitEvent" /\
  getRegisterableEventName (ByInstance (fst (EmitEvent_new e g)))
  = getRegisterableEventName (ByClass EmitEvent) /\
  (forall (c : nat) (display : string),
     getRegisterableEventName
       (ByClass {| ctor := c; name := display;
                   uniqueName := "LoganGerber-BindableObserver-EmitEvent" |})
     = getRegisterableEventName (ByClass EmitEvent)).
Proof. repeat split. Qed.

(* ===================================================================== *)
(** * The id cache limit                                                  *)
(* ===================================================================== *)

Lemma cache_insert_unbounded limit ids :
  (limit <= 0)%Z ->
  forall cache,
    foldl (fun c i => cache_insert limit i c) cache ids = cache ++ ids.
Proof.
  intros H. induction ids as [|i ids IH]; intros cache; simpl.
  - by rewrite app_nil_r.
  - rewrite IH. unfold cache_insert. rewrite cache_evict_unbounded by done.
    by rewrite <- app_assoc.
Qed.

(** C5.  [setIdCacheLimit(n)] stores [n], which [getIdCacheLimit] then
    returns, and touches nothing but the cache.  With [n <= 0] the cache
    is left as it is and no later insertion evicts anything; with [n > 0]
    and more than [n] ids in the cache, the oldest ids are dropped and
    exactly the [n] most recent remain; with [n > 0] and at most [n] ids,
    the cache is left as it is. *)
Theorem setIdCacheLimit_spec (n : Z) (ob : EventObserver) :
  Observer.getIdCacheLimit (Observer.setIdCacheLimit n ob) = n /\
  internalEmitter (Observer.setIdCacheLimit n ob) = internalEmitter ob /\
  relays (Observer.setIdCacheLimit n ob) = relays ob /\
  ((n <= 0)%Z ->
     idCache (Observer.setIdCacheLimit n ob) = idCache ob /\
     forall ids,
       foldl
         (fun c i =>
            cache_insert (idCacheLimit (Observer.setIdCacheLimit n ob)) i c)
         (idCache (Observer.setIdCacheLimit n ob)) ids
       = idCache ob ++ ids) /\
  ((0 < n)%Z -> (n < Z.of_nat (length (idCache ob)))%Z ->
     idCache (Observer.setIdCacheLimit n ob)
     = drop (length (idCache ob) - Z.to_nat n) (idCache ob) /\
     Z.of_nat (Observer.getIdCacheSize (Observer.setIdCacheLimit n ob)) = n) /\
  ((0 < n)%Z -> (Z.of_nat (length (idCache ob)) <= n)%Z ->
     idCache (Observer.setIdCacheLimit n ob) = idCache ob).
Proof.
  unfold Observer.getIdCacheLimit, Observer.getIdCacheSize,
    Observer.setIdCacheLimit. simpl.
  split; [done|]. split; [done|]. split; [done|].
  split; [|split].
  - intros Hn. split; [by apply cache_evict_unbounded|].
    intros ids. rewrite cache_insert_unbounded by done.
    by rewrite cache_evict_unbounded.
  - intros Hn Hlen. unfold cache_evict.
    destruct (Z.ltb_spec 0 n); [|lia].
    split; [done|]. rewrite length_drop. lia.
  - intros Hn Hlen. by apply cache_evict_fits.
Qed.

Lemma setIdCacheLimit_spec_witness :
  idCache (Observer.setIdCacheLimit 2
             (with_cache [1; 2; 3; 4; 5]%N (newObserver 100)))
  = [4; 5]%N /\
  idCache (Observer.setIdCacheLimit (-1)
             (with_cache [1; 2; 3]%N (newObserver 2)))
  = [1; 2; 3]%N /\
  idCache (Observer.setIdCacheLimit 7
             (with_cache [1; 2; 3]%N (newObserver 2)))
  = [1; 2; 3]%N.
Proof.
  split; [|split].
  - pose proof (setIdCacheLimit_spec 2
                  (with_cache [1; 2; 3; 4; 5]%N (newObserver 100)))
      as (_ & _ & _ & _ & Hshrink & _).
    apply Hshrink; simpl; lia.
  - pose proof (setIdCacheLimit_spec (-1)
                  (with_cache [1; 2; 3]%N (newObserver 2)))
      as (_ & _ & _ & Hunbounded & _ & _).
    apply Hunbounded. lia.
  - pose proof (setIdCacheLimit_spec 7
                  (with_cache [1; 2; 3]%N (newObserver 2)))
      as (_ & _ & _ & _ & _ & Hfits).
    apply Hfits; simpl; lia.
Defined.

(* ===================================================================== *)
(** * The dispatch key                                                    *)
(* ===================================================================== *)

(** C7, as stated, fails: two distinct variants that declare the same
    unique type name resolve to the same key, and a listener registered
    for the one is found, and would be called, for the other. *)
Lemma dispatch_key_collision :
  Scenario.Ping <> Scenario.Pong /\
  getRegisterableEventName (ByClass Scenario.Ping)
  = getRegisterableEventName (ByClass Scenario.Pong) /\
  Observer.hasListener (ByClass Scenario.Pong) (Callback 10)
    (Observer.on (ByClass Scenario.Ping) (Callback 10) (newObserver 100))
  = true.
Proof. split; [discriminate|]. split; reflexivity. Qed.

(** C7, amended.  A variant class and any live instance of it resolve to
    the same dispatch key, the same for all instances of the variant, so
    that every registration and lookup operation behaves identically on
    both forms; two variants have distinct keys exactly when their unique
    type names differ. *)
Theorem dispatch_key_resolution (e : Event) (l : Listener)
  (ob : EventObserver) :
  getRegisterableEventName (ByInstance e)
  = getRegisterableEventName (ByClass (proto e)) /\
  (forall e', proto e' = proto e ->
     getRegisterableEventName (ByInstance e')
     = getRegisterableEventName (ByInstance e)) /\
  (forall c1 c2,
     getRegisterableEventName (ByClass c1)
     = getRegisterableEventName (ByClass c2)
     <-> uniqueName c1 = uniqueName c2) /\
  Observer.on (ByInstance e) l ob = Observer.on (ByClass (proto e)) l ob /\
  Observer.once (ByInstance e) l ob
  = Observer.once (ByClass (proto e)) l ob /\
  Observer.prependListener (ByInstance e) l ob
  = Observer.prependListener (ByClass (proto e)) l ob /\
  Observer.prependOnceListener (ByInstance e) l ob
  = Observer.prependOnceListener (ByClass (proto e)) l ob /\
  Observer.removeListener (ByInstance e) l ob
  = Observer.removeListener (ByClass (proto e)) l ob /\
  Observer.removeAllListeners (Some (ByInstance e)) ob
  = Observer.removeAllListeners (Some (ByClass (proto e))) ob /\
  Observer.hasListener (ByInstance e) l ob
  = Observer.hasListener (ByClass (proto e)) l ob.
Proof.
  split; [done|]. split; [by intros e' H; simpl; rewrite H|].
  split; [done|]. repeat split.
Qed.

Lemma dispatch_key_resolution_witness :
  getRegisterableEventName (ByInstance Scenario.wrapped0)
  = getRegisterableEventName
      (ByInstance (fst (EmitEvent_new Scenario.ping1 Scenario.counter3))).
Proof.
  symmetry.
  apply (dispatch_key_resolution Scenario.wrapped0 (Callback 0)
           (newObserver 100)).
  reflexivity.
Defined.

(* ===================================================================== *)
(** * Binding records                                                     *)
(* ===================================================================== *)

Lemma lookup_update s f w i :
  store (update s f w) !! i
  = if decide (s = i) then f <$> store w !! i else store w !! i.
Proof.
  unfold update. destruct (store w !! s) as [ob|] eqn:Hs; simpl.
  - destruct (decide (s = i)) as [<-|Hne].
    + rewrite Hs. simpl. apply list_lookup_insert_eq.
      by eapply lookup_lt_Some.
    + by apply list_lookup_insert_ne.
  - destruct (decide (s = i)) as [<-|Hne]; [by rewrite Hs|done].
Qed.

Lemma length_update s f w : length (store (update s f w)) = length (store w).
Proof.
  unfold update. destruct (store w !! s); simpl; [|done].
  apply length_insert.
Qed.

Lemma checkBinding_relays_at self relay w :
  checkBinding self relay w
  = relays_at self w ≫= fun m => relayFlags <$> m !! relay.
Proof.
  unfold checkBinding, relays_at, Observer.checkBinding.
  by destruct (store w !! self).
Qed.

Lemma relays_at_update_keep s f w self :
  (forall ob, relays (f ob) = relays ob) ->
  relays_at self (update s f w) = relays_at self w.
Proof.
  intros Hf. unfold relays_at. rewrite lookup_update.
  destruct (decide (s = self)); [|done].
  destruct (store w !! self); simpl; [|done]. by rewrite Hf.
Qed.

Lemma relays_at_update_other s f w self :
  s <> self -> relays_at self (update s f w) = relays_at self w.
Proof.
  intros Hne. unfold relays_at. rewrite lookup_update.
  by destruct (decide (s = self)).
Qed.

Lemma relays_at_update_self self g w :
  relays_at self
    (update self (fun ob => with_relays (g (relays ob)) ob) w)
  = g <$> relays_at self w.
Proof.
  unfold relays_at. rewrite lookup_update.
  destruct (decide (self = self)); [|done].
  by destruct (store w !! self).
Qed.

Lemma relays_at_removeListener s ev l w self :
  relays_at self (update s (Observer.removeListener ev l) w)
  = relays_at self w.
Proof.
  apply relays_at_update_keep. intros ob.
  unfold Observer.removeListener, Observer.unregister.
  by destruct (internalEmitter ob !! _).
Qed.

Lemma relays_at_unbind s r w self :
  relays_at self (unbind s r w)
  = if decide (s = self)
    then match relays_at self w with
         | Some m => Some (delete r m)
         | None => None
         end
    else relays_at self w.
Proof.
  unfold unbind.
  destruct (store w !! s ≫= fun ob => relays ob !! r) as [entry|] eqn:He.
  - set (w1 := if includes (relayFlags entry) RelayTo then _ else w).
    set (w2 := if includes (relayFlags entry) RelayFrom then _ else w1).
    assert (H1 : relays_at self w1 = relays_at self w).
    { unfold w1. destruct (includes (relayFlags entry) RelayTo).
      - apply relays_at_removeListener.
      - reflexivity. }
    assert (H2 : relays_at self w2 = relays_at self w).
    { unfold w2. destruct (includes (relayFlags entry) RelayFrom).
      - rewrite relays_at_removeListener. exact H1.
      - exact H1. }
    destruct (decide (s = self)) as [->|Hne].
    + rewrite relays_at_update_self, H2. by destruct (relays_at self w).
    + rewrite relays_at_update_other by done. done.
  - destruct (decide (s = self)) as [->|Hne]; [|done].
    unfold relays_at. destruct (store w !! self) as [ob|]; simpl in *; [|done].
    f_equal. symmetry. by apply delete_id.
Qed.

Lemma closures_update s f w : closures (update s f w) = closures w.
Proof. unfold update. by destruct (store w !! s). Qed.

Lemma closures_unbind s r w : closures (unbind s r w) = closures w.
Proof.
  unfold unbind.
  destruct (store w !! s ≫= fun ob => relays ob !! r) as [entry|]; [|done].
  rewrite closures_update.
  destruct (includes _ RelayFrom), (includes _ RelayTo);
    by rewrite ?closures_update.
Qed.

Lemma length_unbind s r w : length (store (unbind s r w)) = length (store w).
Proof.
  unfold unbind.
  destruct (store w !! s ≫= fun ob => relays ob !! r) as [entry|]; [|done].
  rewrite length_update.
  destruct (includes _ RelayFrom), (includes _ RelayTo);
    by rewrite ?length_update.
Qed.

Lemma relays_at_bind s r flags w self :
  is_Some (store w !! s) -> is_Some (store w !! r) ->
  relays_at self (bind s r flags w)
  = if decide (s = self)
    then match relays_at self w with
         | Some m =>
             Some (<[r := {| relayFlags := default RelayAll flags;
                             fromBubble := Bubble (S (closures w)) s;
                             toBubble := Bubble (closures w) r |}]> m)
         | None => None
         end
    else relays_at self w.
Proof.
  intros [obs Hs] [obr Hr]. unfold bind. rewrite Hs, Hr.
  unfold generateBubbleFunction.
  set (w0 := unbind s r w).
  assert (Hc : closures w0 = closures w) by apply closures_unbind.
  set (w2 := mkWorld (store w0) (guids w0) (S (S (closures w0))) (trace w0)).
  assert (H2 : relays_at self w2 = relays_at self w0) by done.
  simpl. fold w2.
  set (w3 := if includes (default RelayAll flags) RelayTo then _ else w2).
  set (w4 := if includes (default RelayAll flags) RelayFrom then _ else w3).
  assert (H3 : relays_at self w3 = relays_at self w0).
  { unfold w3. destruct (includes (default RelayAll flags) RelayTo).
    - by rewrite relays_at_update_keep.
    - exact H2. }
  assert (H4 : relays_at self w4 = relays_at self w0).
  { unfold w4. destruct (includes (default RelayAll flags) RelayFrom).
    - rewrite relays_at_update_keep; [exact H3|done].
    - exact H3. }
  rewrite Hc.
  destruct (decide (s = self)) as [->|Hne].
  - rewrite (relays_at_update_self self
               (fun m => <[r := mkRelayEntry (default RelayAll flags)
                                   (Bubble (S (closures w)) self)
                                   (Bubble (closures w) r)]> m)).
    rewrite H4. unfold w0. rewrite relays_at_unbind.
    destruct (decide (self = self)); [|done].
    destruct (relays_at self w) as [m|]; simpl; [|done].
    f_equal. apply insert_delete_eq.
  - rewrite relays_at_update_other by done.
    rewrite H4. unfold w0. rewrite relays_at_unbind.
    by destruct (decide (s = self)).
Qed.

Lemma cascade_any allowed w w' :
  cascade allowed w w' -> pointwise (any_rel allowed) w w'.
Proof.
  apply cascade_pointwise.
  - intros ob. repeat split; auto.
  - intros a b c (L1 & R1 & M1 & B1) (L2 & R2 & M2 & B2).
    repeat split; [congruence|congruence| |auto].
    intros i Hi. destruct (M2 i Hi) as [Hb|Ha]; auto.
  - intros ob i Ha Hn. repeat split; simpl.
    + intros j Hj. apply cache_insert_subset in Hj as [->|Hj]; auto.
    + unfold cache_bounded, Observer.getIdCacheSize. simpl.
      intros _ Hpos.
      pose proof (cache_insert_length (idCacheLimit ob) i (idCache ob) Hpos).
      lia.
  - intros ob key r _. repeat split; simpl; auto.
Qed.

Lemma emit_any fuel w self e w' :
  final (emit fuel w self e) = Some w' ->
  pointwise (any_rel (fun i => i ∈ nested_ids e)) w w'.
Proof.
  intros H. apply cascade_any. eapply emit_cascade; [|done]. auto.
Qed.

Lemma apply_op_emit fuel self e w w' :
  apply_op (OpEmit fuel self e) w = Some w' ->
  final (emit fuel w self e) = Some w'.
Proof. simpl. by destruct (emit fuel w self e). Qed.

Lemma length_bind s r flags w :
  length (store (bind s r flags w)) = length (store w).
Proof.
  unfold bind. destruct (store w !! s), (store w !! r); try done.
  simpl. rewrite length_update.
  destruct (includes _ RelayFrom), (includes _ RelayTo);
    rewrite ?length_update; simpl; apply length_unbind.
Qed.

(** No call of the interface removes an observer from the store. *)
Lemma apply_op_length op w w' :
  apply_op op w = Some w' -> length (store w) <= length (store w').
Proof.
  destruct op; simpl; try (intros [= <-]; rewrite ?length_update; lia).
  - intros [= <-]. simpl. rewrite length_app. lia.
  - intros H. apply apply_op_emit, emit_any in H as [-> _]. lia.
  - intros [= <-]. rewrite length_bind. lia.
  - intros [= <-]. rewrite length_unbind. lia.
Qed.

Lemma run_length ops :
  forall w w', run ops w = Some w' -> length (store w) <= length (store w').
Proof.
  induction ops as [|op ops IH]; intros w w'; simpl.
  - intros [= <-]. lia.
  - destruct (apply_op op w) as [w1|] eqn:H1; [|done].
    intros H. apply IH in H. apply apply_op_length in H1. lia.
Qed.

Lemma apply_op_relays_at op w w' self :
  self < length (store w) ->
  apply_op op w = Some w' ->
  relays_at self w'
  = match op with
    | OpBind s r flags =>
        if decide (s = self /\ r < length (store w))
        then (fun m =>
                <[r := {| relayFlags := default RelayAll flags;
                          fromBubble := Bubble (S (closures w)) s;
                          toBubble := Bubble (closures w) r |}]> m)
             <$> relays_at self w
        else relays_at self w
    | OpUnbind s r =>
        if decide (s = self) then delete r <$> relays_at self w
        else relays_at self w
    | _ => relays_at self w
    end.
Proof.
  intros Hself.
  destruct op; simpl;
    try (intros [= <-]; apply relays_at_update_keep; done).
  - intros [= <-]. unfold relays_at. simpl. by rewrite lookup_app_l.
  - intros [= <-]. apply relays_at_removeListener.
  - intros [= <-]. apply relays_at_update_keep. intros ob.
    by destruct event.
  - intros H. apply apply_op_emit, emit_any in H as [_ H].
    unfold relays_at.
    destruct (lookup_lt_is_Some_2 _ _ Hself) as [ob Hob].
    destruct (H self ob Hob) as (ob' & Hob' & _ & Hr & _).
    rewrite Hob, Hob'. simpl. by rewrite Hr.
  - intros [= <-].
    destruct (decide (self0 = self /\ relay < length (store w)))
      as [[-> Hr]|Hn].
    + rewrite relays_at_bind by (by apply lookup_lt_is_Some_2).
      destruct (decide (self = self)); [|done].
      by destruct (relays_at self w).
    + destruct (decide (self0 = self)) as [->|Hne].
      * unfold bind.
        destruct (store w !! self); [|done].
        destruct (store w !! relay) eqn:Hrel; [|done].
        apply lookup_lt_Some in Hrel. tauto.
      * unfold bind.
        destruct (store w !! self0) eqn:E1; [|done].
        destruct (store w !! relay) eqn:E2; [|done].
        pose proof (relays_at_bind self0 relay flags w self) as Hb.
        unfold bind in Hb. rewrite E1, E2 in Hb.
        rewrite Hb by eauto. by destruct (decide (self0 = self)).
  - intros [= <-]. rewrite relays_at_unbind.
    destruct (decide (self0 = self)); [|done].
    by destruct (relays_at self w).
Qed.

Lemma apply_op_checkBinding op w w' self relay :
  self < length (store w) -> relay < length (store w) ->
  apply_op op w = Some w' ->
  checkBinding self relay w'
  = recorded self relay [op] (checkBinding self relay w).
Proof.
  intros Hself Hrelay H.
  rewrite !checkBinding_relays_at.
  rewrite (apply_op_relays_at op w w' self Hself H).
  destruct (lookup_lt_is_Some_2 _ _ Hself) as [ob Hob].
  assert (Hm : relays_at self w = Some (relays ob)).
  { unfold relays_at. by rewrite Hob. }
  rewrite Hm. destruct op; simpl; try done.
  - destruct (decide (self0 = self /\ relay0 < length (store w)))
      as [[-> Hr]|Hn].
    + simpl. destruct (decide (self = self /\ relay0 = relay))
        as [[_ ->]|Hn2].
      * by rewrite lookup_insert_eq.
      * rewrite lookup_insert_ne; [done|]. intros ->. tauto.
    + destruct (decide (self0 = self /\ relay0 = relay)) as [[-> ->]|Hn2];
        [tauto|done].
  - destruct (decide (self0 = self)) as [->|Hne]; simpl.
    + destruct (decide (self = self /\ relay0 = relay)) as [[_ ->]|Hn2].
      * by rewrite lookup_delete_eq.
      * rewrite lookup_delete_ne; [done|]. intros ->. tauto.
    + destruct (decide (self0 = self /\ relay0 = relay)) as [[-> _]|Hn2];
        [done|done].
Qed.

(** C8.  After any sequence of calls of the interface, on any observers
    and in any order, [checkBinding(self, relay)] returns exactly the
    direction of the most recent [bind(self, relay, direction)] that no
    [unbind(self, relay)] followed ([RelayFlags.All] when the direction
    was omitted), and [undefined] when there is no such record: after an
    [unbind(self, relay)], and for an observer that was never bound, such
    as a new one. *)
Theorem checkBinding_most_recent (ops : list Op) (w w' : World)
  (self relay : ObsId) :
  self < length (store w) -> relay < length (store w) ->
  run ops w = Some w' ->
  checkBinding self relay w'
  = recorded self relay ops (checkBinding self relay w) /\
  (forall flags,
     checkBinding self relay (bind self relay flags w')
     = Some (default RelayAll flags)) /\
  checkBinding self relay (unbind self relay w') = None /\
  (forall limit other,
     checkBinding (fst (create limit w')) other (snd (create limit w'))
     = None).
Proof.
  intros Hself Hrelay Hrun.
  assert (Hgen : forall ops w w',
    self < length (store w) -> relay < length (store w) ->
    run ops w = Some w' ->
    checkBinding self relay w'
    = recorded self relay ops (checkBinding self relay w)).
  { clear. induction ops as [|op ops IH]; intros w w' Hself Hrelay; simpl.
    - by intros [= <-].
    - destruct (apply_op op w) as [w1|] eqn:H1; [|done].
      intros Hrun. pose proof (apply_op_length _ _ _ H1) as Hlen.
      rewrite (IH w1 w') by (done || lia).
      rewrite (apply_op_checkBinding op w w1 self relay) by done.
      by destruct op. }
  pose proof (run_length _ _ _ Hrun) as Hlen.
  split; [by apply Hgen|]. split; [|split].
  - intros flags.
    rewrite (Hgen [OpBind self relay flags] w' _) by (lia || done).
    simpl. by destruct (decide _) as [|[]].
  - rewrite (Hgen [OpUnbind self relay] w' _) by (lia || done).
    simpl. by destruct (decide _) as [|[]].
  - intros limit other. unfold checkBinding, create. simpl.
    rewrite lookup_app_r by done. by rewrite Nat.sub_diag.
Qed.

Lemma checkBinding_most_recent_witness :
  checkBinding 0 1
    (default Scenario.twoNew (run Scenario.rebinding Scenario.twoNew))
  = recorded 0 1 Scenario.rebinding (checkBinding 0 1 Scenario.twoNew) /\
  recorded 0 1 Scenario.rebinding (checkBinding 0 1 Scenario.twoNew)
  = Some RelayFrom.
Proof.
  split; [|vm_compute; reflexivity].
  refine (proj1 (checkBinding_most_recent Scenario.rebinding Scenario.twoNew
                   (default Scenario.twoNew
                      (run Scenario.rebinding Scenario.twoNew)) 0 1 _ _ _)).
  - vm_compute. lia.
  - vm_compute. lia.
  - vm_compute. reflexivity.
Defined.

(* ===================================================================== *)
(** * The cache gate                                                      *)
(* ===================================================================== *)

(** An emit whose event is in the cache of the observer returns [false]
    at once and changes nothing. *)
Lemma emit_suppressed fuel w self ob e :
  store w !! self = Some ob ->
  id e ∈ idCache ob ->
  emit (S fuel) w self e = Done false w.
Proof.
  intros Hob Hin. simpl. unfold emit_body. rewrite Hob.
  unfold cache_contains. by rewrite bool_decide_eq_true_2.
Qed.

(** Otherwise the insertion comes first and the rest follows from there. *)
Lemma emit_gate allowed fuel w self ob e w' :
  (forall i, i ∈ nested_ids e -> allowed i) ->
  store w !! self = Some ob ->
  id e ∉ idCache ob ->
  final (emit fuel w self e) = Some w' ->
  cascade allowed
    (put self
       (with_cache (cache_insert (idCacheLimit ob) (id e) (idCache ob)) ob)
       w)
    w'.
Proof.
  intros He Hob Hin. destruct fuel as [|fuel]; [done|].
  simpl. unfold emit_body. rewrite Hob. unfold cache_contains.
  rewrite bool_decide_eq_false_2 by done.
  assert (Hrec : forall w0 target e0 w0',
            (forall i, i ∈ nested_ids e0 -> allowed i) ->
            final (emit fuel w0 target e0) = Some w0' ->
            cascade allowed w0 w0').
  { intros w0 target e0 w0' H0. by apply emit_cascade. }
  assert (He1 : forall e' i,
             emitted e = Some e' -> i ∈ nested_ids e' -> allowed i).
  { intros e' i H1 H2. eapply He, nested_ids_emitted; done. }
  intros H. apply andThen_final in H as [H|(ret & w2 & H & Hk)].
  { eapply dispatch_cascade; [exact Hrec|done|]. rewrite H. done. }
  etrans; [eapply dispatch_cascade; [exact Hrec|done|]; rewrite H; done|].
  destruct (EmitEvent_new e (guids w2)) as [invoked g'] eqn:Hnew.
  eapply rtc_l; [apply (step_wrap allowed self e)|].
  rewrite Hnew. simpl.
  assert (He2 : forall e' i,
             emitted invoked = Some e' -> i ∈ nested_ids e' -> allowed i).
  { intros e' i H1 H2. apply He.
    unfold EmitEvent_new, Event_new in Hnew. simpl in Hnew.
    injection Hnew as <- <-. simpl in H1. injection H1 as <-. done. }
  apply andThen_final in Hk as [Hk|(b & w4 & Hk & Hk2)].
  { eapply dispatch_cascade; [exact Hrec|done|]. rewrite Hk. done. }
  simpl in Hk2. injection Hk2 as <-.
  eapply dispatch_cascade; [exact Hrec|done|]. rewrite Hk. done.
Qed.

(** The cache of the emitting observer after an emit of an event that
    wraps nothing: the event's id has been inserted, once, if it was not
    there. *)
Lemma emit_plain_self fuel w self ob e w' :
  emitted e = None ->
  store w !! self = Some ob ->
  final (emit fuel w self e) = Some w' ->
  exists ob',
    store w' !! self = Some ob' /\
    idCacheLimit ob' = idCacheLimit ob /\
    idCache ob'
    = if cache_contains (id e) (idCache ob) then idCache ob
      else cache_insert (idCacheLimit ob) (id e) (idCache ob).
Proof.
  intros He Hob H. unfold cache_contains. case_bool_decide as Hin.
  - destruct fuel as [|fuel]; [done|].
    rewrite (emit_suppressed fuel w self ob e Hob Hin) in H.
    injection H as <-. eauto.
  - apply (emit_gate (fun i => i = id e) fuel w self ob) in H; [|
      |done|done].
    2: { intros i Hi. rewrite (nested_ids_plain e He) in Hi.
         by apply list_elem_of_singleton in Hi. }
    apply cascade_plain in H as [_ H].
    set (ob1 := with_cache _ ob) in *.
    destruct (H self ob1) as (ob' & Hob' & HL & _ & _ & HC).
    { simpl. apply list_lookup_insert_eq. by eapply lookup_lt_Some. }
    exists ob'. split; [done|]. split; [done|].
    destruct HC as [HC|[HC _]]; [done|].
    exfalso. apply HC. apply cache_insert_elem.
Qed.




(* ===================================================================== *)
(** * Delivery                                                            *)
(* ===================================================================== *)

Lemma remove_first_other {A} (p : A -> bool) (l : list A) x :
  p x = false -> x ∈ l -> x ∈ Observer.remove_first p l.
Proof.
  intros Hp. induction l as [|y l IH]; simpl; [done|].
  intros [->|Hin]%elem_of_cons.
  - rewrite Hp. left.
  - destruct (p y); [done|]. right. auto.
Qed.

Lemma cascade_keeps_persistent allowed w w' :
  cascade allowed w w' -> pointwise keeps_persistent w w'.
Proof.
  apply cascade_pointwise.
  - intros ob key r _ H. done.
  - intros a b c H1 H2 key r Hr H. apply H2, H1; done.
  - intros ob i _ _ key r _ H. done.
  - intros ob key r0 Honce key' r Hr H.
    rewrite listeners_set_listeners.
    destruct (decide (key = key')) as [->|]; [|done].
    apply remove_first_other; [|done].
    apply bool_decide_eq_false_2. intros ->. congruence.
Qed.

Lemma andThen_Done {A B} (x : Outcome A) (k : A -> World -> Outcome B) b w' :
  andThen x k = Done b w' ->
  exists a w1, x = Done a w1 /\ k a w1 = Done b w'.
Proof. destruct x as [a w1|w1|]; simpl; [eauto|done|done]. Qed.

Lemma final_Done {A} (x : Outcome A) a w : x = Done a w -> final x = Some w.
Proof. by intros ->. Qed.

Section Delivery.

Variable emit_rec : World -> ObsId -> Event -> Outcome bool.

Hypothesis rec_any :
  forall w target e w',
    final (emit_rec w target e) = Some w' ->
    cascade (fun _ => True) w w'.

Lemma rec_any' :
  forall w target e w',
    (forall i, i ∈ nested_ids e -> True) ->
    final (emit_rec w target e) = Some w' ->
    cascade (fun _ => True) w w'.
Proof. intros w target e w' _. apply rec_any. Qed.

Lemma run_listeners_grows self key ev snapshot w w' :
  final (run_listeners emit_rec self key snapshot ev w) = Some w' ->
  exists new, trace w' = new ++ trace w.
Proof.
  intros H. eapply run_listeners_cascade in H; [|apply rec_any'|done].
  by apply cascade_frame in H as (_ & _ & _ & H).
Qed.

Lemma run_listeners_delivers self key ev fn snapshot :
  persistent fn ∈ snapshot ->
  forall w b w',
    run_listeners emit_rec self key snapshot ev w = Done b w' ->
    b = true /\
    exists new, trace w' = new ++ trace w /\ Invoked self fn ev ∈ new.
Proof.
  induction snapshot as [|r rest IH]; intros Hin w b w'.
  { by apply elem_of_nil in Hin. }
  simpl.
  assert (Hcont : forall w0,
    trace w0 = trace w ->
    (r = persistent fn \/ persistent fn ∈ rest) ->
    andThen (call_listener emit_rec self (listener r) ev w0)
      (fun _ w1 =>
         andThen (run_listeners emit_rec self key rest ev w1)
                 (fun _ w2 => Done true w2)) = Done b w' ->
    b = true /\
    exists new, trace w' = new ++ trace w /\ Invoked self fn ev ∈ new).
  { intros w0 Htr Hcase H.
    apply andThen_Done in H as (a & w1 & H1 & H).
    apply andThen_Done in H as (b' & w2 & H2 & H).
    injection H as <- <-. split; [done|].
    pose proof (final_Done _ _ _ H1) as Hc1.
    eapply call_listener_cascade in Hc1; [|apply rec_any'|done].
    apply cascade_frame in Hc1 as (_ & _ & _ & n1 & Hn1).
    destruct Hcase as [->|Hrest].
    - simpl in H1. injection H1 as <- <-.
      apply final_Done, run_listeners_grows in H2 as [n2 Hn2].
      exists (n2 ++ [Invoked self fn ev]). simpl in Hn2.
      rewrite Hn2, <- app_assoc, Htr. split; [done|].
      apply elem_of_app. right. left.
    - destruct (IH Hrest _ _ _ H2) as (_ & n2 & Hn2 & Hi).
      exists (n2 ++ n1). rewrite Hn2, Hn1, Htr, <- app_assoc.
      split; [done|]. apply elem_of_app. by left. }
  apply elem_of_cons in Hin.
  destruct (runOnce r) eqn:Honce.
  - assert (Hrest : persistent fn ∈ rest).
    { destruct Hin as [<-|]; [simpl in Honce; discriminate|done]. }
    destruct (store w !! self) as [ob|]; [|done].
    case_bool_decide as Hmem.
    + apply Hcont; [done|by right].
    + apply IH. done.
  - apply Hcont; [done|]. destruct Hin as [<-|]; auto.
Qed.

Lemma dispatch_delivers self ev fn ob w b w' :
  store w !! self = Some ob ->
  persistent fn
  ∈ Observer.listeners (getRegisterableEventName (ByInstance ev)) ob ->
  dispatch emit_rec self ev w = Done b w' ->
  b = true /\
  exists new, trace w' = new ++ trace w /\ Invoked self fn ev ∈ new.
Proof.
  intros Hob Hin. unfold dispatch. rewrite Hob.
  by apply run_listeners_delivers.
Qed.

(** A completed emit that passes the cache gate: the listeners of the
    event's key are called with the event, then an EmitEvent is
    constructed from the Guid source and the listeners of the EmitEvent
    key are called with it. *)
Lemma emit_body_delivers self e ob w ret w' :
  store w !! self = Some ob ->
  id e ∉ idCache ob ->
  emit_body emit_rec self e w = Done ret w' ->
  exists g new,
    sequence g = sequence (guids w) /\
    drawn (guids w) <= drawn g /\
    S (drawn g) <= drawn (guids w') /\
    trace w' = new ++ trace w /\
    Wrapped self (fst (EmitEvent_new e g)) ∈ new /\
    (forall fn,
       persistent fn
       ∈ Observer.listeners (getRegisterableEventName (ByInstance e)) ob ->
       ret = true /\ Invoked self fn e ∈ new) /\
    (forall fn,
       persistent fn
       ∈ Observer.listeners (getRegisterableEventName (ByClass EmitEvent)) ob ->
       Invoked self fn (fst (EmitEvent_new e g)) ∈ new).
Proof.
  intros Hob Hin. unfold emit_body. rewrite Hob. unfold cache_contains.
  rewrite bool_decide_eq_false_2 by done.
  set (ob1 := with_cache _ ob). set (w1 := put self ob1 w).
  assert (Hob1 : store w1 !! self = Some ob1).
  { simpl. apply list_lookup_insert_eq. by eapply lookup_lt_Some. }
  intros H. apply andThen_Done in H as (ret' & w2 & H1 & H).
  destruct (EmitEvent_new e (guids w2)) as [invoked g'] eqn:Hnew.
  apply andThen_Done in H as (b & w4 & H2 & H).
  injection H as <- <-.
  assert (Hinv : invoked = fst (EmitEvent_new e (guids w2)))
    by (by rewrite Hnew).
  assert (Hg' : drawn g' = S (drawn (guids w2))).
  { unfold EmitEvent_new, Event_new in Hnew. simpl in Hnew.
    by injection Hnew as _ <-. }
  pose proof (final_Done _ _ _ H1) as Hc1.
  eapply dispatch_cascade in Hc1; [|apply rec_any'|done].
  pose proof (cascade_frame _ _ _ Hc1) as (_ & Hs1 & Hd1 & n1 & Hn1).
  pose proof (final_Done _ _ _ H2) as Hc2.
  eapply dispatch_cascade in Hc2; [|apply rec_any'|done].
  pose proof (cascade_frame _ _ _ Hc2) as (_ & _ & Hd2 & n2 & Hn2).
  simpl in Hs1, Hd1, Hn1, Hd2, Hn2.
  exists (guids w2), (n2 ++ Wrapped self invoked :: n1).
  rewrite <- Hinv.
  split; [done|]. split; [done|]. split; [lia|].
  split; [by rewrite Hn2, Hn1, <- app_assoc|].
  split; [apply elem_of_app; right; left|].
  split.
  - intros fn Hfn.
    destruct (dispatch_delivers self e fn ob1 w1 ret' w2 Hob1 Hfn H1)
      as (-> & m1 & Hm1 & Hi).
    split; [done|]. simpl in Hm1. rewrite Hn1 in Hm1.
    apply app_inv_tail in Hm1 as ->.
    apply elem_of_app. right. by right.
  - intros fn Hfn.
    apply cascade_keeps_persistent in Hc1 as [_ Hc1].
    destruct (Hc1 self ob1 Hob1) as (ob2 & Hob2 & Hkeep).
    assert (Hfn2 : persistent fn
              ∈ Observer.listeners
                  (getRegisterableEventName (ByInstance invoked)) ob2).
    { rewrite Hinv. apply Hkeep; done. }
    destruct (dispatch_delivers self invoked fn ob2
                (mkWorld (store w2) g' (closures w2)
                   (Wrapped self invoked :: trace w2))
                b w4 Hob2 Hfn2 H2)
      as (_ & m2 & Hm2 & Hi).
    simpl in Hm2. rewrite Hn2 in Hm2.
    apply app_inv_tail in Hm2 as ->.
    apply elem_of_app. by left.
Qed.

End Delivery.

Lemma emit_delivers fuel self e ob w ret w' :
  store w !! self = Some ob ->
  id e ∉ idCache ob ->
  emit fuel w self e = Done ret w' ->
  exists g new,
    sequence g = sequence (guids w) /\
    drawn (guids w) <= drawn g /\
    S (drawn g) <= drawn (guids w') /\
    trace w' = new ++ trace w /\
    Wrapped self (fst (EmitEvent_new e g)) ∈ new /\
    (forall fn,
       persistent fn
       ∈ Observer.listeners (getRegisterableEventName (ByInstance e)) ob ->
       ret = true /\ Invoked self fn e ∈ new) /\
    (forall fn,
       persistent fn
       ∈ Observer.listeners (getRegisterableEventName (ByClass EmitEvent)) ob ->
       Invoked self fn (fst (EmitEvent_new e g)) ∈ new).
Proof.
  intros Hob Hin. destruct fuel as [|fuel]; [done|]. simpl.
  apply emit_body_delivers; [|done|done].
  intros w0 target e0 w0' H0. by eapply emit_cascade.
Qed.

(* ===================================================================== *)
(** * The EmitEvent raised by an emit                                     *)
(* ===================================================================== *)




(* ===================================================================== *)
(** * Emits that return                                                   *)
(* ===================================================================== *)

(** In a state reached through the interface the relay closures sit under
    the EmitEvent key and relay to observers that exist; an event that is
    not an EmitEvent and is not dispatched under that key then meets no
    closure that fails, and its emit returns. *)

Lemma uncached_le_length e w : uncached e w <= length (store w).
Proof.
  unfold uncached. induction (store w) as [|ob l IH]; simpl; [lia|].
  unfold unseen at 1. destruct (cache_contains _ _); lia.
Qed.

Lemma pending_le_installed e w :
  pending e w <= weight installed_relays (store w).
Proof.
  unfold pending. induction (store w) as [|ob l IH]; simpl; [lia|].
  unfold unseen at 1. destruct (cache_contains _ _); lia.
Qed.

Lemma remove_first_subset {A} (p : A -> bool) (l : list A) x :
  x ∈ Observer.remove_first p l -> x ∈ l.
Proof.
  induction l as [|y l IH]; simpl; [done|].
  destruct (p y).
  - intros H. by right.
  - intros [-> | H]%elem_of_cons; [left|right; auto].
Qed.

Lemma cascade_shrinks allowed w w' :
  cascade allowed w w' -> pointwise shrinks w w'.
Proof.
  apply cascade_pointwise.
  - intros ob key r H. done.
  - intros a b c H1 H2 key r H. apply H1, H2, H.
  - intros ob i _ _ key r H. done.
  - intros ob key r0 _ key' r. rewrite listeners_set_listeners.
    destruct (decide (key = key')) as [-> | ]; [|done].
    apply remove_first_subset.
Qed.

Lemma cascade_relays_valid allowed w w' :
  cascade allowed w w' -> relays_valid w -> relays_valid w'.
Proof.
  intros [Hlen H]%cascade_shrinks Hv i ob' key r fn target Hob' Hr Hl.
  destruct (lookup_lt_is_Some_2 (store w) i) as [ob Hob].
  { rewrite <- Hlen. by eapply lookup_lt_Some. }
  destruct (H i ob Hob) as (ob2 & Hob2 & Hsh).
  rewrite Hob' in Hob2. injection Hob2 as <-.
  rewrite Hlen. eapply Hv; [exact Hob| |exact Hl]. by apply Hsh.
Qed.

Lemma update_relays_valid s f w :
  relays_valid w ->
  (forall ob key r fn target,
     r ∈ Observer.listeners key (f ob) ->
     listener r = Bubble fn target ->
     r ∈ Observer.listeners key ob \/
     (key = EmitEvent_key /\ target < length (store w))) ->
  relays_valid (update s f w).
Proof.
  intros Hv Hf i ob' key r fn target Hob' Hr Hl.
  rewrite length_update. rewrite lookup_update in Hob'.
  destruct (decide (s = i)) as [-> | Hne]; [|by eapply Hv].
  destruct (store w !! i) as [ob|] eqn:Hob; [|done].
  simpl in Hob'. injection Hob' as <-.
  destruct (Hf ob key r fn target Hr Hl) as [Hin|Hnew]; [|done].
  by eapply Hv.
Qed.

Lemma register_relays key l once prepend ob key' r :
  r ∈ Observer.listeners key' (Observer.register key l once prepend ob) ->
  r ∈ Observer.listeners key' ob \/
  (key' = key /\ r = {| listener := l; runOnce := once |}).
Proof.
  unfold Observer.register. rewrite listeners_set_listeners.
  destruct (decide (key = key')) as [-> | ]; [|by left].
  destruct prepend.
  - intros [-> | H]%elem_of_cons; auto.
  - intros [H | ->%list_elem_of_singleton]%elem_of_app; auto.
Qed.

Lemma unregister_shrinks key l ob : shrinks ob (Observer.unregister key l ob).
Proof.
  intros key' r. unfold Observer.unregister.
  destruct (internalEmitter ob !! key) as [regs|] eqn:Hk; [|done].
  rewrite listeners_set_listeners.
  destruct (decide (key = key')) as [-> | ]; [|done].
  intros H%remove_first_subset. unfold Observer.listeners. by rewrite Hk.
Qed.

Lemma removeAllListeners_shrinks ev ob :
  shrinks ob (Observer.removeAllListeners ev ob).
Proof.
  intros key r. destruct ev as [ev|]; unfold Observer.listeners; simpl.
  - destruct (decide (getRegisterableEventName ev = key)) as [-> | Hne].
    + rewrite lookup_delete_eq. simpl. by intros ?%elem_of_nil.
    + by rewrite lookup_delete_ne.
  - rewrite lookup_empty. simpl. by intros ?%elem_of_nil.
Qed.

Lemma update_shrinks_valid s f w :
  relays_valid w -> (forall ob, shrinks ob (f ob)) ->
  relays_valid (update s f w).
Proof.
  intros Hv Hf. apply update_relays_valid; [done|].
  intros ob key r fn target Hr _. left. by apply Hf.
Qed.

Lemma update_callback_valid s key fn once prepend w :
  relays_valid w ->
  relays_valid
    (update s (Observer.register key (Callback fn) once prepend) w).
Proof.
  intros Hv. apply update_relays_valid; [done|].
  intros ob key' r fn' target Hr Hl.
  apply register_relays in Hr as [Hr|[_ ->]]; [by left|done].
Qed.

Lemma update_bubble_valid s fn target w :
  relays_valid w -> target < length (store w) ->
  relays_valid
    (update s (Observer.on (ByClass EmitEvent) (Bubble fn target)) w).
Proof.
  intros Hv Ht. apply update_relays_valid; [done|].
  intros ob key' r fn' target' Hr Hl.
  apply register_relays in Hr as [Hr|[-> ->]]; [by left|].
  right. simpl in Hl. injection Hl as _ <-. done.
Qed.

Lemma unbind_relays_valid s r w : relays_valid w -> relays_valid (unbind s r w).
Proof.
  intros Hv. unfold unbind.
  destruct (store w !! s ≫= fun ob => relays ob !! r) as [entry|]; [|done].
  apply update_shrinks_valid; [|by intros ob key r0].
  destruct (includes _ RelayFrom), (includes _ RelayTo);
    repeat (apply update_shrinks_valid;
            [|intros ob; apply unregister_shrinks]); done.
Qed.

Lemma bind_relays_valid s r flags w :
  relays_valid w -> relays_valid (bind s r flags w).
Proof.
  intros Hv. unfold bind.
  destruct (store w !! s) as [obs|] eqn:Hs; [|done].
  destruct (store w !! r) as [obr|] eqn:Hr; [|done].
  apply lookup_lt_Some in Hs, Hr.
  pose proof (unbind_relays_valid s r w Hv) as Hv0.
  pose proof (length_unbind s r w) as Hlen.
  simpl.
  set (w2 := mkWorld (store (unbind s r w)) _ _ _).
  assert (Hv2 : relays_valid w2) by exact Hv0.
  assert (Hl2 : length (store w2) = length (store w)) by exact Hlen.
  apply update_shrinks_valid; [|by intros ob key r0].
  destruct (includes _ RelayFrom), (includes _ RelayTo).
  - apply update_bubble_valid; [apply update_bubble_valid|]; try done;
      rewrite ?length_update; lia.
  - apply update_bubble_valid; [done|lia].
  - apply update_bubble_valid; [done|lia].
  - done.
Qed.

Lemma apply_op_relays_valid op w w' :
  relays_valid w -> apply_op op w = Some w' -> relays_valid w'.
Proof.
  intros Hv. destruct op; simpl;
    try (intros [= <-]; by apply update_callback_valid).
  - intros [= <-]. intros i ob key r fn target Hob Hr Hl. simpl in *.
    rewrite length_app. simpl.
    apply lookup_app_Some in Hob as [Hob|[_ Hob]].
    + destruct (Hv i ob key r fn target Hob Hr Hl). split; [done|lia].
    + apply list_lookup_singleton_Some in Hob as [_ <-].
      unfold Observer.listeners in Hr. simpl in Hr.
      rewrite lookup_empty in Hr. by apply elem_of_nil in Hr.
  - intros [= <-]. apply update_shrinks_valid; [done|]. by intros ob key r.
  - intros [= <-]. apply update_shrinks_valid; [done|]. by intros ob key r.
  - intros [= <-]. apply update_shrinks_valid; [done|].
    intros ob. apply unregister_shrinks.
  - intros [= <-]. apply update_shrinks_valid; [done|].
    intros ob. apply removeAllListeners_shrinks.
  - intros H. apply apply_op_emit in H.
    eapply cascade_relays_valid; [|done].
    eapply (emit_cascade (fun _ => True)); [|done]. done.
  - intros [= <-]. by apply bind_relays_valid.
  - intros [= <-]. by apply unbind_relays_valid.
Qed.

Lemma run_relays_valid ops :
  forall w w', relays_valid w -> run ops w = Some w' -> relays_valid w'.
Proof.
  induction ops as [|op ops IH]; intros w w' Hv; simpl.
  - by intros [= <-].
  - destruct (apply_op op w) as [w2|] eqn:H2; [|done].
    apply IH. by eapply apply_op_relays_valid.
Qed.

Lemma reachable_relays_valid w : reachable w -> relays_valid w.
Proof.
  intros (g & ops & Hrun).
  apply (run_relays_valid ops (emptyWorld g)); [|done].
  intros i ob key r fn target Hob. done.
Qed.

Lemma relays_valid_same_store w w' :
  store w' = store w -> relays_valid w -> relays_valid w'.
Proof. intros Hs Hv i ob key r fn target. rewrite Hs. apply Hv. Qed.

Lemma andThen_returns {A B} (x : Outcome A) (k : A -> World -> Outcome B) :
  returns x ->
  (forall a w1, x = Done a w1 -> returns (k a w1)) ->
  returns (andThen x k).
Proof.
  intros (a & w1 & ->) Hk. simpl. by apply Hk.
Qed.

Section PlainReturns.

Variable e : Event.
Hypothesis e_plain : emitted e = None.

Variable emit_rec : World -> ObsId -> Event -> Outcome bool.
Variable budget : nat.

Hypothesis rec_cascade :
  forall w target e0 w',
    (forall i, i ∈ nested_ids e0 -> i = id e) ->
    final (emit_rec w target e0) = Some w' ->
    cascade (fun i => i = id e) w w'.

Hypothesis rec_returns :
  forall w target,
    relays_valid w -> target < length (store w) ->
    uncached e w < budget -> returns (emit_rec w target e).

Lemma call_listener_returns self l ev w :
  carries e ev -> relays_valid w ->
  (forall fn target,
     l = Bubble fn target ->
     is_Some (emitted ev) /\ target < length (store w)) ->
  uncached e w < budget ->
  returns (call_listener emit_rec self l ev w).
Proof.
  intros Hev Hv Hl Hlt. destruct l as [fn|fn target]; simpl.
  { by eexists _, _. }
  destruct (Hl fn target eq_refl) as [[x Hx] Ht].
  rewrite Hx. rewrite (Hev x Hx).
  apply andThen_returns.
  - apply rec_returns; [|done|done].
    by apply (relays_valid_same_store w).
  - intros a w1 _. by eexists _, _.
Qed.

Lemma run_listeners_returns self key ev snapshot :
  carries e ev ->
  forall w,
    relays_valid w -> self < length (store w) ->
    safe_for ev (length (store w)) snapshot ->
    uncached e w < budget ->
    returns (run_listeners emit_rec self key snapshot ev w).
Proof.
  intros Hev. induction snapshot as [|r rest IH]; intros w Hv Hself Hsafe Hlt;
    simpl.
  { by eexists _, _. }
  assert (Hrest : safe_for ev (length (store w)) rest).
  { intros r0 fn target Hin. apply Hsafe. by right. }
  assert (Hcont : forall w0,
    cascade (fun i => i = id e) w w0 ->
    returns
      (andThen (call_listener emit_rec self (listener r) ev w0)
         (fun _ w1 =>
            andThen (run_listeners emit_rec self key rest ev w1)
                    (fun _ w2 => Done true w2)))).
  { intros w0 Hc0.
    pose proof (cascade_relays_valid _ _ _ Hc0 Hv) as Hv0.
    pose proof (cascade_uncached e _ _ Hc0) as Hu0.
    apply cascade_shrinks in Hc0 as [Hlen0 _].
    apply andThen_returns.
    - apply call_listener_returns; [done|done| |lia].
      intros fn target Hl. rewrite Hlen0. eapply Hsafe; [by left|done].
    - intros a w1 H1.
      assert (cascade (fun i => i = id e) w0 w1) as Hc.
      { eapply call_listener_cascade;
          [apply rec_cascade|by apply carries_allowed|].
        rewrite H1. done. }
      pose proof (cascade_relays_valid _ _ _ Hc Hv0) as Hv1.
      pose proof (cascade_uncached e _ _ Hc) as Hu1.
      apply cascade_shrinks in Hc as [Hlen1 _].
      apply andThen_returns; [|intros b w2 _; by eexists _, _].
      apply IH; [done|lia| |lia].
      by rewrite Hlen1, Hlen0. }
  destruct (runOnce r) eqn:Honce.
  - destruct (lookup_lt_is_Some_2 (store w) self Hself) as [ob Hob].
    rewrite Hob.
    case_bool_decide as Hmem; [|by apply IH].
    apply Hcont. apply rtc_once. by eapply step_once.
  - apply Hcont. apply rtc_refl.
Qed.

Lemma dispatch_returns self ev w :
  carries e ev -> relays_valid w -> self < length (store w) ->
  (getRegisterableEventName (ByInstance ev) = EmitEvent_key ->
   is_Some (emitted ev)) ->
  uncached e w < budget ->
  returns (dispatch emit_rec self ev w).
Proof.
  intros Hev Hv Hself Hkey Hlt. unfold dispatch.
  destruct (lookup_lt_is_Some_2 (store w) self Hself) as [ob Hob].
  rewrite Hob. apply run_listeners_returns; try done.
  intros r fn target Hr Hl.
  destruct (Hv self ob _ r fn target Hob Hr Hl) as [Hk Ht]. auto.
Qed.

Lemma emit_body_returns self w :
  getRegisterableEventName (ByInstance e) <> EmitEvent_key ->
  relays_valid w -> self < length (store w) ->
  uncached e w < S budget ->
  returns (emit_body emit_rec self e w).
Proof.
  intros Hkey Hv Hself Hlt. unfold emit_body.
  destruct (lookup_lt_is_Some_2 (store w) self Hself) as [ob Hob].
  rewrite Hob.
  unfold cache_contains. case_bool_decide as Hin; [by eexists _, _|].
  pose proof (unseen_gate e (fun _ => 1) self ob w Hob Hin) as Hgate.
  cbv beta in Hgate. fold (uncached e w) in Hgate.
  assert (Hc1 : cascade (fun i => i = id e) w
            (put self
               (with_cache
                  (cache_insert (idCacheLimit ob) (id e) (idCache ob)) ob)
               w)).
  { apply rtc_once. by eapply (step_cache _ self ob (id e)). }
  set (w1 := put self _ w) in *.
  fold (uncached e w1) in Hgate.
  pose proof (cascade_relays_valid _ _ _ Hc1 Hv) as Hv1.
  apply cascade_shrinks in Hc1 as [Hlen1 _].
  apply andThen_returns.
  { apply dispatch_returns; [apply carries_plain; done|done|lia|done|lia]. }
  intros ret w2 H2.
  assert (cascade (fun i => i = id e) w1 w2) as Hc.
  { eapply dispatch_plain_cascade; [done|apply rec_cascade|
                                    by apply carries_plain|].
    by rewrite H2. }
  pose proof (cascade_relays_valid _ _ _ Hc Hv1) as Hv2.
  pose proof (cascade_uncached e _ _ Hc) as Hu2.
  apply cascade_shrinks in Hc as [Hlen2 _].
  destruct (EmitEvent_new e (guids w2)) as [invoked g'] eqn:Hnew.
  apply andThen_returns; [|intros b w4 _; by eexists _, _].
  apply dispatch_returns.
  - replace invoked with (fst (EmitEvent_new e (guids w2)))
      by (by rewrite Hnew).
    apply carries_EmitEvent.
  - by apply (relays_valid_same_store w2).
  - simpl. lia.
  - intros _. unfold EmitEvent_new, Event_new in Hnew. simpl in Hnew.
    injection Hnew as <- _. simpl. eauto.
  - unfold uncached in *. simpl. lia.
Qed.

End PlainReturns.

Lemma emit_returns e :
  emitted e = None ->
  getRegisterableEventName (ByInstance e) <> EmitEvent_key ->
  forall fuel w self,
    relays_valid w -> self < length (store w) ->
    uncached e w < fuel -> returns (emit fuel w self e).
Proof.
  intros He Hkey. induction fuel as [|fuel IH]; intros w self Hv Hs Hlt; [lia|].
  simpl. apply (emit_body_returns e He (emit fuel) fuel); try done.
  intros w0 target e0 w0' H0. by apply emit_cascade.
Qed.

(** A series of emits, each given a budget above the number of observers,
    completes. *)
Lemma run_emits_total fuel self es :
  Forall (fun e => emitted e = None) es ->
  forall w,
    length (store w) < fuel ->
    is_Some (run (OpEmit fuel self <$> es) w).
Proof.
  induction 1 as [|e es He _ IH]; intros w Hlt; simpl; [eauto|].
  pose proof (uncached_le_length e w) as Hle.
  destruct (emit_total e He fuel w self) as [w1 H1]; [lia|].
  assert (Hop : apply_op (OpEmit fuel self e) w = Some w1).
  { simpl. by destruct (emit fuel w self e). }
  cbn [apply_op] in Hop |- *. rewrite Hop.
  apply IH. apply emit_any in H1 as [Hlen _]. lia.
Qed.

(* ===================================================================== *)
(** * The capacity of the cache                                           *)
(* ===================================================================== *)

Lemma update_Forall (P : EventObserver -> Prop) s f w :
  (forall ob, P ob -> P (f ob)) ->
  Forall P (store w) -> Forall P (store (update s f w)).
Proof.
  intros Hf Hall. unfold update.
  destruct (store w !! s) as [ob|] eqn:Hs; [|done]. simpl.
  apply Forall_insert; [done|]. apply Hf.
  by eapply Forall_lookup_1.
Qed.

Lemma keeps_cache_bounded f :
  keeps_cache f -> forall ob, cache_bounded ob -> cache_bounded (f ob).
Proof.
  intros Hf ob Hb. unfold cache_bounded, Observer.getIdCacheSize in *.
  destruct (Hf ob) as [-> ->]. done.
Qed.

Lemma keeps_cache_register key l once prepend :
  keeps_cache (Observer.register key l once prepend).
Proof. intros ob. done. Qed.

Lemma keeps_cache_unregister key l : keeps_cache (Observer.unregister key l).
Proof.
  intros ob. unfold Observer.unregister.
  by destruct (internalEmitter ob !! key).
Qed.

Lemma unbind_bounded s r w :
  Forall cache_bounded (store w) -> Forall cache_bounded (store (unbind s r w)).
Proof.
  intros H. unfold unbind.
  destruct (store w !! s ≫= fun ob => relays ob !! r) as [entry|]; [|done].
  apply update_Forall; [by apply keeps_cache_bounded|].
  destruct (includes _ RelayFrom), (includes _ RelayTo);
    repeat (apply update_Forall;
            [apply keeps_cache_bounded, keeps_cache_unregister|]); done.
Qed.

Lemma bind_bounded s r flags w :
  Forall cache_bounded (store w) ->
  Forall cache_bounded (store (bind s r flags w)).
Proof.
  intros H. unfold bind.
  destruct (store w !! s), (store w !! r); try done. simpl.
  apply update_Forall; [by apply keeps_cache_bounded|].
  pose proof (unbind_bounded s r w H) as H0.
  destruct (includes _ RelayFrom), (includes _ RelayTo);
    repeat (apply update_Forall;
            [apply keeps_cache_bounded, keeps_cache_register|]); done.
Qed.

Lemma apply_op_bounded op w w' :
  Forall cache_bounded (store w) ->
  apply_op op w = Some w' ->
  Forall cache_bounded (store w').
Proof.
  intros Hall.
  destruct op; simpl;
    try (intros [= <-]; apply update_Forall; [|done];
         first [ apply keeps_cache_bounded, keeps_cache_register
               | apply keeps_cache_bounded, keeps_cache_unregister ]).
  - intros [= <-]. simpl. apply Forall_app. split; [done|].
    apply Forall_singleton.
    unfold cache_bounded, Observer.getIdCacheSize. simpl. lia.
  - intros [= <-]. apply update_Forall; [|done]. intros ob _.
    unfold cache_bounded, Observer.getIdCacheSize. simpl. intros Hpos.
    pose proof (cache_evict_length limit (idCache ob) Hpos). lia.
  - intros [= <-]. apply update_Forall; [|done]. intros ob _.
    unfold cache_bounded, Observer.getIdCacheSize. simpl. lia.
  - intros [= <-]. apply update_Forall; [|done].
    apply keeps_cache_bounded. intros ob. by destruct event.
  - intros H. apply apply_op_emit, emit_any in H as [Hlen H].
    apply Forall_lookup_2. intros i ob' Hob'.
    destruct (lookup_lt_is_Some_2 (store w) i) as [ob Hob].
    { rewrite <- Hlen. by eapply lookup_lt_Some. }
    destruct (H i ob Hob) as (ob2 & Hob2 & _ & _ & _ & Hb).
    rewrite Hob' in Hob2. injection Hob2 as <-.
    apply Hb. by eapply Forall_lookup_1.
  - intros [= <-]. by apply bind_bounded.
  - intros [= <-]. by apply unbind_bounded.
Qed.

Lemma run_bounded ops :
  forall w w',
    Forall cache_bounded (store w) ->
    run ops w = Some w' ->
    Forall cache_bounded (store w').
Proof.
  induction ops as [|op ops IH]; intros w w' Hall; simpl.
  - by intros [= <-].
  - destruct (apply_op op w) as [w1|] eqn:H1; [|done].
    apply IH. by eapply apply_op_bounded.
Qed.

(** When the cache is full the insertion evicts the oldest id, and only
    that one. *)
Lemma cache_insert_full limit i cache :
  (0 < limit)%Z ->
  Z.of_nat (length cache) = limit ->
  cache_insert limit i cache = tail cache ++ [i].
Proof.
  intros Hpos Hlen. unfold cache_insert, cache_evict.
  destruct (Z.ltb_spec 0 limit); [|lia].
  rewrite length_app. simpl.
  replace (length cache + 1 - Z.to_nat limit) with 1 by lia.
  destruct cache; simpl in *; [lia|]. by rewrite drop_0.
Qed.

Lemma cache_insert_room limit i cache :
  (Z.of_nat (length cache) < limit)%Z ->
  cache_insert limit i cache = cache ++ [i].
Proof.
  intros Hlen. unfold cache_insert. apply cache_evict_fits.
  rewrite length_app. simpl. lia.
Qed.

Lemma cache_insert_evict limit i cache :
  (0 < limit)%Z ->
  cache_insert limit i (cache_evict limit cache)
  = cache_evict limit (cache ++ [i]).
Proof.
  intros Hpos. unfold cache_insert, cache_evict.
  destruct (Z.ltb_spec 0 limit); [|lia].
  rewrite !length_app, length_drop. simpl.
  destruct (decide (length cache <= Z.to_nat limit)) as [Hle|Hgt].
  - replace (length cache - Z.to_nat limit) with 0 by lia.
    rewrite drop_0. f_equal. lia.
  - replace (length cache - (length cache - Z.to_nat limit) + 1
             - Z.to_nat limit) with 1 by lia.
    replace (length cache + 1 - Z.to_nat limit)
      with ((length cache - Z.to_nat limit) + 1) by lia.
    rewrite <- drop_drop. rewrite (drop_app_le cache [i]) by lia. done.
Qed.

Lemma gate_all_cons limit cache i ids :
  gate_all limit cache (i :: ids)
  = gate_all limit
      (if cache_contains i cache then cache else cache_insert limit i cache)
      ids.
Proof. reflexivity. Qed.

Lemma gate_all_fresh limit ids :
  (0 < limit)%Z ->
  forall cache,
    NoDup ids ->
    (forall i, i ∈ ids -> i ∉ cache) ->
    gate_all limit (cache_evict limit cache) ids
    = cache_evict limit (cache ++ ids).
Proof.
  intros Hpos. induction ids as [|i ids IH]; intros cache Hnd Hfresh.
  - by rewrite app_nil_r.
  - apply NoDup_cons in Hnd as [Hi Hnd]. rewrite gate_all_cons.
    unfold cache_contains. rewrite bool_decide_eq_false_2.
    2: { intros Hin%cache_evict_subset. eapply Hfresh; [left|done]. }
    rewrite cache_insert_evict by done.
    rewrite IH; [by rewrite <- app_assoc|done|].
    intros j Hj [Hin|Hin%list_elem_of_singleton]%elem_of_app.
    + eapply Hfresh; [right|]; done.
    + by subst.
Qed.

(** A run of emits of events that wrap nothing, seen from the cache of
    the emitting observer. *)
Lemma run_emits_plain fuel self es :
  Forall (fun e => emitted e = None) es ->
  forall w ob w',
    store w !! self = Some ob ->
    run (OpEmit fuel self <$> es) w = Some w' ->
    exists ob',
      store w' !! self = Some ob' /\
      idCacheLimit ob' = idCacheLimit ob /\
      idCache ob' = gate_all (idCacheLimit ob) (idCache ob) (id <$> es).
Proof.
  induction 1 as [|e es He _ IH]; intros w ob w' Hob.
  - simpl. intros [= <-]. eauto.
  - rewrite !fmap_cons. cbn [run apply_op].
    destruct (emit fuel w self e) as [r w1|w1|] eqn:Hemit; [| |done].
    + destruct (emit_plain_self fuel w self ob e w1 He Hob)
        as (ob1 & Hob1 & HL & HC); [by rewrite Hemit|].
      intros Hrun. destruct (IH w1 ob1 w' Hob1 Hrun) as (ob' & ? & ? & HC').
      exists ob'. split; [done|]. split; [congruence|].
      rewrite gate_all_cons, HC', HC, HL. done.
    + destruct (emit_plain_self fuel w self ob e w1 He Hob)
        as (ob1 & Hob1 & HL & HC); [by rewrite Hemit|].
      intros Hrun. destruct (IH w1 ob1 w' Hob1 Hrun) as (ob' & ? & ? & HC').
      exists ob'. split; [done|]. split; [congruence|].
      rewrite gate_all_cons, HC', HC, HL. done.
Qed.




(* ===================================================================== *)
(** * More budget never changes a result                                  *)
(* ===================================================================== *)

Lemma refines_refl {A} (x : Outcome A) : refines x x.
Proof. by right. Qed.

Lemma refines_trans {A} (x y z : Outcome A) :
  refines x y -> refines y z -> refines x z.
Proof. intros [-> | ->] [-> | ->]; by (left + right). Qed.

Lemma refines_andThen {A B} (x y : Outcome A)
  (k k' : A -> World -> Outcome B) :
  refines x y ->
  (forall a w, refines (k a w) (k' a w)) ->
  refines (andThen x k) (andThen y k').
Proof.
  intros [-> | ->] Hk; [by left|].
  destruct y as [a w|w|]; simpl; [apply Hk|by right|by left].
Qed.

Section Monotone.

Variables emit_rec emit_rec' : World -> ObsId -> Event -> Outcome bool.

Hypothesis rec_refines :
  forall w target e, refines (emit_rec w target e) (emit_rec' w target e).

Lemma call_listener_refines self l ev w :
  refines (call_listener emit_rec self l ev w)
          (call_listener emit_rec' self l ev w).
Proof.
  destruct l as [fn|fn target]; simpl; [apply refines_refl|].
  destruct (emitted ev); [|apply refines_refl].
  apply refines_andThen; [apply rec_refines|].
  intros. apply refines_refl.
Qed.

Lemma run_listeners_refines self key ev snapshot :
  forall w,
    refines (run_listeners emit_rec self key snapshot ev w)
            (run_listeners emit_rec' self key snapshot ev w).
Proof.
  induction snapshot as [|r rest IH]; intros w; simpl.
  { apply refines_refl. }
  assert (Hcont : forall w0,
    refines
      (andThen (call_listener emit_rec self (listener r) ev w0)
         (fun _ w1 =>
            andThen (run_listeners emit_rec self key rest ev w1)
                    (fun _ w2 => Done true w2)))
      (andThen (call_listener emit_rec' self (listener r) ev w0)
         (fun _ w1 =>
            andThen (run_listeners emit_rec' self key rest ev w1)
                    (fun _ w2 => Done true w2)))).
  { intros w0. apply refines_andThen; [apply call_listener_refines|].
    intros _ w1. apply refines_andThen; [apply IH|].
    intros. apply refines_refl. }
  destruct (runOnce r); [|apply Hcont].
  destruct (store w !! self); [|apply refines_refl].
  case_bool_decide; [apply Hcont|apply IH].
Qed.

Lemma dispatch_refines self ev w :
  refines (dispatch emit_rec self ev w) (dispatch emit_rec' self ev w).
Proof.
  unfold dispatch. destruct (store w !! self); [|apply refines_refl].
  apply run_listeners_refines.
Qed.

Lemma emit_body_refines self e w :
  refines (emit_body emit_rec self e w) (emit_body emit_rec' self e w).
Proof.
  unfold emit_body. destruct (store w !! self); [|apply refines_refl].
  destruct (cache_contains _ _); [apply refines_refl|].
  apply refines_andThen; [apply dispatch_refines|].
  intros ret w2. destruct (EmitEvent_new e (guids w2)) as [invoked g'].
  apply refines_andThen; [apply dispatch_refines|].
  intros. apply refines_refl.
Qed.

End Monotone.

Lemma emit_refines_S fuel :
  forall w self e, refines (emit fuel w self e) (emit (S fuel) w self e).
Proof.
  induction fuel as [|fuel IH]; intros w self e; [by left|].
  cbn [emit]. apply emit_body_refines. apply IH.
Qed.

Lemma emit_refines fuel fuel' w self e :
  fuel <= fuel' -> refines (emit fuel w self e) (emit fuel' w self e).
Proof.
  induction 1 as [|m _ IH]; [apply refines_refl|].
  eapply refines_trans; [exact IH|apply emit_refines_S].
Qed.

(** A result obtained with some budget is the result with any budget,
    unless the budget is too small. *)
Lemma emit_result fuel0 fuel w self e (r : Outcome bool) :
  emit fuel0 w self e = r ->
  r <> OutOfFuel ->
  emit fuel w self e = OutOfFuel \/ emit fuel w self e = r.
Proof.
  intros H0 Hr.
  destruct (emit_refines fuel0 (max fuel0 fuel) w self e) as [H|H]; [lia| |].
  { congruence. }
  destruct (emit_refines fuel (max fuel0 fuel) w self e) as [H'|H']; [lia| |].
  - by left.
  - right. congruence.
Qed.

(* ===================================================================== *)
(** * An echo that never ends                                             *)
(* ===================================================================== *)

Lemma emit_body_open F self e w ob :
  store w !! self = Some ob ->
  id e ∉ idCache ob ->
  emit_body F self e w
  = andThen
      (dispatch F self e
         (put self
            (with_cache (cache_insert (idCacheLimit ob) (id e) (idCache ob))
               ob) w))
      (fun ret w2 =>
         andThen
           (dispatch F self (fst (EmitEvent_new e (guids w2)))
              (wrap_world self e w2))
           (fun _ w4 => Done ret w4)).
Proof.
  intros Hob Hin. unfold emit_body. rewrite Hob. unfold cache_contains.
  rewrite bool_decide_eq_false_2 by done. reflexivity.
Qed.

Lemma dispatch_no_listener F self ev w ob :
  store w !! self = Some ob ->
  Observer.listeners (getRegisterableEventName (ByInstance ev)) ob = [] ->
  dispatch F self ev w = Done false w.
Proof. intros Hob Hl. unfold dispatch. rewrite Hob, Hl. done. Qed.

Lemma dispatch_one_relay F self ev x w ob fn target :
  store w !! self = Some ob ->
  Observer.listeners (getRegisterableEventName (ByInstance ev)) ob
  = [{| listener := Bubble fn target; runOnce := false |}] ->
  emitted ev = Some x ->
  dispatch F self ev w
  = andThen (F (log (Relayed self target x) w) target x)
            (fun _ w' => Done true w').
Proof.
  intros Hob Hl Hx. unfold dispatch. rewrite Hob, Hl. simpl. rewrite Hx.
  by destruct (F _ _ _).
Qed.

Lemma cache_insert_one i cache :
  length cache <= 1 -> cache_insert 1 i cache = [i].
Proof.
  intros H. destruct cache as [|j [|k cache]]; simpl in *; [done|done|lia].
Qed.

Lemma echo_pair_put s self ob c :
  echo_pair s -> s !! self = Some ob ->
  echo_pair (<[self := with_cache c ob]> s) /\
  cache_of (<[self := with_cache c ob]> s) self = c /\
  forall i, i <> self -> cache_of (<[self := with_cache c ob]> s) i = cache_of s i.
Proof.
  intros [Hlen Hs] Hob. split; [split|split].
  - by rewrite length_insert.
  - intros i ob' Hi.
    apply list_lookup_insert_Some in Hi as [(Heq & Hx & _)|(Hne & Hi)].
    + subst i ob'. simpl.
      destruct (Hs self ob Hob) as [HL [fn Hfn]]. split; [done|].
      exists fn. intros key. rewrite <- Hfn. done.
    + by apply Hs.
  - unfold cache_of. rewrite list_lookup_insert_eq; [done|].
    by eapply lookup_lt_Some.
  - intros i Hne. unfold cache_of. by rewrite list_lookup_insert_ne.
Qed.

Lemma echo_pair_lookup s self :
  echo_pair s -> self < 2 ->
  exists ob, s !! self = Some ob /\ idCache ob = cache_of s self /\
             idCacheLimit ob = 1%Z /\ relay_only (1 - self) ob.
Proof.
  intros [Hlen Hs] Hself.
  destruct (lookup_lt_is_Some_2 s self) as [ob Hob]; [lia|].
  exists ob. unfold cache_of. rewrite Hob. destruct (Hs self ob Hob). auto.
Qed.

Section Echo.

(** An event [p] that wraps nothing and is not dispatched under the
    EmitEvent key, and an EmitEvent [W] that wraps it. *)
Variables p W : Event.
Hypothesis p_plain : emitted p = None.
Hypothesis p_key : getRegisterableEventName (ByInstance p) <> EmitEvent_key.
Hypothesis W_wraps : emitted W = Some p.
Hypothesis W_key : getRegisterableEventName (ByInstance W) = EmitEvent_key.
Hypothesis ids_differ : id p <> id W.

Section Body.

Variable F : World -> ObsId -> Event -> Outcome bool.

(** The dispatch of the EmitEvent that wraps [e]: one relay call. *)
Lemma wrapper_dispatch self e w :
  echo_pair (store w) -> self < 2 ->
  dispatch F self (fst (EmitEvent_new e (guids w))) (wrap_world self e w)
  = andThen
      (F (log (Relayed self (1 - self) e) (wrap_world self e w)) (1 - self) e)
      (fun _ w' => Done true w').
Proof.
  intros Hs Hself.
  destruct (echo_pair_lookup _ self Hs Hself) as (ob & Hob & _ & _ & fn & Hfn).
  apply (dispatch_one_relay F self _ e _ ob fn); [done| |done].
  rewrite Hfn. by destruct (decide _).
Qed.

(** [emit(p)] on an observer of the pair that has not seen [p]. *)
Lemma emit_body_p self w :
  echo_pair (store w) -> self < 2 ->
  id p ∉ cache_of (store w) self ->
  length (cache_of (store w) self) <= 1 ->
  exists w1,
    echo_pair (store w1) /\
    cache_of (store w1) self = [id p] /\
    cache_of (store w1) (1 - self) = cache_of (store w) (1 - self) /\
    emit_body F self p w
    = andThen (F w1 (1 - self) p) (fun _ w4 => Done false w4).
Proof.
  intros Hs Hself Hin Hlen.
  destruct (echo_pair_lookup _ self Hs Hself) as (ob & Hob & Hc & HL & fn & Hfn).
  rewrite <- Hc in Hin, Hlen.
  rewrite (emit_body_open F self p w ob Hob Hin).
  rewrite HL, cache_insert_one by done.
  set (w1 := put self (with_cache [id p] ob) w).
  destruct (echo_pair_put (store w) self ob [id p] Hs Hob) as (Hs1 & Hc1 & Ho1).
  assert (Hob1 : store w1 !! self = Some (with_cache [id p] ob)).
  { simpl. apply list_lookup_insert_eq. by eapply lookup_lt_Some. }
  rewrite (dispatch_no_listener F self p w1 _ Hob1).
  2: { change (Observer.listeners ?k (with_cache _ ob))
         with (Observer.listeners k ob).
       rewrite Hfn. by destruct (decide _). }
  cbn [andThen].
  rewrite (wrapper_dispatch self p w1 Hs1 Hself).
  exists (log (Relayed self (1 - self) p) (wrap_world self p w1)).
  split; [exact Hs1|]. split; [exact Hc1|]. split; [apply Ho1; lia|].
  by destruct (F _ _ _).
Qed.

(** [emit(W)] on an observer of the pair that has not seen [W]: a relay
    call with [p], whose result decides how the emit goes on. *)
Lemma emit_body_W self w :
  echo_pair (store w) -> self < 2 ->
  id W ∉ cache_of (store w) self ->
  length (cache_of (store w) self) <= 1 ->
  exists w1,
    echo_pair (store w1) /\
    cache_of (store w1) self = [id W] /\
    cache_of (store w1) (1 - self) = cache_of (store w) (1 - self) /\
    emit_body F self W w
    = andThen (F w1 (1 - self) p)
        (fun _ w2 =>
           andThen
             (dispatch F self (fst (EmitEvent_new W (guids w2)))
                (wrap_world self W w2))
             (fun _ w4 => Done true w4)).
Proof.
  intros Hs Hself Hin Hlen.
  destruct (echo_pair_lookup _ self Hs Hself) as (ob & Hob & Hc & HL & fn & Hfn).
  rewrite <- Hc in Hin, Hlen.
  rewrite (emit_body_open F self W w ob Hob Hin).
  rewrite HL, cache_insert_one by done.
  set (w1 := put self (with_cache [id W] ob) w).
  destruct (echo_pair_put (store w) self ob [id W] Hs Hob) as (Hs1 & Hc1 & Ho1).
  assert (Hob1 : store w1 !! self = Some (with_cache [id W] ob)).
  { simpl. apply list_lookup_insert_eq. by eapply lookup_lt_Some. }
  rewrite (dispatch_one_relay F self W p w1 _ fn (1 - self) Hob1); [| |done].
  2: { change (Observer.listeners ?k (with_cache _ ob))
         with (Observer.listeners k ob).
       rewrite Hfn, W_key. by destruct (decide _). }
  exists (log (Relayed self (1 - self) p) w1).
  split; [exact Hs1|]. split; [exact Hc1|]. split; [apply Ho1; lia|].
  by destruct (F _ _ _).
Qed.

End Body.

Lemma notin_single (i j : N) : i <> j -> i ∉ [j].
Proof. intros Hne Hin. by apply list_elem_of_singleton in Hin. Qed.

Lemma in_single (i : N) : i ∈ [i].
Proof. left. Qed.

Lemma echo_pair_cached s i c :
  echo_pair s -> i < 2 -> cache_of s i = c ->
  exists ob, s !! i = Some ob /\ idCache ob = c.
Proof.
  intros Hs Hi Hc.
  destruct (echo_pair_lookup s i Hs Hi) as (ob & Hob & Hcache & _).
  exists ob. split; [done|congruence].
Qed.

(** The relay of [p] into a pair where observer 0 holds only [W]: both
    observers end up holding only [p]. *)
Lemma relay_p_settles n w c :
  echo_pair (store w) ->
  cache_of (store w) 0 = [id W] ->
  cache_of (store w) 1 = c ->
  length c <= 1 -> id p ∉ c ->
  emit n w 1 p = OutOfFuel \/
  exists w',
    emit n w 1 p = Done false w' /\
    echo_pair (store w') /\
    cache_of (store w') 0 = [id p] /\
    cache_of (store w') 1 = [id p].
Proof.
  intros Hs H0 H1 Hlen Hin.
  destruct n as [|n]; [by left|]. cbn [emit].
  destruct (emit_body_p (emit n) 1 w Hs) as (w1 & Hs1 & Hc1 & Ho1 & ->);
    [lia|by rewrite H1|by rewrite H1|].
  change (1 - 1) with 0 in *.
  destruct n as [|n]; [by left|]. cbn [emit].
  destruct (emit_body_p (emit n) 0 w1 Hs1) as (w2 & Hs2 & Hc2 & Ho2 & ->);
    [lia|rewrite Ho1, H0; by apply notin_single|by rewrite Ho1, H0|].
  change (1 - 0) with 1 in *.
  destruct n as [|n]; [by left|].
  destruct (echo_pair_cached (store w2) 1 [id p] Hs2) as (ob & Hob & Hc);
    [lia|congruence|].
  rewrite (emit_suppressed n w2 1 ob p Hob); [|rewrite Hc; apply in_single].
  right. exists w2. cbn [andThen].
  split; [done|]. split; [done|]. split; [done|]. congruence.
Qed.

(** From then on every [emit(W)] relays [W] to the other observer, which
    has just lost [W]'s id to the echo of [p]. *)
Lemma echo_loop n :
  (forall w,
     echo_pair (store w) ->
     cache_of (store w) 0 = [id p] -> cache_of (store w) 1 = [id W] ->
     emit n w 0 W = OutOfFuel) /\
  (forall w,
     echo_pair (store w) ->
     cache_of (store w) 0 = [id p] -> cache_of (store w) 1 = [id p] ->
     emit n w 1 W = OutOfFuel).
Proof.
  induction n as [|n [IHA IHB]]; [done|]. split.
  - intros w Hs H0 H1. cbn [emit].
    destruct (emit_body_W (emit n) 0 w Hs) as (w1 & Hs1 & Hc1 & Ho1 & ->);
      [lia|rewrite H0; apply notin_single; congruence|by rewrite H0|].
    change (1 - 0) with 1 in *.
    destruct (relay_p_settles n w1 [id W] Hs1)
      as [->|(w2 & -> & Hs2 & Hc20 & Hc21)];
      [done|congruence|done|by apply notin_single|done|].
    cbn [andThen]. rewrite (wrapper_dispatch (emit n) 0 W w2 Hs2) by lia.
    rewrite IHB; done.
  - intros w Hs H0 H1. cbn [emit].
    destruct (emit_body_W (emit n) 1 w Hs) as (w1 & Hs1 & Hc1 & Ho1 & ->);
      [lia|rewrite H1; apply notin_single; congruence|by rewrite H1|].
    change (1 - 1) with 0 in *.
    destruct n as [|n]; [done|].
    destruct (echo_pair_cached (store w1) 0 [id p] Hs1) as (ob & Hob & Hc);
      [lia|congruence|].
    rewrite (emit_suppressed n w1 0 ob p Hob); [|rewrite Hc; apply in_single].
    cbn [andThen].
    rewrite (wrapper_dispatch (emit (S n)) 1 W w1 Hs1) by lia.
    change (1 - 1) with 0. rewrite IHA; simpl; (done || congruence).
Qed.

(** In a pair with empty caches, [emit(W)] never returns. *)
Lemma echo_diverges n w :
  echo_pair (store w) ->
  cache_of (store w) 0 = [] -> cache_of (store w) 1 = [] ->
  emit n w 0 W = OutOfFuel.
Proof.
  intros Hs H0 H1. destruct n as [|n]; [done|]. cbn [emit].
  destruct (emit_body_W (emit n) 0 w Hs) as (w1 & Hs1 & Hc1 & Ho1 & ->);
    [lia|rewrite H0; apply not_elem_of_nil|rewrite H0; simpl; lia|].
  change (1 - 0) with 1 in *.
  destruct (relay_p_settles n w1 [] Hs1)
    as [->|(w2 & -> & Hs2 & Hc20 & Hc21)];
    [done|congruence|simpl; lia|apply not_elem_of_nil|done|].
  cbn [andThen]. rewrite (wrapper_dispatch (emit n) 0 W w2 Hs2) by lia.
  by rewrite (proj2 (echo_loop n)).
Qed.

End Echo.

Lemma tight_store : store Scenario.tight = [pairA; pairB].
Proof. vm_compute. reflexivity. Qed.

Lemma relay_only_single fn target ob :
  internalEmitter ob
  = {[ EmitEvent_key := [{| listener := Bubble fn target; runOnce := false |}] ]} ->
  relay_only target ob.
Proof.
  intros Hm. exists fn. intros key. unfold Observer.listeners. rewrite Hm.
  destruct (decide (key = EmitEvent_key)) as [->|Hne].
  - by rewrite lookup_singleton_eq.
  - by rewrite lookup_singleton_ne.
Qed.

Lemma tight_echo_pair : echo_pair (store Scenario.tight).
Proof.
  rewrite tight_store. split; [reflexivity|].
  intros [|[|i]] ob Hob; [| |done].
  - injection Hob as <-. split; [reflexivity|].
    by apply (relay_only_single 0).
  - injection Hob as <-. split; [reflexivity|].
    by apply (relay_only_single 1).
Qed.


(* ===================================================================== *)
(** * Relaying terminates                                                 *)
(* ===================================================================== *)



(* ===================================================================== *)
(** * Calling the listeners                                               *)
(* ===================================================================== *)

Lemma remove_first_skip (r : Registration) (P rest : list Registration) :
  runOnce r = true ->
  Forall (fun r' => runOnce r' = false) P ->
  Observer.remove_first (fun r' => bool_decide (r' = r)) (P ++ r :: rest)
  = P ++ rest.
Proof.
  intros Hr. induction 1 as [|p P Hp _ IH]; simpl.
  - by rewrite bool_decide_eq_true_2.
  - rewrite bool_decide_eq_false_2; [by rewrite IH|].
    intros ->. congruence.
Qed.

Lemma stays_cons_once r l : runOnce r = true -> stays (r :: l) = stays l.
Proof.
  intros Hr. unfold stays. rewrite filter_cons.
  destruct (decide (runOnce r = false)); [congruence|done].
Qed.

Lemma stays_cons_keep r l :
  runOnce r = false -> stays (r :: l) = r :: stays l.
Proof.
  intros Hr. unfold stays. rewrite filter_cons.
  destruct (decide (runOnce r = false)); [done|congruence].
Qed.

Lemma Forall_stays l : Forall (fun r => runOnce r = false) (stays l).
Proof.
  unfold stays. apply Forall_forall. intros r Hr.
  by apply list_elem_of_filter in Hr as [Hr _].
Qed.

Lemma stays_all l : Forall (fun r => runOnce r = false) l -> stays l = l.
Proof.
  induction 1 as [|r l Hr _ IH]; [done|].
  by rewrite stays_cons_keep, IH.
Qed.

Lemma invocations_cons self ev r l fn :
  listener r = Callback fn ->
  invocations self ev (r :: l) = Invoked self fn ev :: invocations self ev l.
Proof.
  intros Hfn. unfold invocations. cbn [omap list_omap].
  unfold invocation at 1. by rewrite Hfn.
Qed.

Lemma invocations_length self ev l :
  Forall (fun r => is_bubble r = false) l ->
  length (invocations self ev l) = length l.
Proof.
  induction 1 as [|r l Hr _ IH]; [done|].
  unfold is_bubble in Hr. destruct (listener r) as [fn|] eqn:Hfn; [|done].
  rewrite (invocations_cons self ev r l fn Hfn). simpl. by rewrite IH.
Qed.

(** A dispatch to user functions only: each registration of the snapshot
    is called, in order; the "once" registrations leave the registry;
    nothing else changes and [emit] is not called. *)
Lemma run_listeners_callbacks emit_rec self key ev L :
  Forall (fun r => is_bubble r = false) L ->
  forall P w ob,
    Forall (fun r => runOnce r = false) P ->
    store w !! self = Some ob ->
    Observer.listeners key ob = P ++ L ->
    exists w' ob',
      run_listeners emit_rec self key L ev w
      = Done (bool_decide (L <> [])) w' /\
      trace w' = reverse (invocations self ev L) ++ trace w /\
      guids w' = guids w /\
      closures w' = closures w /\
      length (store w') = length (store w) /\
      (forall o, o <> self -> store w' !! o = store w !! o) /\
      store w' !! self = Some ob' /\
      Observer.listeners key ob' = P ++ stays L /\
      same_but_keys [key] ob ob'.
Proof.
  induction 1 as [|r rest Hr _ IH]; intros P w ob HP Hob HL.
  { exists w, ob. simpl. repeat split; try done. }
  assert (Hcall : exists fn, listener r = Callback fn).
  { unfold is_bubble in Hr. destruct (listener r); [eauto|done]. }
  destruct Hcall as [fn Hfn].
  rewrite (invocations_cons self ev r rest fn Hfn). rewrite reverse_cons, <- app_assoc. cbn [app].
  rewrite bool_decide_eq_true_2 by done.
  simpl. destruct (runOnce r) eqn:Honce.
  - rewrite Hob.
    rewrite bool_decide_eq_true_2.
    2: { rewrite HL. apply elem_of_app. right. left. }
    rewrite HL, remove_first_skip by done.
    rewrite Hfn. simpl.
    set (ob0 := Observer.set_listeners key (P ++ rest) ob).
    set (w0 := log (Invoked self fn ev) (put self ob0 w)).
    assert (Hob0 : store w0 !! self = Some ob0).
    { simpl. apply list_lookup_insert_eq. by eapply lookup_lt_Some. }
    destruct (IH P w0 ob0 HP Hob0) as (w' & ob' & Hrun & Htr & Hg & Hc & Hlen
                                       & Hother & Hself & Hlist & Hsame).
    { unfold ob0. rewrite listeners_set_listeners.
      by destruct (decide (key = key)). }
    exists w', ob'. rewrite Hrun. simpl.
    rewrite stays_cons_once by done.
    repeat split; try done.
    + rewrite Hlen. simpl. apply length_insert.
    + intros o Ho. rewrite Hother by done. simpl.
      by apply list_lookup_insert_ne.
    + by destruct Hsame as (-> & _).
    + by destruct Hsame as (_ & -> & _).
    + by destruct Hsame as (_ & _ & -> & _).
    + intros key' Hk. destruct Hsame as (_ & _ & _ & ->); [|done].
      unfold ob0. rewrite listeners_set_listeners.
      destruct (decide (key = key')) as [->|]; [|done].
      exfalso. apply Hk. left.
  - rewrite Hfn. simpl.
    set (w0 := log (Invoked self fn ev) w).
    destruct (IH (P ++ [r]) w0 ob) as (w' & ob' & Hrun & Htr & Hg & Hc & Hlen
                                       & Hother & Hself & Hlist & Hsame).
    { apply Forall_app. split; [done|]. by constructor. }
    { done. }
    { by rewrite <- app_assoc. }
    exists w', ob'. rewrite Hrun. simpl.
    rewrite stays_cons_keep by done.
    repeat split; try done; try apply Hsame.
    by rewrite Hlist, <- app_assoc.
Qed.

Lemma remove_first_absent {A} (p : A -> bool) (l : list A) :
  Forall (fun x => p x = false) l -> Observer.remove_first p l = l.
Proof.
  induction 1 as [|x l Hx _ IH]; simpl; [done|]. by rewrite Hx, IH.
Qed.

Lemma cascade_settled allowed w w' :
  cascade allowed w w' -> pointwise settled w w'.
Proof.
  apply cascade_pointwise.
  - intros ob key _. done.
  - intros a b c H1 H2 key Hall.
    rewrite H2; [by apply H1|]. by rewrite H1.
  - intros ob i _ _ key _. done.
  - intros ob key r Honce key' Hall.
    rewrite listeners_set_listeners.
    destruct (decide (key = key')) as [->|]; [|done].
    apply remove_first_absent.
    eapply Forall_impl; [exact Hall|].
    intros r' Hr'. simpl in Hr'. apply bool_decide_eq_false_2.
    intros ->. congruence.
Qed.

Lemma run_app ops1 ops2 w :
  run (ops1 ++ ops2) w = run ops1 w ≫= run ops2.
Proof.
  revert w. induction ops1 as [|op ops1 IH]; intros w; simpl; [done|].
  destruct (apply_op op w); simpl; [apply IH|done].
Qed.

Lemma reachable_step op w w' :
  reachable w -> apply_op op w = Some w' -> reachable w'.
Proof.
  intros (g & ops & Hrun) Hop. exists g, (ops ++ [op]).
  rewrite run_app, Hrun. simpl. by rewrite Hop.
Qed.

(** In a state reached through the interface the listeners of a key other
    than the EmitEvent key are user functions. *)
Lemma relays_valid_callbacks w self ob key :
  relays_valid w ->
  store w !! self = Some ob ->
  key <> EmitEvent_key ->
  Forall (fun r => is_bubble r = false) (Observer.listeners key ob).
Proof.
  intros Hv Hob Hkey. apply Forall_forall. intros r Hr.
  unfold is_bubble. destruct (listener r) as [fn|fn target] eqn:Hl; [done|].
  destruct (Hv self ob key r fn target Hob Hr Hl) as [Hk _]. done.
Qed.

Lemma dispatch_callbacks F self ev w ob :
  store w !! self = Some ob ->
  Forall (fun r => is_bubble r = false)
    (Observer.listeners (getRegisterableEventName (ByInstance ev)) ob) ->
  exists w' ob',
    dispatch F self ev w
    = Done (bool_decide
              (Observer.listeners (getRegisterableEventName (ByInstance ev)) ob
               <> [])) w' /\
    trace w'
    = reverse (invocations self ev
             (Observer.listeners (getRegisterableEventName (ByInstance ev))
                ob)) ++ trace w /\
    guids w' = guids w /\
    closures w' = closures w /\
    length (store w') = length (store w) /\
    (forall o, o <> self -> store w' !! o = store w !! o) /\
    store w' !! self = Some ob' /\
    Observer.listeners (getRegisterableEventName (ByInstance ev)) ob'
    = stays (Observer.listeners (getRegisterableEventName (ByInstance ev))
               ob) /\
    same_but_keys [getRegisterableEventName (ByInstance ev)] ob ob'.
Proof.
  intros Hob Hcb. unfold dispatch. rewrite Hob.
  destruct (run_listeners_callbacks F self
              (getRegisterableEventName (ByInstance ev)) ev _ Hcb [] w ob)
    as (w' & ob' & H); [done|done|done|].
  exists w', ob'. exact H.
Qed.

(** The first half of an emit that passes the gate, when the listeners of
    the event's key are user functions: the id enters the cache and the
    listeners are called in order. *)
Lemma emit_first_dispatch fuel w self e ob :
  store w !! self = Some ob ->
  id e ∉ idCache ob ->
  Forall (fun r => is_bubble r = false)
    (Observer.listeners (getRegisterableEventName (ByInstance e)) ob) ->
  exists w2 ob2,
    emit (S fuel) w self e
    = andThen
        (dispatch (emit fuel) self (fst (EmitEvent_new e (guids w)))
           (wrap_world self e w2))
        (fun _ w4 =>
           Done (bool_decide
                   (Observer.listeners
                      (getRegisterableEventName (ByInstance e)) ob <> []))
                w4) /\
    trace w2
    = reverse (invocations self e
             (Observer.listeners (getRegisterableEventName (ByInstance e))
                ob)) ++ trace w /\
    guids w2 = guids w /\
    closures w2 = closures w /\
    length (store w2) = length (store w) /\
    (forall o, o <> self -> store w2 !! o = store w !! o) /\
    store w2 !! self = Some ob2 /\
    Observer.listeners (getRegisterableEventName (ByInstance e)) ob2
    = stays (Observer.listeners (getRegisterableEventName (ByInstance e))
               ob) /\
    relays ob2 = relays ob /\
    idCache ob2 = cache_insert (idCacheLimit ob) (id e) (idCache ob) /\
    idCacheLimit ob2 = idCacheLimit ob /\
    (forall key,
       key <> getRegisterableEventName (ByInstance e) ->
       Observer.listeners key ob2 = Observer.listeners key ob).
Proof.
  intros Hob Hin Hcb. simpl. rewrite (emit_body_open _ self e w ob Hob Hin).
  set (ob1 := with_cache _ ob). set (w1 := put self ob1 w).
  assert (Hob1 : store w1 !! self = Some ob1).
  { simpl. apply list_lookup_insert_eq. by eapply lookup_lt_Some. }
  destruct (dispatch_callbacks (emit fuel) self e w1 ob1 Hob1 Hcb)
    as (w2 & ob2 & Hrun & Htr & Hg & Hc & Hlen & Hother & Hself & Hlist
        & Hr & Hca & Hli & Hkeys).
  exists w2, ob2. rewrite Hrun. simpl. rewrite Hg.
  repeat split; try done.
  - rewrite Hlen. simpl. apply length_insert.
  - intros o Ho. rewrite Hother by done. simpl.
    by apply list_lookup_insert_ne.
  - intros key Hk. apply Hkeys. by intros ->%list_elem_of_singleton.
Qed.


Lemma count_bubbles_none l :
  count_bubbles l = 0 -> Forall (fun r => is_bubble r = false) l.
Proof.
  induction l as [|r l IH]; simpl; [constructor|].
  destruct (is_bubble r) eqn:Hr; [lia|]. intros H. constructor; auto.
Qed.

Lemma relay_calls_app l t : relay_calls (l ++ t) = relay_calls l + relay_calls t.
Proof.
  induction l as [|a l IH]; simpl; [done|]. destruct a; simpl; lia.
Qed.

Lemma wraps_app l t : wraps (l ++ t) = wraps l + wraps t.
Proof.
  induction l as [|a l IH]; simpl; [done|]. destruct a; simpl; lia.
Qed.

Lemma invocations_quiet self ev l :
  relay_calls (reverse (invocations self ev l)) = 0 /\
  wraps (reverse (invocations self ev l)) = 0.
Proof.
  induction l as [|r l [IH1 IH2]]; [done|].
  destruct (listener r) as [fn|fn target] eqn:Hl.
  - rewrite (invocations_cons self ev r l fn Hl). rewrite reverse_cons.
    rewrite relay_calls_app, wraps_app, IH1, IH2. done.
  - assert (E : invocations self ev (r :: l) = invocations self ev l).
    { unfold invocations. cbn [omap list_omap].
      unfold invocation at 1. by rewrite Hl. }
    by rewrite E.
Qed.

Lemma EmitEvent_new_key e g :
  getRegisterableEventName (ByInstance (fst (EmitEvent_new e g)))
  = EmitEvent_key.
Proof. done. Qed.

Lemma Forall_stays_callbacks l :
  Forall (fun r => is_bubble r = false) l ->
  Forall (fun r => is_bubble r = false) (stays l).
Proof.
  intros H. apply Forall_forall. intros r Hr.
  apply list_elem_of_filter in Hr as [_ Hr].
  by eapply Forall_forall in H.
Qed.

(** An emit that passes the gate on an observer with no relay closure
    among the listeners it reaches: it returns within a budget of one
    call and touches nothing but the emitting observer. *)
Lemma emit_local (fuel : nat) (w : World) (self : ObsId)
  (e : Event) (ob : EventObserver) :
  store w !! self = Some ob ->
  id e ∉ idCache ob ->
  Forall (fun r => is_bubble r = false)
    (Observer.listeners (getRegisterableEventName (ByInstance e)) ob) ->
  Forall (fun r => is_bubble r = false)
    (Observer.listeners EmitEvent_key ob) ->
  exists w' ob',
    emit (S fuel) w self e
    = Done (bool_decide
              (Observer.listeners (getRegisterableEventName (ByInstance e)) ob
               <> [])) w' /\
    (forall o, o <> self -> store w' !! o = store w !! o) /\
    length (store w') = length (store w) /\
    trace w'
    = reverse
        (invocations self (fst (EmitEvent_new e (guids w)))
           (if decide (getRegisterableEventName (ByInstance e)
                       = EmitEvent_key)
            then stays (Observer.listeners EmitEvent_key ob)
            else Observer.listeners EmitEvent_key ob))
      ++ Wrapped self (fst (EmitEvent_new e (guids w)))
      :: reverse
           (invocations self e
              (Observer.listeners (getRegisterableEventName (ByInstance e))
                 ob))
      ++ trace w /\
    relay_calls (trace w') = relay_calls (trace w) /\
    wraps (trace w') = S (wraps (trace w)) /\
    guids w' = snd (Guid_create (guids w)) /\
    store w' !! self = Some ob' /\
    idCache ob' = cache_insert (idCacheLimit ob) (id e) (idCache ob) /\
    idCacheLimit ob' = idCacheLimit ob /\
    relays ob' = relays ob.
Proof.
  intros Hob Hin H1 H2.
  destruct (emit_first_dispatch fuel w self e ob Hob Hin H1)
    as (w2 & ob2 & Hemit & Htr & Hg & Hc & Hlen & Hother & Hself & Hlist
        & Hr & Hca & Hli & Hkeys).
  set (invoked := fst (EmitEvent_new e (guids w))) in *.
  assert (Hself3 : store (wrap_world self e w2) !! self = Some ob2) by done.
  assert (Hcb2 : Forall (fun r => is_bubble r = false)
                   (Observer.listeners
                      (getRegisterableEventName (ByInstance invoked)) ob2)).
  { unfold invoked. rewrite EmitEvent_new_key.
    destruct (decide (EmitEvent_key
                      = getRegisterableEventName (ByInstance e))) as [E|E].
    - rewrite E, Hlist. by apply Forall_stays_callbacks.
    - by rewrite Hkeys. }
  destruct (dispatch_callbacks (emit fuel) self invoked _ ob2 Hself3 Hcb2)
    as (w4 & ob4 & Hrun & Htr4 & Hg4 & Hc4 & Hlen4 & Hother4 & Hself4 & _
        & Hr4 & Hca4 & Hli4 & _).
  exists w4, ob4. rewrite Hemit, Hrun. simpl.
  split; [done|]. split.
  { intros o Ho. rewrite Hother4 by done. simpl. by apply Hother. }
  split; [by rewrite Hlen4|].
  assert (Htrace :
    trace w4
    = reverse (invocations self invoked
             (Observer.listeners
                (getRegisterableEventName (ByInstance invoked)) ob2))
      ++ [Wrapped self invoked]
      ++ reverse (invocations self e
                (Observer.listeners
                   (getRegisterableEventName (ByInstance e)) ob))
      ++ trace w).
  { rewrite Htr4. unfold wrap_world. cbn [trace]. by rewrite Hg, Htr. }
  assert (HL2 :
    Observer.listeners (getRegisterableEventName (ByInstance invoked)) ob2
    = if decide (getRegisterableEventName (ByInstance e) = EmitEvent_key)
      then stays (Observer.listeners EmitEvent_key ob)
      else Observer.listeners EmitEvent_key ob).
  { unfold invoked. rewrite EmitEvent_new_key. case_decide as E.
    - by rewrite <- E, Hlist.
    - rewrite Hkeys; [done|]. by intros E'. }
  split.
  { by rewrite Htrace, HL2. }
  rewrite Htrace, !relay_calls_app, !wraps_app.
  destruct (invocations_quiet self e
              (Observer.listeners (getRegisterableEventName (ByInstance e))
                 ob)) as [Q1 Q2].
  destruct (invocations_quiet self invoked
              (Observer.listeners
                 (getRegisterableEventName (ByInstance invoked)) ob2))
    as [Q3 Q4].
  rewrite Q1, Q2, Q3, Q4.
  split; [done|]. split; [done|].
  split; [by rewrite Hg4; simpl; rewrite Hg|].
  split; [done|]. split; [by rewrite Hca4|]. split; [by rewrite Hli4|].
  by rewrite Hr4.
Qed.





Lemma has_spec key l ob :
  Observer.has key l ob = true <->
  exists r, r ∈ Observer.listeners key ob /\ listener r = l.
Proof.
  unfold Observer.has. induction (Observer.listeners key ob) as [|r rs IH];
    simpl.
  - split; [done|]. intros (r & Hr & _). by apply elem_of_nil in Hr.
  - rewrite orb_true_iff, IH, bool_decide_eq_true. split.
    + intros [H|(r' & Hr' & H)]; [exists r|exists r']; split; try done.
      * left.
      * by right.
    + intros (r' & [->|Hr']%elem_of_cons & H); [by left|right; eauto].
Qed.

Lemma invocations_elem self ev l r fn :
  r ∈ l -> listener r = Callback fn ->
  Invoked self fn ev ∈ invocations self ev l.
Proof.
  intros Hr Hl. unfold invocations. apply list_elem_of_omap.
  exists r. split; [done|]. unfold invocation. by rewrite Hl.
Qed.

Lemma invocations_app self ev l1 l2 :
  invocations self ev (l1 ++ l2)
  = invocations self ev l1 ++ invocations self ev l2.
Proof. unfold invocations. apply omap_app. Qed.

(** An emit that passes the gate on an observer whose listeners for the
    event are user functions. *)
Lemma emit_in_order fuel w self e ob ret w' :
  store w !! self = Some ob ->
  id e ∉ idCache ob ->
  Forall (fun r => is_bubble r = false)
    (Observer.listeners (getRegisterableEventName (ByInstance e)) ob) ->
  emit fuel w self e = Done ret w' ->
  ret = bool_decide
          (Observer.listeners (getRegisterableEventName (ByInstance e)) ob
           <> []) /\
  (exists later,
     trace w'
     = later
       ++ Wrapped self (fst (EmitEvent_new e (guids w)))
       :: reverse (invocations self e
                 (Observer.listeners
                    (getRegisterableEventName (ByInstance e)) ob))
       ++ trace w) /\
  exists ob',
    store w' !! self = Some ob' /\
    Observer.listeners (getRegisterableEventName (ByInstance e)) ob'
    = stays (Observer.listeners (getRegisterableEventName (ByInstance e)) ob).
Proof.
  intros Hob Hin Hcb Hemit. destruct fuel as [|fuel]; [done|].
  destruct (emit_first_dispatch fuel w self e ob Hob Hin Hcb)
    as (w2 & ob2 & Hopen & Htr & Hg & _ & _ & _ & Hself & Hlist & _).
  rewrite Hopen in Hemit.
  apply andThen_Done in Hemit as (a & w4 & Hd & Hk).
  injection Hk as <- <-.
  split; [done|].
  assert (Hc : cascade (fun _ => True) (wrap_world self e w2) w4).
  { eapply dispatch_cascade; [|done|by rewrite Hd].
    intros w0 target e0 w0' _. by apply emit_cascade. }
  split.
  - apply cascade_frame in Hc as (_ & _ & _ & later & Hlater).
    exists later. rewrite Hlater. simpl. by rewrite Hg, Htr.
  - apply cascade_settled in Hc as [_ Hc].
    destruct (Hc self ob2 Hself) as (ob4 & Hself4 & Hset).
    exists ob4. split; [done|]. rewrite <- Hlist. apply Hset.
    rewrite Hlist. apply Forall_stays.
Qed.



Lemma update_Some self f w ob :
  store w !! self = Some ob -> store (update self f w) !! self = Some (f ob).
Proof.
  intros Hob. rewrite lookup_update. destruct (decide (self = self)); [|done].
  by rewrite Hob.
Qed.

Lemma listeners_register key l once prepend ob key' :
  Observer.listeners key' (Observer.register key l once prepend ob)
  = if decide (key = key')
    then (if prepend
          then {| listener := l; runOnce := once |}
               :: Observer.listeners key ob
          else Observer.listeners key ob
               ++ [{| listener := l; runOnce := once |}])
    else Observer.listeners key' ob.
Proof.
  unfold Observer.register. rewrite listeners_set_listeners.
  by destruct (decide (key = key')), prepend.
Qed.



(* ===================================================================== *)
(** * Relaying delivers                                                   *)
(* ===================================================================== *)

Lemma arrives_same_caches e w w' new :
  trace w' = new ++ trace w ->
  (forall o ob ob',
     store w !! o = Some ob -> store w' !! o = Some ob' ->
     idCache ob' = idCache ob) ->
  arrives e w w'.
Proof.
  intros Htr Hc. exists new. split; [done|].
  intros o ob ob' fn Hob Hob' Hout Hin. rewrite (Hc o ob ob') in Hin; done.
Qed.

Lemma arrives_refl e w : arrives e w w.
Proof.
  apply (arrives_same_caches e w w []); [done|].
  intros o ob ob' H1 H2. congruence.
Qed.

Lemma arrives_trans e w1 w2 w3 :
  cascade (fun i => i = id e) w1 w2 ->
  arrives e w1 w2 -> arrives e w2 w3 -> arrives e w1 w3.
Proof.
  intros Hc (new1 & Htr1 & H1) (new2 & Htr2 & H2).
  exists (new2 ++ new1). split.
  { by rewrite Htr2, Htr1, app_assoc. }
  intros o ob ob3 fn Hob Hob3 Hout Hin Hfn.
  pose proof (cascade_keeps_persistent _ _ _ Hc) as [_ Hk].
  destruct (Hk o ob Hob) as (ob2 & Hob2 & Hkeep).
  apply elem_of_app.
  destruct (decide (id e ∈ idCache ob2)) as [Hin2|Hout2].
  - right. by eapply H1.
  - left. eapply H2; try done. by apply Hkeep.
Qed.

Lemma plain_rel_keeps e ob ob' :
  plain_rel e ob ob' -> id e ∈ idCache ob -> id e ∈ idCache ob'.
Proof.
  intros (_ & _ & _ & [-> | [Hout _]]) Hin; done.
Qed.

Lemma emit_Done_valid fuel w target e r w' :
  emit fuel w target e = Done r w' -> is_Some (store w !! target).
Proof.
  destruct fuel as [|fuel]; [done|]. simpl. unfold emit_body.
  destruct (store w !! target); [eauto|done].
Qed.

Section Arrival.

Variable e : Event.
Hypothesis e_plain : emitted e = None.

Variable emit_rec : World -> ObsId -> Event -> Outcome bool.

Hypothesis rec_cascade :
  forall w target e0 w',
    (forall i, i ∈ nested_ids e0 -> i = id e) ->
    final (emit_rec w target e0) = Some w' ->
    cascade (fun i => i = id e) w w'.

Hypothesis rec_any :
  forall w target e0 w',
    final (emit_rec w target e0) = Some w' ->
    cascade (fun _ => True) w w'.

Hypothesis rec_arrives :
  forall w target r w',
    emit_rec w target e = Done r w' -> arrives e w w'.

Hypothesis rec_holds :
  forall w target r w',
    emit_rec w target e = Done r w' ->
    exists ob', store w' !! target = Some ob' /\ id e ∈ idCache ob'.

Lemma call_listener_arrives self l ev w a w' :
  carries e ev ->
  call_listener emit_rec self l ev w = Done a w' ->
  arrives e w w'.
Proof.
  intros Hev. destruct l as [fn|fn target]; simpl.
  - intros [= _ <-].
    apply (arrives_same_caches e w _ [Invoked self fn ev]); [done|].
    simpl. intros o ob ob' H1 H2. congruence.
  - destruct (emitted ev) as [x|] eqn:Hx; [|done].
    rewrite (Hev x Hx). intros H.
    apply andThen_Done in H as (r & w1 & H & Hk). injection Hk as _ <-.
    eapply (arrives_trans e w (log (Relayed self target e) w)).
    + apply rtc_once, step_log.
    + apply (arrives_same_caches e w _ [Relayed self target e]); [done|].
      simpl. intros o ob ob' H1 H2. congruence.
    + by eapply rec_arrives.
Qed.

Lemma run_listeners_arrives self key ev snapshot :
  carries e ev ->
  forall w b w',
    run_listeners emit_rec self key snapshot ev w = Done b w' ->
    arrives e w w'.
Proof.
  intros Hev. induction snapshot as [|r rest IH]; intros w b w'; simpl.
  { intros [= _ <-]. apply arrives_refl. }
  assert (Hcont : forall w0,
    andThen (call_listener emit_rec self (listener r) ev w0)
      (fun _ w1 =>
         andThen (run_listeners emit_rec self key rest ev w1)
                 (fun _ w2 => Done true w2)) = Done b w' ->
    arrives e w0 w').
  { intros w0 H.
    apply andThen_Done in H as (a & w1 & H1 & H).
    apply andThen_Done in H as (b' & w2 & H2 & H). injection H as _ <-.
    eapply (arrives_trans e w0 w1).
    - eapply call_listener_cascade;
        [apply rec_cascade|by apply carries_allowed|by rewrite H1].
    - by eapply call_listener_arrives.
    - by eapply IH. }
  destruct (runOnce r) eqn:Honce.
  - destruct (store w !! self) as [ob|] eqn:Hob; [|done].
    case_bool_decide as Hmem; [|by apply IH].
    intros H. apply Hcont in H.
    eapply arrives_trans; [| |exact H].
    + apply rtc_once. by eapply step_once.
    + apply (arrives_same_caches e w _ []); [done|].
      simpl. intros o ob1 ob' H1 H2.
      destruct (decide (self = o)) as [->|Hne].
      * rewrite list_lookup_insert_eq in H2 by (by eapply lookup_lt_Some).
        injection H2 as <-. rewrite Hob in H1. by injection H1 as <-.
      * rewrite list_lookup_insert_ne in H2 by done. congruence.
  - apply Hcont.
Qed.

Lemma dispatch_arrives self ev w b w' :
  carries e ev ->
  dispatch emit_rec self ev w = Done b w' -> arrives e w w'.
Proof.
  intros Hev. unfold dispatch. destruct (store w !! self); [|done].
  by apply run_listeners_arrives.
Qed.

Lemma emit_body_arrives self w ret w' :
  emit_body emit_rec self e w = Done ret w' -> arrives e w w'.
Proof.
  unfold emit_body. destruct (store w !! self) as [ob|] eqn:Hob; [|done].
  unfold cache_contains. case_bool_decide as Hin.
  { intros [= _ <-]. apply arrives_refl. }
  set (ob1 := with_cache _ ob). set (w1 := put self ob1 w).
  assert (Hob1 : store w1 !! self = Some ob1).
  { simpl. apply list_lookup_insert_eq. by eapply lookup_lt_Some. }
  intros H. apply andThen_Done in H as (b1 & w2 & H1 & H).
  destruct (EmitEvent_new e (guids w2)) as [invoked g'] eqn:Hnew.
  apply andThen_Done in H as (b2 & w4 & H2 & H). injection H as _ <-.
  set (w3 := mkWorld (store w2) g' (closures w2)
               (Wrapped self invoked :: trace w2)) in *.
  assert (Hc12 : cascade (fun i => i = id e) w1 w2).
  { eapply dispatch_plain_cascade;
      [done|apply rec_cascade|by apply carries_plain|by rewrite H1]. }
  assert (Hc01 : cascade (fun i => i = id e) w w1).
  { apply rtc_once. by eapply (step_cache _ self ob (id e)). }
  assert (Hc23 : cascade (fun i => i = id e) w2 w3).
  { apply rtc_once.
    pose proof (step_wrap (fun i => i = id e) self e w2) as Hs.
    rewrite Hnew in Hs. exact Hs. }
  (* gate and first dispatch *)
  assert (HA : arrives e w w2).
  { pose proof (dispatch_arrives self e w1 b1 w2 (carries_plain e e_plain) H1)
      as (new & Htr & Harr).
    exists new. split; [done|].
    intros o obo ob' fn Ho Ho' Hout Hin' Hfn.
    destruct (decide (self = o)) as [<-|Hne].
    - rewrite Hob in Ho. injection Ho as <-.
      destruct (dispatch_delivers emit_rec rec_any self e fn ob1 w1 b1 w2
                  Hob1 Hfn H1) as (_ & new' & Htr' & Hinv).
      rewrite Htr in Htr'. apply app_inv_tail in Htr'. by subst.
    - eapply Harr; try done. simpl. by rewrite list_lookup_insert_ne. }
  eapply arrives_trans; [etrans; [exact Hc01|exact Hc12]|exact HA|].
  eapply arrives_trans; [exact Hc23| |].
  - apply (arrives_same_caches e w2 w3 [Wrapped self invoked]); [done|].
    simpl. intros o o1 o2 Ho1 Ho2. congruence.
  - eapply dispatch_arrives; [|exact H2].
    replace invoked with (fst (EmitEvent_new e (guids w2)))
      by (by rewrite Hnew).
    apply carries_EmitEvent.
Qed.

(** A dispatch of an EmitEvent wrapping [e] whose snapshot holds a relay
    closure: the closure calls [emit] on its observer, which holds the id
    of [e] from then on. *)
Lemma run_listeners_relays self key ev fn target snapshot :
  emitted ev = Some e ->
  relay_to fn target ∈ snapshot ->
  forall w b w',
    run_listeners emit_rec self key snapshot ev w = Done b w' ->
    exists new ob',
      trace w' = new ++ trace w /\
      Relayed self target e ∈ new /\
      store w' !! target = Some ob' /\
      id e ∈ idCache ob'.
Proof.
  intros Hx.
  assert (Hev : carries e ev) by (intros x; rewrite Hx; congruence).
  induction snapshot as [|r rest IH]; intros Hin w b w'.
  { by apply elem_of_nil in Hin. }
  simpl.
  assert (Hcont : forall w0,
    trace w0 = trace w ->
    andThen (call_listener emit_rec self (listener r) ev w0)
      (fun _ w1 =>
         andThen (run_listeners emit_rec self key rest ev w1)
                 (fun _ w2 => Done true w2)) = Done b w' ->
    (r = relay_to fn target \/ relay_to fn target ∈ rest) ->
    exists new ob',
      trace w' = new ++ trace w /\
      Relayed self target e ∈ new /\
      store w' !! target = Some ob' /\
      id e ∈ idCache ob').
  { intros w0 Htr0 H Hcase.
    apply andThen_Done in H as (a & w1 & H1 & H).
    apply andThen_Done in H as (b' & w2 & H2 & H). injection H as _ <-.
    assert (Hc1 : cascade (fun i => i = id e) w0 w1).
    { eapply call_listener_cascade;
        [apply rec_cascade|by apply carries_allowed|by rewrite H1]. }
    assert (Hc2 : cascade (fun i => i = id e) w1 w2).
    { eapply run_listeners_cascade;
        [apply rec_cascade|by apply carries_allowed|by rewrite H2]. }
    pose proof (cascade_frame _ _ _ Hc1) as (_ & _ & _ & new1 & Htr1).
    pose proof (cascade_frame _ _ _ Hc2) as (_ & _ & _ & new2 & Htr2).
    destruct Hcase as [-> | Hrest].
    - simpl in H1. rewrite Hx in H1.
      apply andThen_Done in H1 as (r0 & w1' & H1 & Hk).
      injection Hk as _ ->.
      destruct (rec_holds _ _ _ _ H1) as (ob1 & Hob1 & Hin1).
      assert (Hc1' : cascade (fun i => i = id e)
                       (log (Relayed self target e) w0) w1).
      { eapply rec_cascade; [|by rewrite H1].
        intros i Hi. rewrite (nested_ids_plain e e_plain) in Hi.
        by apply list_elem_of_singleton in Hi. }
      apply cascade_frame in Hc1' as (_ & _ & _ & new1' & Htr1').
      simpl in Htr1'.
      apply cascade_plain in Hc2 as [_ Hc2].
      destruct (Hc2 target ob1 Hob1) as (ob2 & Hob2 & Hrel).
      exists (new2 ++ new1' ++ [Relayed self target e]), ob2.
      split.
      { rewrite Htr2, Htr1', Htr0, <- !app_assoc. done. }
      split.
      { apply elem_of_app. right. apply elem_of_app. right. left. }
      split; [done|]. by eapply plain_rel_keeps.
    - destruct (IH Hrest w1 b' w2 H2) as (new & ob' & Htr & Hrelay & Hob' & Hc).
      exists (new ++ new1), ob'. split.
      { by rewrite Htr, Htr1, Htr0, app_assoc. }
      split; [|done]. apply elem_of_app. by left. }
  apply elem_of_cons in Hin.
  destruct (runOnce r) eqn:Honce.
  - destruct (store w !! self) as [ob|] eqn:Hob; [|done].
    case_bool_decide as Hmem.
    + intros H. refine (Hcont _ _ H _); [done|].
      destruct Hin as [Hin|Hin]; [by left|by right].
    + destruct Hin as [Hin|Hin].
      * rewrite <- Hin in Honce. done.
      * by apply IH.
  - intros H. apply (Hcont w eq_refl H).
    destruct Hin as [Hin|Hin]; [by left|by right].
Qed.

End Arrival.

Lemma plain_allowed e :
  emitted e = None -> forall i, i ∈ nested_ids e -> i = id e.
Proof.
  intros He i Hi. rewrite (nested_ids_plain e He) in Hi.
  by apply list_elem_of_singleton in Hi.
Qed.

Lemma emit_plain_cascade e fuel w target e0 w' :
  (forall i, i ∈ nested_ids e0 -> i = id e) ->
  final (emit fuel w target e0) = Some w' ->
  cascade (fun i => i = id e) w w'.
Proof. intros H0. by apply emit_cascade. Qed.

Lemma emit_any_cascade fuel w target e0 w' :
  final (emit fuel w target e0) = Some w' ->
  cascade (fun _ => True) w w'.
Proof. by apply emit_cascade. Qed.

Lemma emit_arrives e :
  emitted e = None ->
  forall fuel w self ret w',
    emit fuel w self e = Done ret w' -> arrives e w w'.
Proof.
  intros He. induction fuel as [|fuel IH]; intros w self ret w'; [done|].
  simpl. apply (emit_body_arrives e He (emit fuel)).
  - intros w0 target e0 w0'. apply emit_plain_cascade.
  - intros w0 target e0 w0'. apply emit_any_cascade.
  - intros w0 target r w0'. apply IH.
Qed.

Lemma emit_holds e :
  emitted e = None ->
  forall fuel w target r w',
    emit fuel w target e = Done r w' ->
    exists ob', store w' !! target = Some ob' /\ id e ∈ idCache ob'.
Proof.
  intros He fuel w target r w' H.
  destruct (emit_Done_valid fuel w target e r w' H) as [ob Hob].
  destruct (emit_plain_self fuel w target ob e w' He Hob) as
    (ob' & Hob' & _ & Hc).
  { by rewrite H. }
  exists ob'. split; [done|]. rewrite Hc. unfold cache_contains.
  case_bool_decide; [done|]. apply cache_insert_elem.
Qed.

(** An emit that passes the gate on an observer which holds a relay
    closure for [target]. *)
Lemma emit_relays fuel w self target e ob fn ret w' :
  emitted e = None ->
  store w !! self = Some ob ->
  id e ∉ idCache ob ->
  relay_to fn target ∈ Observer.listeners EmitEvent_key ob ->
  emit fuel w self e = Done ret w' ->
  exists new target',
    trace w' = new ++ trace w /\
    Relayed self target e ∈ new /\
    store w' !! target = Some target' /\
    id e ∈ idCache target' /\
    forall before g,
      store w !! target = Some before ->
      id e ∉ idCache before ->
      persistent g
      ∈ Observer.listeners (getRegisterableEventName (ByInstance e)) before ->
      Invoked target g e ∈ new.
Proof.
  intros He Hob Hin Hfn Hemit.
  destruct (emit_arrives e He fuel w self ret w' Hemit) as (new & Htr & Harr).
  destruct fuel as [|fuel]; [done|]. simpl in Hemit.
  rewrite (emit_body_open _ self e w ob Hob Hin) in Hemit.
  set (ob1 := with_cache _ ob) in *. set (w1 := put self ob1 w) in *.
  assert (Hob1 : store w1 !! self = Some ob1).
  { simpl. apply list_lookup_insert_eq. by eapply lookup_lt_Some. }
  apply andThen_Done in Hemit as (b1 & w2 & H1 & Hemit).
  apply andThen_Done in Hemit as (b2 & w4 & H2 & Hk). injection Hk as _ <-.
  assert (Hc12 : cascade (fun i => i = id e) w1 w2).
  { eapply dispatch_plain_cascade;
      [done|apply emit_plain_cascade|by apply carries_plain|by rewrite H1]. }
  pose proof (cascade_keeps_persistent _ _ _ Hc12) as [_ Hk].
  destruct (Hk self ob1 Hob1) as (ob2 & Hob2 & Hkeep).
  assert (Hfn2 : relay_to fn target ∈ Observer.listeners EmitEvent_key ob2).
  { by apply Hkeep. }
  unfold dispatch in H2.
  change (store (wrap_world self e w2)) with (store w2) in H2.
  rewrite Hob2 in H2.
  destruct (run_listeners_relays e He (emit fuel)
              (emit_plain_cascade e fuel) (emit_holds e He fuel)
              self EmitEvent_key (fst (EmitEvent_new e (guids w2))) fn target
              (Observer.listeners EmitEvent_key ob2) eq_refl Hfn2 _ _ _ H2)
    as (new2 & target' & Htr2 & Hrel & Htarget & Hc).
  exists new, target'. split; [done|]. split.
  - apply cascade_frame in Hc12 as (_ & _ & _ & new1 & Htr1).
    simpl in Htr2, Htr1. rewrite Htr1 in Htr2.
    assert (new = new2 ++ Wrapped self (fst (EmitEvent_new e (guids w2)))
                  :: new1) as ->.
    { apply (app_inv_tail (trace w)). rewrite <- Htr, Htr2.
      by rewrite <- app_assoc. }
    apply elem_of_app. by left.
  - split; [done|]. split; [done|].
    intros before g Hb Hout Hg. by eapply Harr.
Qed.

Lemma forwards_same_caches e w w' :
  (forall o ob ob',
     store w !! o = Some ob -> store w' !! o = Some ob' ->
     idCache ob' = idCache ob) ->
  forwards e w w'.
Proof.
  intros Hc o ob ob' fn target Hob Hob' Hout Hin.
  rewrite (Hc o ob ob') in Hin; done.
Qed.

Lemma forwards_refl e w : forwards e w w.
Proof. apply forwards_same_caches. intros o ob ob' H1 H2. congruence. Qed.

Lemma forwards_trans e w1 w2 w3 :
  cascade (fun i => i = id e) w1 w2 ->
  cascade (fun i => i = id e) w2 w3 ->
  forwards e w1 w2 -> forwards e w2 w3 -> forwards e w1 w3.
Proof.
  intros Hc12 Hc23 H12 H23 o ob ob3 fn target Hob Hob3 Hout Hin Hfn.
  pose proof (cascade_keeps_persistent _ _ _ Hc12) as [_ Hk].
  destruct (Hk o ob Hob) as (ob2 & Hob2 & Hkeep).
  destruct (decide (id e ∈ idCache ob2)) as [Hin2|Hout2].
  - destruct (H12 o ob ob2 fn target Hob Hob2 Hout Hin2 Hfn)
      as (t2 & Ht2 & Hc2).
    apply cascade_plain in Hc23 as [_ Hp].
    destruct (Hp target t2 Ht2) as (t3 & Ht3 & Hrel).
    exists t3. split; [done|]. by eapply plain_rel_keeps.
  - eapply H23; try done. by apply Hkeep.
Qed.

Section Forwarding.

Variable e : Event.
Hypothesis e_plain : emitted e = None.

Variable emit_rec : World -> ObsId -> Event -> Outcome bool.

Hypothesis rec_cascade :
  forall w target e0 w',
    (forall i, i ∈ nested_ids e0 -> i = id e) ->
    final (emit_rec w target e0) = Some w' ->
    cascade (fun i => i = id e) w w'.

Hypothesis rec_forwards :
  forall w target r w',
    emit_rec w target e = Done r w' -> forwards e w w'.

Hypothesis rec_holds :
  forall w target r w',
    emit_rec w target e = Done r w' ->
    exists ob', store w' !! target = Some ob' /\ id e ∈ idCache ob'.

Lemma call_listener_forwards self l ev w a w' :
  carries e ev ->
  call_listener emit_rec self l ev w = Done a w' ->
  forwards e w w'.
Proof.
  intros Hev. destruct l as [fn|fn target]; simpl.
  - intros [= _ <-]. apply forwards_same_caches.
    simpl. intros o ob ob' H1 H2. congruence.
  - destruct (emitted ev) as [x|] eqn:Hx; [|done].
    rewrite (Hev x Hx). intros H.
    apply andThen_Done in H as (r & w1 & H & Hk). injection Hk as _ <-.
    pose proof (rec_forwards _ _ _ _ H) as Hf.
    intros o ob ob' f t Hob. by apply Hf.
Qed.

Lemma run_listeners_forwards self key ev snapshot :
  carries e ev ->
  forall w b w',
    run_listeners emit_rec self key snapshot ev w = Done b w' ->
    forwards e w w'.
Proof.
  intros Hev. induction snapshot as [|r rest IH]; intros w b w'; simpl.
  { intros [= _ <-]. apply forwards_refl. }
  assert (Hcont : forall w0,
    andThen (call_listener emit_rec self (listener r) ev w0)
      (fun _ w1 =>
         andThen (run_listeners emit_rec self key rest ev w1)
                 (fun _ w2 => Done true w2)) = Done b w' ->
    forwards e w0 w').
  { intros w0 H.
    apply andThen_Done in H as (a & w1 & H1 & H).
    apply andThen_Done in H as (b' & w2 & H2 & H). injection H as _ <-.
    eapply (forwards_trans e w0 w1).
    - eapply call_listener_cascade;
        [apply rec_cascade|by apply carries_allowed|by rewrite H1].
    - eapply run_listeners_cascade;
        [apply rec_cascade|by apply carries_allowed|by rewrite H2].
    - by eapply call_listener_forwards.
    - by eapply IH. }
  destruct (runOnce r) eqn:Honce.
  - destruct (store w !! self) as [ob|] eqn:Hob; [|done].
    case_bool_decide as Hmem; [|by apply IH].
    intros H. apply Hcont in H.
    intros o obo ob' f t Hobo Hob' Hout Hin Hfn.
    destruct (decide (self = o)) as [->|Hne].
    + rewrite Hob in Hobo. injection Hobo as <-.
      apply (H o (Observer.set_listeners key
                    (Observer.remove_first
                       (fun r' => bool_decide (r' = r))
                       (Observer.listeners key ob)) ob) ob' f t).
      * simpl. apply list_lookup_insert_eq. by eapply lookup_lt_Some.
      * done.
      * done.
      * done.
      * rewrite listeners_set_listeners.
        destruct (decide (key = EmitEvent_key)) as [->|]; [|done].
        apply remove_first_other; [|done].
        apply bool_decide_eq_false_2. intros <-. done.
    + apply (H o obo ob' f t); try done.
      simpl. by rewrite list_lookup_insert_ne.
  - apply Hcont.
Qed.

(** A dispatch of an event that wraps nothing leaves every cache as it
    is. *)
Lemma run_listeners_plain_caches self key ev snapshot :
  emitted ev = None ->
  forall w b w',
    run_listeners emit_rec self key snapshot ev w = Done b w' ->
    forall o, idCache <$> store w' !! o = idCache <$> store w !! o.
Proof.
  intros Hev. induction snapshot as [|r rest IH]; intros w b w'; simpl.
  { by intros [= _ <-]. }
  assert (Hcont : forall w0,
    andThen (call_listener emit_rec self (listener r) ev w0)
      (fun _ w1 =>
         andThen (run_listeners emit_rec self key rest ev w1)
                 (fun _ w2 => Done true w2)) = Done b w' ->
    forall o, idCache <$> store w' !! o = idCache <$> store w0 !! o).
  { intros w0 H o.
    apply andThen_Done in H as (a & w1 & H1 & H).
    apply andThen_Done in H as (b' & w2 & H2 & H). injection H as _ <-.
    rewrite (IH _ _ _ H2 o).
    destruct (listener r) as [f|f t]; simpl in H1.
    - by injection H1 as _ <-.
    - by rewrite Hev in H1. }
  destruct (runOnce r) eqn:Honce.
  - destruct (store w !! self) as [ob|] eqn:Hob; [|done].
    case_bool_decide as Hmem; [|by apply IH].
    intros H o. rewrite (Hcont _ H o). simpl.
    destruct (decide (self = o)) as [->|Hne].
    + rewrite list_lookup_insert_eq by (by eapply lookup_lt_Some).
      by rewrite Hob.
    + by rewrite list_lookup_insert_ne.
  - apply Hcont.
Qed.

Lemma emit_body_forwards self w ret w' :
  emit_body emit_rec self e w = Done ret w' -> forwards e w w'.
Proof.
  unfold emit_body. destruct (store w !! self) as [ob|] eqn:Hob; [|done].
  unfold cache_contains. case_bool_decide as Hin.
  { intros [= _ <-]. apply forwards_refl. }
  set (ob1 := with_cache _ ob). set (w1 := put self ob1 w).
  assert (Hob1 : store w1 !! self = Some ob1).
  { simpl. apply list_lookup_insert_eq. by eapply lookup_lt_Some. }
  intros H. apply andThen_Done in H as (b1 & w2 & H1 & H).
  destruct (EmitEvent_new e (guids w2)) as [invoked g'] eqn:Hnew.
  apply andThen_Done in H as (b2 & w4 & H2 & H). injection H as _ <-.
  set (w3 := mkWorld (store w2) g' (closures w2)
               (Wrapped self invoked :: trace w2)) in *.
  assert (Hinv : invoked = fst (EmitEvent_new e (guids w2)))
    by (by rewrite Hnew).
  assert (Hc12 : cascade (fun i => i = id e) w1 w2).
  { eapply dispatch_plain_cascade;
      [done|apply rec_cascade|by apply carries_plain|by rewrite H1]. }
  assert (Hcaches : forall o,
            idCache <$> store w2 !! o = idCache <$> store w1 !! o).
  { unfold dispatch in H1. rewrite Hob1 in H1.
    by eapply run_listeners_plain_caches. }
  pose proof (cascade_keeps_persistent _ _ _ Hc12) as [_ Hk].
  assert (H34 : forwards e w3 w4).
  { unfold dispatch in H2. destruct (store w3 !! self); [|done].
    eapply run_listeners_forwards; [|exact H2].
    rewrite Hinv. apply carries_EmitEvent. }
  intros o obo ob4 fn target Hobo Hob4 Hout Hin4 Hfn.
  destruct (decide (self = o)) as [<-|Hne].
  - (* the emitting observer: its relay closures are called *)
    rewrite Hob in Hobo. injection Hobo as <-.
    destruct (Hk self ob1 Hob1) as (ob2 & Hob2 & Hkeep).
    assert (Hfn2 : relay_to fn target
                   ∈ Observer.listeners EmitEvent_key ob2).
    { by apply Hkeep. }
    unfold dispatch in H2.
    change (store w3 !! self) with (store w2 !! self) in H2.
    rewrite Hob2, Hinv in H2.
    destruct (run_listeners_relays e e_plain emit_rec rec_cascade rec_holds
                self EmitEvent_key (fst (EmitEvent_new e (guids w2)))
                fn target (Observer.listeners EmitEvent_key ob2)
                eq_refl Hfn2 _ _ _ H2)
      as (new & target' & _ & _ & Ht & Hc).
    eauto.
  - (* another observer: it was reached during the second dispatch *)
    assert (Hobo1 : store w1 !! o = Some obo).
    { simpl. by rewrite list_lookup_insert_ne. }
    destruct (Hk o obo Hobo1) as (ob2 & Hob2 & Hkeep).
    eapply (H34 o ob2); try done.
    + specialize (Hcaches o). rewrite Hob2, Hobo1 in Hcaches.
      simpl in Hcaches. injection Hcaches as ->. done.
    + by apply Hkeep.
Qed.

End Forwarding.

Lemma emit_forwards e :
  emitted e = None ->
  forall fuel w self ret w',
    emit fuel w self e = Done ret w' -> forwards e w w'.
Proof.
  intros He. induction fuel as [|fuel IH]; intros w self ret w'; [done|].
  simpl. apply (emit_body_forwards e He (emit fuel)).
  - intros w0 target e0 w0'. apply emit_plain_cascade.
  - intros w0 target r w0'. apply IH.
  - apply emit_holds. done.
Qed.



(* ===================================================================== *)
(** * No duplicate delivery                                               *)
(* ===================================================================== *)

Lemma remove_first_count {A} (p q : A -> bool) (l : list A) :
  length (filter (fun x => q x = true) (Observer.remove_first p l))
  <= length (filter (fun x => q x = true) l).
Proof.
  induction l as [|x l IH]; simpl; [done|].
  rewrite (filter_cons _ x l). destruct (p x).
  - destruct (decide (q x = true)); simpl; lia.
  - rewrite filter_cons. destruct (decide (q x = true)); simpl; lia.
Qed.

Lemma cascade_fewer allowed w w' :
  cascade allowed w w' -> pointwise fewer w w'.
Proof.
  apply cascade_pointwise.
  - intros ob key l. done.
  - intros a b c H1 H2 key l. etrans; [apply H2|apply H1].
  - intros ob i _ _ key l. done.
  - intros ob key r _ key' l. unfold registrations.
    rewrite listeners_set_listeners.
    destruct (decide (key = key')) as [->|]; [|done].
    pose proof (remove_first_count
                  (fun r' => bool_decide (r' = r))
                  (fun r' => bool_decide (listener r' = l))
                  (Observer.listeners key' ob)) as H.
    erewrite (list_filter_iff _ (fun x => bool_decide (listener x = l) = true));
      [|intros x; by rewrite bool_decide_eq_true].
    erewrite (list_filter_iff _ (fun x => bool_decide (listener x = l) = true)
                (Observer.listeners key' ob));
      [|intros x; by rewrite bool_decide_eq_true].
    exact H.
Qed.

Lemma once_only_quiet e o fn w w' :
  cascade (fun i => i = id e) w w' ->
  deliveries o fn (id e) (trace w') = deliveries o fn (id e) (trace w) ->
  once_only e o fn w w'.
Proof. intros Hc Hd. split; [done|]. intros ob ob' _ _. lia. Qed.

Lemma once_only_refl e o fn w : once_only e o fn w w.
Proof. apply once_only_quiet; [apply rtc_refl|done]. Qed.

Lemma once_only_trans e o fn w1 w2 w3 :
  once_only e o fn w1 w2 -> once_only e o fn w2 w3 -> once_only e o fn w1 w3.
Proof.
  intros [Hc12 H12] [Hc23 H23]. split; [by etrans|].
  intros ob1 ob3 Hob1 Hob3.
  pose proof (cascade_plain e _ _ Hc12) as [_ Hp12].
  pose proof (cascade_plain e _ _ Hc23) as [_ Hp23].
  pose proof (cascade_fewer _ _ _ Hc12) as [_ Hf12].
  destruct (Hp12 o ob1 Hob1) as (ob2 & Hob2 & Hrel12).
  destruct (Hp23 o ob2 Hob2) as (ob3' & Hob3' & Hrel23).
  rewrite Hob3 in Hob3'. injection Hob3' as <-.
  destruct (Hf12 o ob1 Hob1) as (ob2' & Hob2' & Hfew).
  rewrite Hob2 in Hob2'. injection Hob2' as <-.
  specialize (H12 ob1 ob2 Hob1 Hob2). specialize (H23 ob2 ob3 Hob2 Hob3).
  specialize (Hfew (getRegisterableEventName (ByInstance e)) (Callback fn)).
  pose proof (plain_rel_keeps e ob1 ob2 Hrel12) as K12.
  pose proof (plain_rel_keeps e ob2 ob3 Hrel23) as K23.
  unfold cache_contains in *.
  repeat case_bool_decide; try lia; tauto.
Qed.

Lemma andThen_rel (R : World -> World -> Prop) {A B} (x : Outcome A)
  (k : A -> World -> Outcome B) w w' :
  (forall w1 w2 w3, R w1 w2 -> R w2 w3 -> R w1 w3) ->
  (forall w1, final x = Some w1 -> R w w1) ->
  (forall a w1 w2, x = Done a w1 -> final (k a w1) = Some w2 -> R w1 w2) ->
  final (andThen x k) = Some w' -> R w w'.
Proof.
  intros Htrans Hx Hk. destruct x as [a w1|w1|]; simpl; [|auto|done].
  intros H. eapply Htrans; [by apply Hx|by eapply Hk].
Qed.

Section OnceOnly.

Variable e : Event.
Hypothesis e_plain : emitted e = None.

Variables (o : ObsId) (fn : nat).

Variable emit_rec : World -> ObsId -> Event -> Outcome bool.

Hypothesis rec_once :
  forall w target w',
    final (emit_rec w target e) = Some w' -> once_only e o fn w w'.

(** The second dispatch of an emit: the EmitEvent goes to user functions,
    which is no delivery of [e], and to relay closures. *)
Lemma call_listener_once self l ev w w' :
  emitted ev = Some e ->
  final (call_listener emit_rec self l ev w) = Some w' ->
  once_only e o fn w w'.
Proof.
  intros Hev. destruct l as [f|f target]; simpl.
  - intros [= <-]. apply once_only_quiet; [apply rtc_once, step_log|].
    simpl. unfold wraps_nothing. rewrite Hev.
    by rewrite andb_false_r.
  - rewrite Hev. intros H.
    eapply (once_only_trans e o fn w (log (Relayed self target e) w)).
    { apply once_only_quiet; [apply rtc_once, step_log|done]. }
    revert H. apply andThen_rel.
    + apply once_only_trans.
    + apply rec_once.
    + intros a w1 w2 _ [= <-]. apply once_only_refl.
Qed.

Lemma run_listeners_once self key ev snapshot :
  emitted ev = Some e ->
  forall w w',
    final (run_listeners emit_rec self key snapshot ev w) = Some w' ->
    once_only e o fn w w'.
Proof.
  intros Hev. induction snapshot as [|r rest IH]; intros w w'; simpl.
  { intros [= <-]. apply once_only_refl. }
  assert (Hcont : forall w0,
    final
      (andThen (call_listener emit_rec self (listener r) ev w0)
         (fun _ w1 =>
            andThen (run_listeners emit_rec self key rest ev w1)
                    (fun _ w2 => Done true w2))) = Some w' ->
    once_only e o fn w0 w').
  { intros w0. apply andThen_rel.
    - apply once_only_trans.
    - intros w1. by apply call_listener_once.
    - intros a w1 w2 _. apply andThen_rel.
      + apply once_only_trans.
      + apply IH.
      + intros b w3 w4 _ [= <-]. apply once_only_refl. }
  destruct (runOnce r) eqn:Honce.
  - destruct (store w !! self) as [ob|] eqn:Hob.
    2: { intros [= <-]. apply once_only_refl. }
    case_bool_decide as Hmem; [|apply IH].
    intros H. apply Hcont in H.
    eapply once_only_trans; [|exact H].
    apply once_only_quiet; [|done].
    apply rtc_once. by eapply step_once.
  - apply Hcont.
Qed.

(** The first dispatch of an emit: [e] goes to the user functions
    registered for it, once per registration at most; a relay closure
    registered there fails. *)
Lemma run_listeners_first self key snapshot :
  forall w w',
    final (run_listeners emit_rec self key snapshot e w) = Some w' ->
    cascade (fun i => i = id e) w w' /\
    deliveries o fn (id e) (trace w')
    <= deliveries o fn (id e) (trace w)
       + (if decide (self = o)
          then length (filter (fun r => listener r = Callback fn) snapshot)
          else 0).
Proof.
  induction snapshot as [|r rest IH]; intros w w'; simpl.
  { intros [= <-]. split; [apply rtc_refl|lia]. }
  rewrite filter_cons.
  assert (Hcont : forall w0,
    final
      (andThen (call_listener emit_rec self (listener r) e w0)
         (fun _ w1 =>
            andThen (run_listeners emit_rec self key rest e w1)
                    (fun _ w2 => Done true w2))) = Some w' ->
    cascade (fun i => i = id e) w0 w' /\
    deliveries o fn (id e) (trace w')
    <= deliveries o fn (id e) (trace w0)
       + (if decide (self = o)
          then length
                 (if decide (listener r = Callback fn)
                  then r :: filter (fun r => listener r = Callback fn) rest
                  else filter (fun r => listener r = Callback fn) rest)
          else 0)).
  { intros w0. destruct (listener r) as [f|f target] eqn:Hl; simpl.
    - intros H.
      assert (Hrest : final (run_listeners emit_rec self key rest e
                               (log (Invoked self f e) w0)) = Some w').
      { destruct (run_listeners _ _ _ _ _ _); simpl in *; done. }
      apply IH in Hrest as [Hc Hd]. split.
      { eapply rtc_l; [apply step_log|exact Hc]. }
      simpl in Hd.
      destruct (decide (self = o)) as [->|Hne].
      + destruct (decide (Callback f = Callback fn)) as [[= ->]|Hf].
        * simpl. destruct (_ && _); lia.
        * rewrite andb_false_intro1 in Hd; [lia|].
          apply bool_decide_eq_false_2. intros (_ & -> & _). done.
      + rewrite andb_false_intro1 in Hd; [lia|].
        apply bool_decide_eq_false_2. intros (-> & _). done.
    - rewrite e_plain. simpl. intros [= <-]. split; [apply rtc_refl|lia]. }
  destruct (runOnce r) eqn:Honce.
  - destruct (store w !! self) as [ob|] eqn:Hob.
    2: { intros [= <-]. split; [apply rtc_refl|lia]. }
    case_bool_decide as Hmem.
    + intros H. apply Hcont in H as [Hc Hd]. split.
      * eapply rtc_l; [by eapply step_once|exact Hc].
      * exact Hd.
    + intros H. apply IH in H as [Hc Hd]. split; [done|].
      destruct (decide (self = o)); [|lia].
      destruct (decide (listener r = Callback fn)); simpl; lia.
  - apply Hcont.
Qed.

Lemma emit_body_once self w w' :
  final (emit_body emit_rec self e w) = Some w' -> once_only e o fn w w'.
Proof.
  unfold emit_body.
  destruct (store w !! self) as [ob|] eqn:Hob.
  2: { intros [= <-]. apply once_only_refl. }
  unfold cache_contains. case_bool_decide as Hin.
  { intros [= <-]. apply once_only_refl. }
  set (ob1 := with_cache _ ob). set (w1 := put self ob1 w).
  assert (Hob1 : store w1 !! self = Some ob1).
  { simpl. apply list_lookup_insert_eq. by eapply lookup_lt_Some. }
  assert (Hc01 : cascade (fun i => i = id e) w w1).
  { apply rtc_once. by eapply (step_cache _ self ob (id e)). }
  (* the gate and the first dispatch *)
  assert (HA : forall w2,
            final (dispatch emit_rec self e w1) = Some w2 ->
            once_only e o fn w w2).
  { intros w2 H. unfold dispatch in H. rewrite Hob1 in H.
    apply run_listeners_first in H as [Hc12 Hd].
    split; [by etrans|]. intros obo ob2 Hobo Hob2.
    change (trace w1) with (trace w) in Hd.
    destruct (decide (self = o)) as [<-|Hne]; [|lia].
    rewrite Hob in Hobo. injection Hobo as <-.
    apply cascade_plain in Hc12 as [_ Hp].
    destruct (Hp self ob1 Hob1) as (ob2' & Hob2' & Hrel).
    rewrite Hob2 in Hob2'. injection Hob2' as <-.
    assert (Hin2 : id e ∈ idCache ob2).
    { eapply plain_rel_keeps; [exact Hrel|]. apply cache_insert_elem. }
    unfold cache_contains.
    rewrite bool_decide_eq_false_2, bool_decide_eq_true_2 by done.
    exact Hd. }
  apply andThen_rel.
  - apply once_only_trans.
  - exact HA.
  - intros ret w2 w4 H1 H.
    destruct (EmitEvent_new e (guids w2)) as [invoked g'] eqn:Hnew.
    assert (Hev : emitted invoked = Some e).
    { unfold EmitEvent_new, Event_new in Hnew. simpl in Hnew.
      by injection Hnew as <- _. }
    set (w3 := mkWorld (store w2) g' (closures w2)
                 (Wrapped self invoked :: trace w2)) in *.
    eapply (once_only_trans e o fn w2 w3).
    { apply once_only_quiet; [|done]. apply rtc_once.
      pose proof (step_wrap (fun i => i = id e) self e w2) as Hs.
      rewrite Hnew in Hs. exact Hs. }
    revert H. apply andThen_rel.
    + apply once_only_trans.
    + intros w5 H5. unfold dispatch in H5.
      destruct (store w3 !! self); [|injection H5 as <-; apply once_only_refl].
      by eapply run_listeners_once.
    + intros b w5 w6 _ [= <-]. apply once_only_refl.
Qed.

End OnceOnly.

Lemma emit_once_only e o fn :
  emitted e = None ->
  forall fuel w self w',
    final (emit fuel w self e) = Some w' -> once_only e o fn w w'.
Proof.
  intros He. induction fuel as [|fuel IH]; intros w self w'; [done|].
  simpl. apply (emit_body_once e He o fn (emit fuel)).
  intros w0 target w0'. apply IH.
Qed.

Lemma deliveries_app o fn i t1 t2 :
  deliveries o fn i (t1 ++ t2) = deliveries o fn i t1 + deliveries o fn i t2.
Proof.
  induction t1 as [|a t1 IH]; simpl; [done|].
  destruct a; simpl; lia.
Qed.

Lemma deliveries_elem o fn e t :
  emitted e = None ->
  Invoked o fn e ∈ t -> 1 <= deliveries o fn (id e) t.
Proof.
  intros He. induction t as [|a t IH]; intros Hin.
  { by apply elem_of_nil in Hin. }
  apply elem_of_cons in Hin as [<-|Hin].
  - simpl. rewrite bool_decide_eq_true_2 by done.
    unfold wraps_nothing. rewrite He. simpl. lia.
  - specialize (IH Hin). destruct a; simpl; lia.
Qed.



(* ===================================================================== *)
(** * Binding and unbinding                                               *)
(* ===================================================================== *)

Lemma listeners_at_update s f w o key :
  listeners_at o key (update s f w)
  = if decide (s = o)
    then (fun ob => Observer.listeners key (f ob)) <$> store w !! o
    else listeners_at o key w.
Proof.
  unfold listeners_at. rewrite lookup_update.
  destruct (decide (s = o)); [|done]. by destruct (store w !! o).
Qed.

Lemma listeners_unregister key l ob key' :
  Observer.listeners key' (Observer.unregister key l ob)
  = if decide (key = key')
    then strip l (Observer.listeners key ob)
    else Observer.listeners key' ob.
Proof.
  unfold Observer.unregister.
  destruct (internalEmitter ob !! key) as [regs|] eqn:Hk.
  - rewrite listeners_set_listeners. unfold Observer.listeners at 2.
    by rewrite Hk.
  - destruct (decide (key = key')) as [<-|]; [|done].
    unfold Observer.listeners. by rewrite Hk.
Qed.

Lemma listeners_at_on s l w o key :
  listeners_at o key (update s (Observer.on (ByClass EmitEvent) l) w)
  = (fun regs =>
       if decide (s = o /\ key = EmitEvent_key)
       then regs ++ [{| listener := l; runOnce := false |}] else regs)
    <$> listeners_at o key w.
Proof.
  rewrite listeners_at_update. unfold listeners_at.
  destruct (decide (s = o)) as [->|Hne].
  - destruct (store w !! o) as [ob|]; [|done]. simpl. f_equal.
    unfold Observer.on. rewrite listeners_register.
    change (getRegisterableEventName (ByClass EmitEvent)) with EmitEvent_key.
    destruct (decide (EmitEvent_key = key)) as [<-|Hk].
    + by rewrite decide_True.
    + rewrite decide_False; [done|]. intros [_ ->]. done.
  - destruct (store w !! o) as [ob|]; [|done]. simpl.
    rewrite decide_False; [done|]. by intros [? _].
Qed.

Lemma listeners_at_removeListener s l w o key :
  listeners_at o key
    (update s (Observer.removeListener (ByClass EmitEvent) l) w)
  = (fun regs =>
       if decide (s = o /\ key = EmitEvent_key) then strip l regs else regs)
    <$> listeners_at o key w.
Proof.
  rewrite listeners_at_update. unfold listeners_at.
  destruct (decide (s = o)) as [->|Hne].
  - destruct (store w !! o) as [ob|]; [|done]. simpl. f_equal.
    unfold Observer.removeListener. rewrite listeners_unregister.
    change (getRegisterableEventName (ByClass EmitEvent)) with EmitEvent_key.
    destruct (decide (EmitEvent_key = key)) as [<-|Hk].
    + by rewrite decide_True.
    + rewrite decide_False; [done|]. intros [_ ->]. done.
  - destruct (store w !! o) as [ob|]; [|done]. simpl.
    rewrite decide_False; [done|]. by intros [? _].
Qed.

Lemma listeners_at_with_relays s g w o key :
  listeners_at o key (update s (fun ob => with_relays (g ob) ob) w)
  = listeners_at o key w.
Proof.
  rewrite listeners_at_update. destruct (decide (s = o)); [|done].
  unfold listeners_at. by destruct (store w !! o).
Qed.

(** [unbind] on the registries. *)
Lemma listeners_at_unbind self relay w o key :
  listeners_at o key (unbind self relay w)
  = match store w !! self ≫= (fun ob => relays ob !! relay) with
    | Some entry => unbound self relay entry o key <$> listeners_at o key w
    | None => listeners_at o key w
    end.
Proof.
  unfold unbind.
  destruct (store w !! self ≫= fun ob => relays ob !! relay) as [entry|];
    [|done].
  rewrite listeners_at_with_relays. unfold unbound.
  destruct (includes (relayFlags entry) RelayFrom),
           (includes (relayFlags entry) RelayTo);
    rewrite ?listeners_at_removeListener, <- ?option_fmap_compose;
    try done; by rewrite option_fmap_id.
Qed.

(** [bind] on the registries. *)
Lemma listeners_at_bind self relay flags w o key :
  is_Some (store w !! self) -> is_Some (store w !! relay) ->
  listeners_at o key (bind self relay flags w)
  = bound self relay (default RelayAll flags) (closures w) o key
    <$> listeners_at o key (unbind self relay w).
Proof.
  intros [obs Hs] [obr Hr]. unfold bind. rewrite Hs, Hr.
  unfold generateBubbleFunction. cbn [fst snd].
  rewrite closures_unbind.
  set (w0 := unbind self relay w).
  set (w2 := mkWorld (store w0) (guids w0) (S (S (closures w))) (trace w0)).
  assert (H2 : listeners_at o key w2 = listeners_at o key w0) by done.
  rewrite listeners_at_with_relays. unfold bound, relay_to.
  destruct (includes (default RelayAll flags) RelayFrom),
           (includes (default RelayAll flags) RelayTo);
    rewrite ?listeners_at_on, ?H2, <- ?option_fmap_compose;
    try done; by rewrite option_fmap_id.
Qed.

Section Frame.

Context {A : Type} (p : EventObserver -> A).
Hypothesis p_emitter : forall m ob, p (with_emitter m ob) = p ob.
Hypothesis p_relays : forall r ob, p (with_relays r ob) = p ob.

Lemma update_frame s f w o :
  (forall ob, p (f ob) = p ob) ->
  p <$> store (update s f w) !! o = p <$> store w !! o.
Proof.
  intros Hf. rewrite lookup_update. destruct (decide (s = o)); [|done].
  destruct (store w !! o); simpl; [|done]. by rewrite Hf.
Qed.

Lemma register_frame key l once prepend ob :
  p (Observer.register key l once prepend ob) = p ob.
Proof. apply p_emitter. Qed.

Lemma unregister_frame key l ob : p (Observer.unregister key l ob) = p ob.
Proof.
  unfold Observer.unregister. destruct (internalEmitter ob !! key); [|done].
  apply p_emitter.
Qed.

Lemma unbind_frame self relay w o :
  p <$> store (unbind self relay w) !! o = p <$> store w !! o.
Proof.
  unfold unbind.
  destruct (store w !! self ≫= fun ob => relays ob !! relay) as [entry|];
    [|done].
  rewrite update_frame by (intros; apply p_relays).
  destruct (includes _ RelayFrom), (includes _ RelayTo);
    rewrite ?update_frame; try done; intros; apply unregister_frame.
Qed.

Lemma bind_frame self relay flags w o :
  p <$> store (bind self relay flags w) !! o = p <$> store w !! o.
Proof.
  unfold bind. destruct (store w !! self); [|done].
  destruct (store w !! relay); [|done].
  unfold generateBubbleFunction. cbn [fst snd].
  rewrite update_frame by (intros; apply p_relays).
  destruct (includes _ RelayFrom), (includes _ RelayTo);
    rewrite ?update_frame; try (intros; apply register_frame);
    simpl; apply unbind_frame.
Qed.

End Frame.

Lemma closures_bind self relay flags w :
  is_Some (store w !! self) -> is_Some (store w !! relay) ->
  closures (bind self relay flags w) = S (S (closures w)).
Proof.
  intros [obs Hs] [obr Hr]. unfold bind. rewrite Hs, Hr.
  unfold generateBubbleFunction. cbn [fst snd].
  rewrite closures_update.
  destruct (includes _ RelayFrom), (includes _ RelayTo);
    rewrite ?closures_update; simpl; by rewrite closures_unbind.
Qed.

Lemma trace_update s f w : trace (update s f w) = trace w.
Proof. unfold update. by destruct (store w !! s). Qed.

Lemma guids_update s f w : guids (update s f w) = guids w.
Proof. unfold update. by destruct (store w !! s). Qed.

Lemma trace_guids_unbind self relay w :
  trace (unbind self relay w) = trace w /\
  guids (unbind self relay w) = guids w.
Proof.
  unfold unbind.
  destruct (store w !! self ≫= fun ob => relays ob !! relay) as [entry|];
    [|done].
  rewrite trace_update, guids_update.
  destruct (includes _ RelayFrom), (includes _ RelayTo);
    by rewrite ?trace_update, ?guids_update.
Qed.

Lemma trace_guids_bind self relay flags w :
  trace (bind self relay flags w) = trace w /\
  guids (bind self relay flags w) = guids w.
Proof.
  unfold bind. destruct (store w !! self); [|done].
  destruct (store w !! relay); [|done].
  unfold generateBubbleFunction. cbn [fst snd].
  rewrite trace_update, guids_update.
  destruct (includes _ RelayFrom), (includes _ RelayTo);
    rewrite ?trace_update, ?guids_update; simpl;
    apply trace_guids_unbind.
Qed.

Lemma strip_subset l regs r : r ∈ strip l regs -> r ∈ regs.
Proof. apply remove_first_subset. Qed.

Lemma unbound_subset self relay entry o key regs r :
  r ∈ unbound self relay entry o key regs -> r ∈ regs.
Proof.
  unfold unbound.
  destruct (includes _ RelayFrom), (includes _ RelayTo);
    repeat case_decide; eauto using strip_subset.
Qed.

Lemma bound_elem self relay direction c o key regs r :
  r ∈ bound self relay direction c o key regs ->
  r ∈ regs \/
  (key = EmitEvent_key /\ (r = relay_to c relay \/ r = relay_to (S c) self)).
Proof.
  unfold bound. intros H.
  destruct (includes direction RelayFrom), (includes direction RelayTo);
    repeat case_decide;
    repeat (apply elem_of_app in H as [H|H]);
    try (apply list_elem_of_singleton in H); tauto.
Qed.

Lemma bound_grows self relay direction c o key regs r :
  r ∈ regs -> r ∈ bound self relay direction c o key regs.
Proof.
  unfold bound. intros H.
  destruct (includes direction RelayFrom), (includes direction RelayTo);
    repeat case_decide; rewrite ?elem_of_app; tauto.
Qed.

Lemma listeners_at_Some o key w ob :
  store w !! o = Some ob ->
  listeners_at o key w = Some (Observer.listeners key ob).
Proof. intros H. unfold listeners_at. by rewrite H. Qed.

Lemma listeners_at_elem o key w regs :
  listeners_at o key w = Some regs ->
  exists ob, store w !! o = Some ob /\ Observer.listeners key ob = regs.
Proof.
  unfold listeners_at. destruct (store w !! o) as [ob|]; [|done].
  intros [= <-]. eauto.
Qed.

(** The closures in the registries are those [bind] has numbered. *)
Lemma closures_fresh_update s f w :
  closures_fresh w ->
  (forall ob key r fn target,
     r ∈ Observer.listeners key (f ob) ->
     listener r = Bubble fn target ->
     r ∈ Observer.listeners key ob) ->
  closures_fresh (update s f w).
Proof.
  intros Hv Hf i ob' key r fn target Hob' Hr Hl.
  rewrite closures_update. rewrite lookup_update in Hob'.
  destruct (decide (s = i)) as [->|Hne]; [|by eapply Hv].
  destruct (store w !! i) as [ob|] eqn:Hob; [|done].
  simpl in Hob'. injection Hob' as <-.
  eapply Hv; [exact Hob| |exact Hl]. by eapply Hf.
Qed.

Lemma closures_fresh_unbind self relay w :
  closures_fresh w -> closures_fresh (unbind self relay w).
Proof.
  intros Hv i ob' key r fn target Hob' Hr Hl. rewrite closures_unbind.
  pose proof (listeners_at_unbind self relay w i key) as Hu.
  rewrite (listeners_at_Some _ _ _ _ Hob') in Hu.
  destruct (store w !! self ≫= _) as [entry|].
  - destruct (listeners_at i key w) as [regs|] eqn:Hregs; [|done].
    injection Hu as Hu. apply listeners_at_elem in Hregs as (ob & Hob & <-).
    eapply Hv; [exact Hob| |exact Hl].
    eapply unbound_subset. by rewrite <- Hu.
  - symmetry in Hu. apply listeners_at_elem in Hu as (ob & Hob & Hu).
    eapply Hv; [exact Hob| |exact Hl]. by rewrite Hu.
Qed.

Lemma closures_fresh_bind self relay flags w :
  closures_fresh w -> closures_fresh (bind self relay flags w).
Proof.
  intros Hv.
  destruct (store w !! self) as [obs|] eqn:Hs.
  2: { unfold bind. by rewrite Hs. }
  destruct (store w !! relay) as [obr|] eqn:Hr.
  2: { unfold bind. by rewrite Hs, Hr. }
  intros i ob' key r fn target Hob' Hin Hl.
  rewrite closures_bind by eauto.
  pose proof (listeners_at_bind self relay flags w i key
                (ltac:(eauto)) (ltac:(eauto))) as Hb.
  rewrite (listeners_at_Some _ _ _ _ Hob') in Hb.
  destruct (listeners_at i key (unbind self relay w)) as [regs|] eqn:Hregs;
    [|done].
  injection Hb as Hb. rewrite Hb in Hin.
  apply bound_elem in Hin as [Hin|[_ [-> | ->]]].
  - apply listeners_at_elem in Hregs as (ob & Hob & <-).
    pose proof (closures_fresh_unbind self relay w Hv i ob key r fn target
                  Hob Hin Hl) as Hlt.
    rewrite closures_unbind in Hlt. lia.
  - injection Hl as <- _. lia.
  - injection Hl as <- _. lia.
Qed.

Lemma apply_op_closures_fresh op w w' :
  closures_fresh w -> apply_op op w = Some w' -> closures_fresh w'.
Proof.
  intros Hv. destruct op; simpl.
  - intros [= <-]. intros i ob key r fn target Hob Hr Hl. simpl in *.
    apply lookup_app_Some in Hob as [Hob|[_ Hob]].
    + by eapply Hv.
    + apply list_lookup_singleton_Some in Hob as [_ <-].
      unfold Observer.listeners in Hr. simpl in Hr.
      rewrite lookup_empty in Hr. by apply elem_of_nil in Hr.
  - intros [= <-]. apply closures_fresh_update; [done|]. by intros.
  - intros [= <-]. apply closures_fresh_update; [done|]. by intros.
  - intros [= <-]. apply closures_fresh_update; [done|].
    intros ob key r fn' target Hr Hl.
    apply register_relays in Hr as [Hr|[_ ->]]; done.
  - intros [= <-]. apply closures_fresh_update; [done|].
    intros ob key r fn' target Hr Hl.
    apply register_relays in Hr as [Hr|[_ ->]]; done.
  - intros [= <-]. apply closures_fresh_update; [done|].
    intros ob key r fn' target Hr Hl.
    apply register_relays in Hr as [Hr|[_ ->]]; done.
  - intros [= <-]. apply closures_fresh_update; [done|].
    intros ob key r fn' target Hr Hl.
    apply register_relays in Hr as [Hr|[_ ->]]; done.
  - intros [= <-]. apply closures_fresh_update; [done|].
    intros ob key r fn' target Hr _. by eapply unregister_shrinks.
  - intros [= <-]. apply closures_fresh_update; [done|].
    intros ob key r fn' target Hr _. by eapply removeAllListeners_shrinks.
  - intros H. apply apply_op_emit in H.
    assert (Hc : cascade (fun _ => True) w w').
    { eapply (emit_cascade (fun _ => True)); [|done]. done. }
    pose proof (cascade_frame _ _ _ Hc) as (Hcl & _).
    apply cascade_shrinks in Hc as [Hlen Hc].
    intros i ob' key r fn target Hob' Hr Hl. rewrite Hcl.
    destruct (lookup_lt_is_Some_2 (store w) i) as [ob Hob].
    { rewrite <- Hlen. by eapply lookup_lt_Some. }
    destruct (Hc i ob Hob) as (ob2 & Hob2 & Hsh).
    rewrite Hob' in Hob2. injection Hob2 as <-.
    eapply Hv; [exact Hob| |exact Hl]. by apply Hsh.
  - intros [= <-]. by apply closures_fresh_bind.
  - intros [= <-]. by apply closures_fresh_unbind.
Qed.

Lemma reachable_closures_fresh w : reachable w -> closures_fresh w.
Proof.
  intros (g & ops & Hrun).
  assert (Hgen : forall ops w0 w1,
            closures_fresh w0 -> run ops w0 = Some w1 -> closures_fresh w1).
  { clear. induction ops as [|op ops IH]; intros w0 w1 Hv; simpl.
    - by intros [= <-].
    - destruct (apply_op op w0) as [w2|] eqn:H2; [|done].
      apply IH. by eapply apply_op_closures_fresh. }
  apply (Hgen ops (emptyWorld g)); [|done].
  intros i ob key r fn target Hob. done.
Qed.

Lemma unbound_other_key self relay entry o key regs :
  key <> EmitEvent_key -> unbound self relay entry o key regs = regs.
Proof.
  intros Hk. unfold unbound.
  destruct (includes _ RelayFrom), (includes _ RelayTo);
    repeat case_decide; tauto.
Qed.

Lemma bound_other_key self relay direction c o key regs :
  key <> EmitEvent_key -> bound self relay direction c o key regs = regs.
Proof.
  intros Hk. unfold bound.
  destruct (includes _ RelayFrom), (includes _ RelayTo);
    repeat case_decide; tauto.
Qed.

Lemma bound_To self relay direction c regs :
  includes direction RelayTo = true ->
  relay_to c relay ∈ bound self relay direction c self EmitEvent_key regs.
Proof.
  intros H. unfold bound. rewrite H.
  rewrite (decide_True (P := self = self /\ _)) by done.
  destruct (includes direction RelayFrom); [case_decide|];
    rewrite ?elem_of_app, ?list_elem_of_singleton; tauto.
Qed.

Lemma bound_From self relay direction c regs :
  includes direction RelayFrom = true ->
  relay_to (S c) self
  ∈ bound self relay direction c relay EmitEvent_key regs.
Proof.
  intros H. unfold bound. rewrite H.
  rewrite (decide_True (P := relay = relay /\ _)) by done.
  rewrite elem_of_app, list_elem_of_singleton. tauto.
Qed.

Lemma bound_without_To self relay direction c key regs :
  self <> relay ->
  includes direction RelayTo = false ->
  bound self relay direction c self key regs = regs.
Proof.
  intros Hne H. unfold bound. rewrite H.
  destruct (includes direction RelayFrom); [|done].
  rewrite decide_False; [done|]. intros [E _]. by apply Hne.
Qed.

Lemma bound_without_From self relay direction c key regs :
  self <> relay ->
  includes direction RelayFrom = false ->
  bound self relay direction c relay key regs = regs.
Proof.
  intros Hne H. unfold bound. rewrite H.
  destruct (includes direction RelayTo); [|done].
  rewrite decide_False; [done|]. intros [E _]. by apply Hne.
Qed.

(** What [bind] leaves of an observer: its cache, its limit and its
    listeners for the keys other than the EmitEvent key; under the
    EmitEvent key, the relay closures of the direction are there. *)
Lemma bind_observer self relay flags w o ob :
  is_Some (store w !! self) -> is_Some (store w !! relay) ->
  store w !! o = Some ob ->
  exists ob1,
    store (bind self relay flags w) !! o = Some ob1 /\
    idCache ob1 = idCache ob /\
    idCacheLimit ob1 = idCacheLimit ob /\
    (forall key, key <> EmitEvent_key ->
       Observer.listeners key ob1 = Observer.listeners key ob) /\
    (forall key,
       exists regs,
         (forall r, r ∈ regs -> r ∈ Observer.listeners key ob) /\
         Observer.listeners key ob1
         = bound self relay (default RelayAll flags) (closures w) o key regs).
Proof.
  intros Hs Hr Hob.
  destruct (lookup_lt_is_Some_2 (store (bind self relay flags w)) o)
    as [ob1 Hob1].
  { rewrite length_bind. by eapply lookup_lt_Some. }
  exists ob1. split; [done|].
  pose proof (bind_frame idCache (fun _ _ => eq_refl) (fun _ _ => eq_refl)
                self relay flags w o) as Hc.
  pose proof (bind_frame idCacheLimit (fun _ _ => eq_refl)
                (fun _ _ => eq_refl) self relay flags w o) as Hl.
  rewrite Hob1, Hob in Hc, Hl. simpl in Hc, Hl.
  injection Hc as Hc. injection Hl as Hl.
  split; [done|]. split; [done|].
  assert (Hkeys : forall key,
    exists regs,
      (forall r, r ∈ regs -> r ∈ Observer.listeners key ob) /\
      Observer.listeners key ob1
      = bound self relay (default RelayAll flags) (closures w) o key regs).
  { intros key.
    pose proof (listeners_at_bind self relay flags w o key Hs Hr) as Hb.
    pose proof (listeners_at_unbind self relay w o key) as Hu.
    rewrite (listeners_at_Some _ _ _ _ Hob1) in Hb.
    rewrite (listeners_at_Some _ _ _ _ Hob) in Hu.
    destruct (listeners_at o key (unbind self relay w)) as [regs|]; [|done].
    injection Hb as Hb. exists regs. split; [|done].
    destruct (store w !! self ≫= _) as [entry|]; simpl in Hu.
    - injection Hu as ->. intros r. apply unbound_subset.
    - by injection Hu as ->. }
  split; [|done].
  intros key Hk.
  pose proof (listeners_at_unbind self relay w o key) as Hu.
  pose proof (listeners_at_bind self relay flags w o key Hs Hr) as Hb.
  rewrite (listeners_at_Some _ _ _ _ Hob1) in Hb.
  rewrite (listeners_at_Some _ _ _ _ Hob) in Hu.
  destruct (listeners_at o key (unbind self relay w)) as [regs|]; [|done].
  injection Hb as ->. rewrite bound_other_key by done.
  destruct (store w !! self ≫= _) as [entry|]; simpl in Hu.
  - injection Hu as ->. by rewrite unbound_other_key.
  - by injection Hu as ->.
Qed.


(** An observer that holds a relay closure for [b] passes its events on
    to [b]. *)
Lemma relays_events fuel w a b e oba obb fn :
  reachable w ->
  emitted e = None ->
  getRegisterableEventName (ByInstance e) <> EmitEvent_key ->
  store w !! a = Some oba ->
  store w !! b = Some obb ->
  id e ∉ idCache oba ->
  id e ∉ idCache obb ->
  relay_to fn b ∈ Observer.listeners EmitEvent_key oba ->
  (uncached e w < fuel -> exists ret w', emit fuel w a e = Done ret w') /\
  (forall ret w',
     emit fuel w a e = Done ret w' ->
     exists new,
       trace w' = new ++ trace w /\
       Relayed a b e ∈ new /\
       forall g,
         persistent g
         ∈ Observer.listeners (getRegisterableEventName (ByInstance e)) obb ->
         Invoked b g e ∈ new).
Proof.
  intros Hr He Hkey Ha Hb Hina Hinb Hfn. split.
  { intros Hlt. apply emit_returns; try done.
    - by apply reachable_relays_valid.
    - by eapply lookup_lt_Some. }
  intros ret w' Hemit.
  destruct (emit_relays fuel w a b e oba fn ret w' He Ha Hina Hfn Hemit)
    as (new & target' & Htr & Hrel & _ & _ & Hcalls).
  exists new. split; [done|]. split; [done|].
  intros g Hg. by eapply Hcalls.
Qed.



(** A binding whose direction does not include the direction away from an
    observer gives that observer no relay closure. *)
Lemma bind_adds_nothing self relay flags w a oba :
  is_Some (store w !! self) -> is_Some (store w !! relay) ->
  self <> relay ->
  store w !! a = Some oba ->
  (a = self /\ includes (default RelayAll flags) RelayTo = false) \/
  (a = relay /\ includes (default RelayAll flags) RelayFrom = false) \/
  (a <> self /\ a <> relay) ->
  exists oba1,
    store (bind self relay flags w) !! a = Some oba1 /\
    idCache oba1 = idCache oba /\
    (forall key, key <> EmitEvent_key ->
       Observer.listeners key oba1 = Observer.listeners key oba) /\
    forall key r,
      r ∈ Observer.listeners key oba1 -> r ∈ Observer.listeners key oba.
Proof.
  intros Hs Hr Hne Ha Hcase.
  destruct (bind_observer self relay flags w a oba Hs Hr Ha)
    as (oba1 & Ha1 & Hc & _ & Hk & Hl).
  exists oba1. split; [done|]. split; [done|]. split; [done|].
  intros key r Hin. destruct (Hl key) as (regs & Hsub & Hregs).
  rewrite Hregs in Hin. apply Hsub.
  destruct Hcase as [[-> Hdir]|[[-> Hdir]|[H1 H2]]].
  - by rewrite bound_without_To in Hin.
  - by rewrite bound_without_From in Hin.
  - unfold bound in Hin.
    rewrite (decide_False (P := self = a /\ _)) in Hin
      by (intros [E _]; by apply H1).
    rewrite (decide_False (P := relay = a /\ _)) in Hin
      by (intros [E _]; by apply H2).
    by destruct (includes _ RelayFrom), (includes _ RelayTo).
Qed.



Lemma strip_app_fresh l once regs rest :
  (forall r, r ∈ regs -> listener r <> l) ->
  strip l (regs ++ {| listener := l; runOnce := once |} :: rest)
  = regs ++ rest.
Proof.
  unfold strip. induction regs as [|r regs IH]; intros Hfresh; simpl.
  - by rewrite bool_decide_eq_true_2.
  - rewrite bool_decide_eq_false_2 by (apply Hfresh; left).
    rewrite IH; [done|]. intros r' Hr'. apply Hfresh. by right.
Qed.

(** [unbind] removes exactly the closures [bind] has added, when their
    numbers are new. *)
Lemma unbound_bound self relay direction c o key regs :
  (forall r fn target,
     r ∈ regs -> listener r = Bubble fn target -> fn < c) ->
  unbound self relay
    {| relayFlags := direction; fromBubble := Bubble (S c) self;
       toBubble := Bubble c relay |} o key
    (bound self relay direction c o key regs)
  = regs.
Proof.
  intros Hfresh.
  assert (Hto : forall r, r ∈ regs -> listener r <> Bubble c relay).
  { intros r Hr E. specialize (Hfresh r c relay Hr E). lia. }
  assert (Hfrom : forall r, r ∈ regs -> listener r <> Bubble (S c) self).
  { intros r Hr E. specialize (Hfresh r (S c) self Hr E). lia. }
  unfold unbound, bound, relay_to. cbn [relayFlags toBubble fromBubble].
  destruct (includes direction RelayTo), (includes direction RelayFrom);
    repeat case_decide; try done;
    rewrite <- ?app_assoc; cbn [app];
    rewrite ?(strip_app_fresh _ false regs) by done;
    by rewrite ?app_nil_r.
Qed.

Lemma lookup_relays_at self relay w :
  store w !! self ≫= (fun ob => relays ob !! relay)
  = relays_at self w ≫= (fun m => m !! relay).
Proof. unfold relays_at. by destruct (store w !! self). Qed.

Lemma unbind_unbound self relay w :
  store w !! self ≫= (fun ob => relays ob !! relay) = None ->
  unbind self relay w = w.
Proof. intros H. unfold unbind. by rewrite H. Qed.

Lemma unbind_idempotent self relay w :
  unbind self relay (unbind self relay w) = unbind self relay w.
Proof.
  apply unbind_unbound. rewrite lookup_relays_at, relays_at_unbind.
  destruct (decide (self = self)); [|done].
  destruct (relays_at self w) as [m|]; [|done]. simpl.
  apply lookup_delete_eq.
Qed.

(** The observers after [bind] then [unbind] are those after [unbind]
    alone. *)
Lemma unbind_bind_same w self relay flags :
  closures_fresh w ->
  is_Some (store w !! self) ->
  is_Some (store w !! relay) ->
  pointwise (same_but_keys [])
    (unbind self relay w)
    (unbind self relay (bind self relay flags w)).
Proof.
  intros Hfr Hs Hrl.
  set (w0 := unbind self relay w).
  set (w1 := bind self relay flags w).
  set (w2 := unbind self relay w1).
  assert (Hfresh : closures_fresh w0) by (by apply closures_fresh_unbind).
  assert (Hentry :
    store w1 !! self ≫= (fun ob => relays ob !! relay)
    = Some {| relayFlags := default RelayAll flags;
              fromBubble := Bubble (S (closures w)) self;
              toBubble := Bubble (closures w) relay |}).
  { rewrite lookup_relays_at. unfold w1. rewrite relays_at_bind by done.
    destruct (decide (self = self)); [|done].
    destruct Hs as [obs Hs]. unfold relays_at. rewrite Hs. simpl.
    apply lookup_insert_eq. }
  split.
  { unfold w2, w1, w0. by rewrite !length_unbind, length_bind. }
  intros o ob0 Hob0.
  destruct (lookup_lt_is_Some_2 (store w2) o) as [ob2 Hob2].
  { unfold w2, w1. rewrite length_unbind, length_bind.
    rewrite <- (length_unbind self relay w). by eapply lookup_lt_Some. }
  exists ob2. split; [done|].
  assert (Hp : forall {A} (p : EventObserver -> A),
            (forall m ob, p (with_emitter m ob) = p ob) ->
            (forall r ob, p (with_relays r ob) = p ob) ->
            p ob2 = p ob0).
  { intros A p H1 H2.
    pose proof (unbind_frame p H1 H2 self relay w1 o) as E2.
    pose proof (bind_frame p H1 H2 self relay flags w o) as E1.
    pose proof (unbind_frame p H1 H2 self relay w o) as E0.
    fold w2 in E2. fold w1 in E1, E2. fold w0 in E0.
    rewrite Hob2, E1, <- E0, Hob0 in E2. simpl in E2. by injection E2. }
  split; [|split; [by apply Hp|split; [by apply Hp|]]].
  - (* the binding table *)
    assert (E : relays_at o w2 = relays_at o w0).
    { unfold w2, w0. rewrite !relays_at_unbind. unfold w1.
      rewrite relays_at_bind by done.
      destruct (decide (self = o)) as [->|]; [|done].
      destruct (relays_at o w) as [m|]; [|done].
      by rewrite delete_insert_eq. }
    unfold relays_at in E. rewrite Hob2, Hob0 in E. simpl in E.
    by injection E.
  - (* the registry *)
    intros key _.
    pose proof (listeners_at_unbind self relay w1 o key) as E2.
    fold w2 in E2. rewrite Hentry in E2.
    pose proof (listeners_at_bind self relay flags w o key Hs Hrl) as E1.
    fold w1 w0 in E1. rewrite E1 in E2.
    rewrite (listeners_at_Some _ _ _ _ Hob2) in E2.
    rewrite (listeners_at_Some _ _ _ _ Hob0) in E2. simpl in E2.
    injection E2 as ->. apply unbound_bound.
    intros r fn target Hin Hl.
    rewrite <- (closures_unbind self relay w). by eapply Hfresh.
Qed.

(** X9.  [unbind] undoes [bind]: in a state reached through the
    interface, [bind(self, relay, direction)] followed by
    [unbind(self, relay)] leaves every observer with the listeners, the
    binding table, the cache and the limit that [unbind(self, relay)]
    alone leaves; [unbind] of an observer that is not bound changes
    nothing, and a second [unbind] changes nothing. *)
Theorem unbind_undoes_bind (w : World) (self relay : ObsId)
  (flags : option RelayFlags) :
  reachable w ->
  is_Some (store w !! self) ->
  is_Some (store w !! relay) ->
  pointwise (same_but_keys [])
    (unbind self relay w)
    (unbind self relay (bind self relay flags w)) /\
  trace (unbind self relay (bind self relay flags w)) = trace w /\
  guids (unbind self relay (bind self relay flags w)) = guids w /\
  (checkBinding self relay w = None -> unbind self relay w = w) /\
  unbind self relay (unbind self relay w) = unbind self relay w.
Proof.
  intros Hr Hs Hrl.
  split; [|split; [|split; [|split]]].
  - apply unbind_bind_same; [|done|done]. by apply reachable_closures_fresh.
  - destruct (trace_guids_unbind self relay (bind self relay flags w)) as [-> _].
    by destruct (trace_guids_bind self relay flags w) as [-> _].
  - destruct (trace_guids_unbind self relay (bind self relay flags w)) as [_ ->].
    by destruct (trace_guids_bind self relay flags w) as [_ ->].
  - intros Hc. apply unbind_unbound.
    unfold checkBinding, Observer.checkBinding in Hc.
    destruct (store w !! self) as [ob|]; simpl in *; [|done].
    by destruct (relays ob !! relay).
  - apply unbind_idempotent.
Qed.

Lemma unbind_undoes_bind_witness :
  pointwise (same_but_keys [])
    Usage.apart (unbind 0 1 (bind 0 1 None Usage.apart)).
Proof.
  destruct (unbind_undoes_bind Usage.apart 0 1 None)
    as (Hsame & _ & _ & Hnoop & _).
  - exists Scenario.counter3.
    exists [ OpNew 100; OpNew 100; OpOn 0 (ByClass Scenario.Ping) 10;
             OpOn 1 (ByClass Scenario.Ping) 20 ].
    vm_compute. reflexivity.
  - vm_compute. eauto.
  - vm_compute. eauto.
  - rewrite Hnoop in Hsame by reflexivity. exact Hsame.
Defined.

Lemma count_bubbles_app l1 l2 :
  count_bubbles (l1 ++ l2) = count_bubbles l1 + count_bubbles l2.
Proof. induction l1 as [|r l1 IH]; simpl; [done|]. rewrite IH. lia. Qed.

Lemma count_bubbles_bound self relay direction c o key regs :
  count_bubbles (bound self relay direction c o key regs)
  = count_bubbles regs
    + (if includes direction RelayTo
       then (if decide (self = o /\ key = EmitEvent_key) then 1 else 0)
       else 0)
    + (if includes direction RelayFrom
       then (if decide (relay = o /\ key = EmitEvent_key) then 1 else 0)
       else 0).
Proof.
  unfold bound.
  destruct (includes direction RelayTo), (includes direction RelayFrom);
    repeat case_decide; rewrite ?count_bubbles_app; simpl; lia.
Qed.

(** X10.  Binding again replaces the binding: in a state reached through
    the interface, [bind(self, relay, first)] followed by
    [bind(self, relay, second)] leaves every observer with as many
    listeners and as many relay closures under each key as
    [bind(self, relay, second)] alone, with the same listeners under the
    keys other than the EmitEvent key, the same cache and limit, and the
    same answer of [checkBinding]. *)
Theorem bind_again_replaces (w : World) (self relay : ObsId)
  (first second : option RelayFlags) (o : ObsId) (key : string)
  (once again : EventObserver) :
  reachable w ->
  is_Some (store w !! self) ->
  is_Some (store w !! relay) ->
  store (bind self relay second w) !! o = Some once ->
  store (bind self relay second (bind self relay first w)) !! o
  = Some again ->
  count_bubbles (Observer.listeners key again)
  = count_bubbles (Observer.listeners key once) /\
  length (Observer.listeners key again)
  = length (Observer.listeners key once) /\
  (key <> EmitEvent_key ->
   Observer.listeners key again = Observer.listeners key once) /\
  idCache again = idCache once /\
  idCacheLimit again = idCacheLimit once /\
  checkBinding self relay (bind self relay second (bind self relay first w))
  = checkBinding self relay (bind self relay second w).
Proof.
  intros Hr Hs Hrl Honce Hagain.
  set (w1 := bind self relay first w) in *.
  assert (Hs1 : is_Some (store w1 !! self)).
  { apply lookup_lt_is_Some. unfold w1. rewrite length_bind.
    by apply lookup_lt_is_Some. }
  assert (Hrl1 : is_Some (store w1 !! relay)).
  { apply lookup_lt_is_Some. unfold w1. rewrite length_bind.
    by apply lookup_lt_is_Some. }
  pose proof (reachable_closures_fresh w Hr) as Hfr.
  destruct (unbind_bind_same w self relay first Hfr Hs Hrl) as [_ Hsame].
  fold w1 in Hsame.
  assert (Hregs : forall key,
    exists regs,
      Observer.listeners key once
      = bound self relay (default RelayAll second) (closures w) o key regs /\
      Observer.listeners key again
      = bound self relay (default RelayAll second) (closures w1) o key regs).
  { intros k.
    pose proof (listeners_at_bind self relay second w o k Hs Hrl) as E1.
    pose proof (listeners_at_bind self relay second w1 o k Hs1 Hrl1) as E2.
    rewrite (listeners_at_Some _ _ _ _ Honce) in E1.
    rewrite (listeners_at_Some _ _ _ _ Hagain) in E2.
    destruct (listeners_at o k (unbind self relay w)) as [regs|] eqn:H0;
      [|done].
    apply listeners_at_elem in H0 as (ob0 & Hob0 & <-).
    destruct (Hsame o ob0 Hob0) as (ob0' & Hob0' & _ & _ & _ & Hl).
    rewrite (listeners_at_Some _ _ _ _ Hob0') in E2.
    rewrite Hl in E2 by apply not_elem_of_nil.
    simpl in E1, E2. injection E1 as E1. injection E2 as E2. eauto. }
  split; [|split; [|split; [|split; [|split]]]].
  - destruct (Hregs key) as (regs & -> & ->).
    by rewrite !count_bubbles_bound.
  - destruct (Hregs key) as (regs & -> & ->). unfold bound.
    destruct (includes _ RelayTo), (includes _ RelayFrom);
      repeat case_decide; by rewrite ?length_app.
  - intros Hk. destruct (Hregs key) as (regs & -> & ->).
    by rewrite !bound_other_key.
  - pose proof (bind_frame idCache (fun _ _ => eq_refl) (fun _ _ => eq_refl)
                  self relay second w1 o) as E2.
    pose proof (bind_frame idCache (fun _ _ => eq_refl) (fun _ _ => eq_refl)
                  self relay first w o) as E1.
    pose proof (bind_frame idCache (fun _ _ => eq_refl) (fun _ _ => eq_refl)
                  self relay second w o) as E0.
    fold w1 in E1. rewrite Hagain, E1, <- E0, Honce in E2.
    simpl in E2. by injection E2.
  - pose proof (bind_frame idCacheLimit (fun _ _ => eq_refl)
                  (fun _ _ => eq_refl) self relay second w1 o) as E2.
    pose proof (bind_frame idCacheLimit (fun _ _ => eq_refl)
                  (fun _ _ => eq_refl) self relay first w o) as E1.
    pose proof (bind_frame idCacheLimit (fun _ _ => eq_refl)
                  (fun _ _ => eq_refl) self relay second w o) as E0.
    fold w1 in E1. rewrite Hagain, E1, <- E0, Honce in E2.
    simpl in E2. by injection E2.
  - rewrite !checkBinding_relays_at, !relays_at_bind by done.
    destruct (decide (self = self)); [|done]. unfold w1.
    rewrite relays_at_bind by done.
    destruct (decide (self = self)); [|done].
    destruct (relays_at self w) as [m|]; [|done]. simpl.
    by rewrite !lookup_insert_eq.
Qed.

Lemma bind_again_replaces_witness :
  installed_relays
    (default (newObserver 0)
       (store (bind 0 1 None (bind 0 1 (Some RelayTo) Usage.apart)) !! 0))
  = installed_relays
      (default (newObserver 0) (store (bind 0 1 None Usage.apart) !! 0)).
Proof.
  refine (proj1 (bind_again_replaces Usage.apart 0 1 (Some RelayTo) None 0
                   EmitEvent_key _ _ _ _ _ _ _)).
  - exists Scenario.counter3.
    exists [ OpNew 100; OpNew 100; OpOn 0 (ByClass Scenario.Ping) 10;
             OpOn 1 (ByClass Scenario.Ping) 20 ].
    vm_compute. reflexivity.
  - vm_compute. eauto.
  - vm_compute. eauto.
  - reflexivity.
  - reflexivity.
Defined.

(* ===================================================================== *)
(** * The registry                                                        *)
(* ===================================================================== *)

Lemma strip_count l l' regs :
  length (filter (fun r => listener r = l') (strip l regs))
  = length (filter (fun r => listener r = l') regs)
    - (if decide (l' = l) then 1 else 0).
Proof.
  unfold strip. induction regs as [|r regs IH]; cbn [Observer.remove_first].
  { by destruct (decide (l' = l)). }
  rewrite (filter_cons _ r regs). case_bool_decide as Hr.
  - destruct (decide (listener r = l')) as [E|E]; cbn [length].
    + rewrite decide_True by congruence. lia.
    + rewrite decide_False by congruence. lia.
  - rewrite filter_cons.
    destruct (decide (listener r = l')) as [E|E]; cbn [length].
    + rewrite IH, decide_False by congruence. lia.
    + rewrite IH. lia.
Qed.

Lemma registrations_register key l once prepend ob key' l' :
  registrations key' l' (Observer.register key l once prepend ob)
  = registrations key' l' ob
    + (if decide (key' = key /\ l' = l) then 1 else 0).
Proof.
  unfold registrations. rewrite listeners_register.
  destruct (decide (key = key')) as [<-|Hk].
  - destruct prepend.
    + rewrite filter_cons. simpl.
      destruct (decide (l = l')) as [<-|Hl].
      * rewrite decide_True by done. simpl. lia.
      * rewrite decide_False by (intros [_ E]; congruence). lia.
    + rewrite filter_app, length_app, filter_cons. simpl.
      destruct (decide (l = l')) as [<-|Hl].
      * by rewrite decide_True.
      * by rewrite decide_False by (intros [_ E]; congruence).
  - rewrite decide_False by (intros [E _]; congruence). lia.
Qed.

Lemma registrations_unregister key l ob key' l' :
  registrations key' l' (Observer.unregister key l ob)
  = registrations key' l' ob
    - (if decide (key' = key /\ l' = l) then 1 else 0).
Proof.
  unfold registrations. rewrite listeners_unregister.
  destruct (decide (key = key')) as [<-|Hk].
  - rewrite strip_count.
    destruct (decide (l' = l)) as [->|Hl].
    + by rewrite decide_True.
    + by rewrite decide_False by (intros [_ E]; congruence).
  - rewrite decide_False by (intros [E _]; congruence). lia.
Qed.

(** X11.  Each of [on], [addListener], [once], [prependListener] and
    [prependOnceListener] adds exactly one registration of the function
    under the key of the event, and [removeListener] and [off] remove
    exactly one when there is one (none otherwise); the registrations of
    other functions and under other keys are not touched.  [hasListener]
    tells whether the function has a registration under the key. *)
Theorem registry_counts (ev : EventType) (l : Listener)
  (ob : EventObserver) (key' : string) (l' : Listener) :
  let here :=
    if decide (key' = getRegisterableEventName ev /\ l' = l) then 1 else 0 in
  registrations key' l' (Observer.on ev l ob)
  = registrations key' l' ob + here /\
  registrations key' l' (Observer.addListener ev l ob)
  = registrations key' l' ob + here /\
  registrations key' l' (Observer.once ev l ob)
  = registrations key' l' ob + here /\
  registrations key' l' (Observer.prependListener ev l ob)
  = registrations key' l' ob + here /\
  registrations key' l' (Observer.prependOnceListener ev l ob)
  = registrations key' l' ob + here /\
  registrations key' l' (Observer.removeListener ev l ob)
  = registrations key' l' ob - here /\
  registrations key' l' (Observer.off ev l ob)
  = registrations key' l' ob - here /\
  (Observer.hasListener ev l ob = true
   <-> 0 < registrations (getRegisterableEventName ev) l ob).
Proof.
  cbv zeta.
  repeat split; try apply registrations_register;
    try apply registrations_unregister.
  - intros (r & Hr & Hl)%has_spec. unfold registrations.
    assert (Hin : r ∈ filter (fun r => listener r = l)
                      (Observer.listeners (getRegisterableEventName ev) ob)).
    { by apply list_elem_of_filter. }
    destruct (filter _ _); [by apply elem_of_nil in Hin|simpl; lia].
  - intros Hpos. apply has_spec. unfold registrations in Hpos.
    destruct (filter _ _) as [|r rs] eqn:Hf; [simpl in Hpos; lia|].
    assert (Hin : r ∈ filter (fun r => listener r = l)
                      (Observer.listeners (getRegisterableEventName ev) ob)).
    { rewrite Hf. left. }
    apply list_elem_of_filter in Hin as [Hl Hr]. eauto.
Qed.

Lemma listeners_removeAllListeners ev ob key :
  Observer.listeners key (Observer.removeAllListeners ev ob)
  = match ev with
    | Some ev' =>
        if decide (key = getRegisterableEventName ev') then []
        else Observer.listeners key ob
    | None => []
    end.
Proof.
  destruct ev as [ev'|]; unfold Observer.listeners; simpl.
  - destruct (decide (key = getRegisterableEventName ev')) as [->|Hne].
    + by rewrite lookup_delete_eq.
    + by rewrite lookup_delete_ne.
  - by rewrite lookup_empty.
Qed.



(* ===================================================================== *)
(** * The cache, operation by operation                                   *)
(* ===================================================================== *)

(** X13.  [setIdCacheLimit] only ever drops the oldest ids: the cache
    after is a suffix of the cache before.  Two positive limits set one
    after the other leave what the smaller one leaves; removing the limit
    brings nothing back; setting the same limit twice is setting it
    once. *)
Theorem setIdCacheLimit_compose (m n : Z) (ob : EventObserver) :
  idCache (Observer.setIdCacheLimit n ob) `suffix_of` idCache ob /\
  ((0 < m)%Z -> (0 < n)%Z ->
   idCache (Observer.setIdCacheLimit n (Observer.setIdCacheLimit m ob))
   = idCache (Observer.setIdCacheLimit (Z.min m n) ob)) /\
  ((n <= 0)%Z ->
   idCache (Observer.setIdCacheLimit n (Observer.setIdCacheLimit m ob))
   = idCache (Observer.setIdCacheLimit m ob)) /\
  ((m <= 0)%Z ->
   idCache (Observer.setIdCacheLimit n (Observer.setIdCacheLimit m ob))
   = idCache (Observer.setIdCacheLimit n ob)) /\
  Observer.setIdCacheLimit n (Observer.setIdCacheLimit n ob)
  = Observer.setIdCacheLimit n ob.
Proof.
  unfold Observer.setIdCacheLimit. simpl.
  split; [|split; [|split; [|split]]].
  - unfold cache_evict. destruct (0 <? n)%Z; [apply suffix_drop|done].
  - intros Hm Hn. unfold cache_evict.
    destruct (Z.ltb_spec 0 m); [|lia]. destruct (Z.ltb_spec 0 n); [|lia].
    destruct (Z.ltb_spec 0 (Z.min m n)); [|lia].
    rewrite drop_drop, length_drop. f_equal. lia.
  - intros Hn. by rewrite (cache_evict_unbounded n).
  - intros Hm. by rewrite (cache_evict_unbounded m).
  - unfold with_limit, with_cache. simpl. f_equal.
    unfold cache_evict. destruct (Z.ltb_spec 0 n); [|done].
    rewrite drop_drop, length_drop. f_equal. lia.
Qed.

Lemma setIdCacheLimit_compose_witness :
  idCache
    (Observer.setIdCacheLimit 3
       (Observer.setIdCacheLimit 2
          (with_cache [1; 2; 3; 4; 5]%N (newObserver 0))))
  = [4; 5]%N.
Proof.
  rewrite (proj1 (proj2 (setIdCacheLimit_compose 2 3
                           (with_cache [1; 2; 3; 4; 5]%N (newObserver 0)))))
    by lia.
  reflexivity.
Defined.





(* ===================================================================== *)
(** * The id of an EmitEvent                                              *)
(* ===================================================================== *)

Lemma nested_ids_wrapper e g :
  nested_ids (fst (EmitEvent_new e g)) = sequence g (drawn g) :: nested_ids e.
Proof. done. Qed.

(** X16.  [new EmitEvent(event)] has no [data] (the base constructor is
    called without argument) and an id of its own: when [Guid.create()]
    never repeats and the ids of [event] and of the events nested in it
    were drawn earlier, the id of the wrapper differs from all of them, so
    that the ids along a chain of wrappers are pairwise distinct. *)
Theorem EmitEvent_fresh_id (e : Event) (g : GuidSource) :
  never_repeats g ->
  drawn_before g e ->
  data (fst (EmitEvent_new e g)) = JsUndefined /\
  (id (fst (EmitEvent_new e g)) ∉ nested_ids e) /\
  id (fst (EmitEvent_new e g)) <> id e /\
  (NoDup (nested_ids e) -> NoDup (nested_ids (fst (EmitEvent_new e g)))) /\
  drawn_before (snd (EmitEvent_new e g)) (fst (EmitEvent_new e g)).
Proof.
  intros Hg He.
  assert (Hout : sequence g (drawn g) ∉ nested_ids e).
  { intros Hin. destruct (He _ Hin) as (k & Hk & E).
    apply Hg in E. lia. }
  split; [done|]. split; [exact Hout|]. split.
  { intros E. apply Hout. simpl in E. rewrite E. apply nested_ids_head. }
  split.
  { intros Hnd. rewrite nested_ids_wrapper. by apply NoDup_cons. }
  intros i Hi. rewrite nested_ids_wrapper in Hi. simpl.
  apply elem_of_cons in Hi as [->|Hi].
  - exists (drawn g). split; [lia|done].
  - destruct (He i Hi) as (k & Hk & E). exists k. split; [lia|done].
Qed.

Lemma EmitEvent_fresh_id_witness :
  id Scenario.wrapped0 <> id Scenario.ping0 /\
  NoDup (nested_ids Scenario.wrapped0).
Proof.
  destruct (EmitEvent_fresh_id Scenario.ping0 Scenario.counter1)
    as (_ & _ & Hne & Hnd & _).
  - intros i j H. simpl in H. lia.
  - intros i Hi. exists 0. split; [simpl; lia|].
    vm_compute in Hi. apply list_elem_of_singleton in Hi. by subst.
  - split; [exact Hne|]. apply Hnd. vm_compute.
    apply NoDup_singleton.
Defined.
